(** * grid-control: parameter sources, job records and the local dispatcher

    A shallow embedding of
    - [packages/grid_control/job_db.py]                  (module [job_db]),
    - [packages/grid_control/parameters/psource_meta.py] (module [psource_meta]),
    - [packages/grid_control/backends/wms_local.py]      (module [wms_local]),
    and of further parts of these files, of
    [packages/grid_control/utils/process_base.py],
    [packages/grid_control/tasks/task_base.py] and
    [scripts/downloadFromSE.py] (the modules after [psource_spec]),
    followed by the properties established about them.

    Python objects are identified with the values of their attributes;
    methods that mutate [self] or an argument return the new value.  A
    constructor call that hands back one of its arguments says so, and
    says whether Python initialises that object again ([call_result]). *)

From Stdlib Require Import ZArith Lia.
From stdpp Require Import base option list gmap strings.

Local Open Scope Z_scope.
Local Set Warnings "-register-all".

(** ** Outcomes of calls that may raise *)

Inductive res (E A : Type) : Type :=
| Ok (a : A)
| Raise (e : E).
Arguments Ok {E A} a.
Arguments Raise {E A} e.

Definition res_bind {E A B} (f : A → res E B) (m : res E A) : res E B :=
  match m with
  | Ok a => f a
  | Raise e => Raise e
  end.

#[global] Instance res_mbind E : MBind (res E) := @res_bind E.
#[global] Instance res_mret E : MRet (res E) := @Ok E.

(** ** job_db.py *)

Module job_db.

(** [make_enum([...], Job)] *)
Inductive job_state : Set :=
| INIT | SUBMITTED | DISABLED | READY | WAITING | QUEUED | ABORTED
| RUNNING | CANCEL | UNKNOWN | CANCELLED | DONE | FAILED | SUCCESS.

#[global] Instance job_state_eq_dec : EqDecision job_state.
Proof. solve_decision. Defined.

(** The attributes of a [Job].  Timestamps are the readings of
    [time.time()], which the operations only store; they are passed in
    as [now]. *)
Record Job : Type := mkJob {
  state : job_state;
  attempt : Z;
  history : gmap Z string;
  gc_id : option string;
  submitted : Z;
  changed : Z;
  dict : gmap string string
}.

(** [Job.__init__] *)
Definition Job_init : Job :=
  {| state := INIT; attempt := 0; history := ∅; gc_id := None;
     submitted := 0; changed := 0; dict := ∅ |}.

(** [Job.assign_id] *)
Definition assign_id (self : Job) (new_id : option string) (now : Z) : Job :=
  {| state := state self;
     attempt := attempt self + 1;
     history := history self;
     gc_id := new_id;
     submitted := now;
     changed := changed self;
     dict := dict self |}.

(** [Job.get] *)
Definition get (self : Job) (key : string) (default_value : option string)
  : option string :=
  match dict self !! key with
  | Some v => Some v
  | None => default_value
  end.

(** [Job.set] *)
Definition set (self : Job) (key value : string) : Job :=
  {| state := state self;
     attempt := attempt self;
     history := history self;
     gc_id := gc_id self;
     submitted := submitted self;
     changed := changed self;
     dict := <[key := value]> (dict self) |}.

(** [Job.update] *)
Definition update (self : Job) (new_state : job_state) (now : Z) : Job :=
  {| state := new_state;
     attempt := attempt self;
     history :=
       <[attempt self := default "N/A"%string (dict self !! "dest"%string)]>
         (history self);
     gc_id := gc_id self;
     submitted := submitted self;
     changed := now;
     dict := dict self |}.

(** [JobClassHolder] and the selectors of [JobClass] *)
Definition JobClassHolder := list job_state.

Module JobClass.
Definition ATWMS : JobClassHolder := [SUBMITTED; WAITING; READY; QUEUED; UNKNOWN].
Definition CANCEL : JobClassHolder := [job_db.CANCEL].
Definition DISABLED : JobClassHolder := [job_db.DISABLED].
Definition DONE : JobClassHolder := [job_db.DONE].
Definition ENDSTATE : JobClassHolder := [job_db.SUCCESS; job_db.DISABLED].
Definition PROCESSED : JobClassHolder :=
  [job_db.SUCCESS; FAILED; CANCELLED; ABORTED].
Definition PROCESSING : JobClassHolder :=
  [SUBMITTED; WAITING; READY; QUEUED; UNKNOWN; RUNNING].
Definition RUNNING_DONE : JobClassHolder := [RUNNING; job_db.DONE].
Definition FAILING : JobClassHolder := [FAILED; ABORTED; CANCELLED].
Definition SUBMIT_CANDIDATES : JobClassHolder :=
  [INIT; FAILED; ABORTED; CANCELLED].
Definition SUCCESS : JobClassHolder := [job_db.SUCCESS].
End JobClass.

End job_db.

(** ** parameters/psource_meta.py *)

Module psource_meta.

(** A metadata entry as [fill_parameter_metadata] emits it: the parameter
    name [value] and the [untracked] flag. *)
Record ParameterMetadata : Type := mkMetadata {
  value : string;
  untracked : bool
}.

(** The two messages of [ParameterError] raised in this file.  Sources are
    named by their position in [_psrc_list]. *)
Inductive ParameterError : Type :=
| Collisions_of_parameter (vn : string) (psrc prev : nat)
| Collisions_of_tracking_status (vn : string) (psrc : nat) (prev : list nat).

Inductive exn : Type :=
| TypeError
| ZeroDivisionError
| ParameterErr (e : ParameterError).

(** The subclasses of [MultiParameterSource] that keep its [__new__]. *)
Inductive multi_class : Set :=
| ChainParameterSource
| CrossParameterSource
| ZipLongParameterSource
| ZipShortParameterSource.

#[global] Instance multi_class_eq_dec : EqDecision multi_class.
Proof. solve_decision. Defined.

Section sources.

(** [result] is the object handed to [fill_parameter_content]. *)
Variable result : Type.

(** [NullParameterSource] is imported from [psource_base]; the length it
    reports is left open. *)
Variable null_len : option Z.

(** Parameter sources with the attributes their methods read.  A length
    of [None] is Python's [None]: the source is unbounded.  [Leaf] stands
    for any source defined outside this file. *)
Inductive ParameterSource : Type :=
| Null
| Leaf (len : option Z) (content : Z → result → result)
    (metadata : list ParameterMetadata)
| Range (psrc : ParameterSource) (pos_start : Z) (pos_end_user : option Z)
    (pos_end : Z)
| Truncate (psrc : ParameterSource) (psrc_len : option Z) (max_len : Z)
| Multi (cls : multi_class) (psrc_list : list ParameterSource)
    (psrc_max_list : list (option Z)) (psrc_max : option Z)
| Repeat (psrc : ParameterSource) (times : Z) (psrc_child_max : option Z)
    (psrc_max : option Z).

(** What [__new__] hands back: an object that exists already, or a fresh
    instance on which [__init__] then runs.  Python also runs [__init__]
    on an existing object that [__new__] hands back when it is an instance
    of the class under construction; [call_result] below records that. *)
Inductive new_result : Type :=
| Existing (psrc : ParameterSource)
| Allocated.

(** What a constructor call [cls(...)] evaluates to.  [made psrc]: an
    object made during the call and initialised once, with the attributes
    [psrc].  [handed_back psrc init_again]: the object [psrc] that was an
    argument of the call; when [init_again] holds, Python has run the
    [__init__] of the object's class on it once more with the arguments of
    the call, and what its attributes are after that is not described. *)
Inductive call_result : Type :=
| made (psrc : ParameterSource)
| handed_back (psrc : ParameterSource) (init_again : bool).

(** The object a call evaluates to, as it is when [__new__] hands it
    back *)
Definition object_of (r : call_result) : ParameterSource :=
  match r with
  | made psrc => psrc
  | handed_back psrc _ => psrc
  end.

(** [isinstance(obj, cls)] for the four classes; [ErrorParameterSource]
    derives from [ChainParameterSource] and its instances are chains. *)
Definition instance_of (cls : multi_class) (obj : ParameterSource) : bool :=
  match obj with
  | Multi c _ _ _ => bool_decide (c = cls)
  | _ => false
  end.

(** [isinstance(obj, RepeatParameterSource)] *)
Definition is_repeat (obj : ParameterSource) : bool :=
  match obj with
  | Repeat _ _ _ _ => true
  | _ => false
  end.

Definition is_null (p : ParameterSource) : bool :=
  match p with
  | Null => true
  | _ => false
  end.

(** [get_parameter_len] of each class *)
Definition get_parameter_len (self : ParameterSource) : option Z :=
  match self with
  | Null => null_len
  | Leaf len _ _ => len
  | Range _ pos_start _ pos_end => Some (pos_end - pos_start + 1)
  | Truncate _ _ max_len => Some max_len
  | Multi _ _ _ psrc_max => psrc_max
  | Repeat _ _ _ psrc_max => psrc_max
  end.

(** [_strip_null_sources] *)
Definition _strip_null_sources (psrc_list : list ParameterSource)
  : list ParameterSource :=
  List.filter (λ p, negb (is_null p)) psrc_list.

(** [_simplify_nested_sources] *)
Definition _simplify_nested_sources (cls : multi_class)
    (psrc_list : list ParameterSource) : list ParameterSource :=
  flat_map (λ psrc,
    match psrc with
    | Multi c nested _ _ => if decide (c = cls) then nested else [psrc]
    | _ => [psrc]
    end) psrc_list.

(** [lfilter(lambda n: n is not None, ...)] *)
Fixpoint not_None (l : list (option Z)) : list Z :=
  match l with
  | [] => []
  | Some n :: l' => n :: not_None l'
  | None :: l' => not_None l'
  end.

(** [sum] raises on an entry that is [None]. *)
Fixpoint sum (l : list (option Z)) : res exn Z :=
  match l with
  | [] => Ok 0
  | Some n :: l' => s ← sum l'; Ok (n + s)
  | None :: _ => Raise TypeError
  end.

(** [len_fun(psrc_max)] and [reduce] on a list known to be non-empty *)
Definition reduce (f : Z → Z → Z) (l : list Z) : option Z :=
  match l with
  | [] => None
  | n :: l' => Some (fold_left f l' n)
  end.

(** [CrossParameterSource._init_psrc_max], first part: the pairs
    [(psrc_max, psrc_group_size)] of [_psrc_info_list]. *)
Fixpoint _psrc_info_list (psrc_max_list : list (option Z))
    (psrc_group_size : Z) : list (option Z * Z) :=
  match psrc_max_list with
  | [] => []
  | psrc_max :: rest =>
      (psrc_max, psrc_group_size) ::
      _psrc_info_list rest
        match psrc_max with
        | Some m => if m =? 0 then psrc_group_size else psrc_group_size * m
        | None => psrc_group_size
        end
  end.

(** [_init_psrc_max] of the four classes *)
Definition _init_psrc_max (cls : multi_class) (psrc_max_list : list (option Z))
  : res exn (option Z) :=
  match cls with
  | ChainParameterSource => s ← sum psrc_max_list; Ok (Some s)
  | CrossParameterSource => Ok (reduce Z.mul (not_None psrc_max_list))
  | ZipLongParameterSource => Ok (reduce Z.max (not_None psrc_max_list))
  | ZipShortParameterSource => Ok (reduce Z.min (not_None psrc_max_list))
  end.

(** [MultiParameterSource.__new__] *)
Definition MultiParameterSource_new (psrc_list : list ParameterSource)
  : new_result :=
  match _strip_null_sources psrc_list with
  | [psrc] => Existing psrc
  | [] => Existing Null
  | _ => Allocated
  end.

(** [MultiParameterSource.__init__] *)
Definition MultiParameterSource_init (cls : multi_class)
    (psrc_list : list ParameterSource) : res exn ParameterSource :=
  let psrc_list := _strip_null_sources psrc_list in
  let psrc_max_list := map get_parameter_len psrc_list in
  psrc_max ← _init_psrc_max cls psrc_max_list;
  Ok (Multi cls psrc_list psrc_max_list psrc_max).

(** The call [TruncateParameterSource(psrc, max_len)]: [__new__], then
    [__init__] on a fresh instance.  For [max_len < 0] the call evaluates
    to [psrc] itself, on which Python runs [__init__] again when it is a
    truncate node; the statements below call it with [0 <= max_len]. *)
Definition TruncateParameterSource (psrc : ParameterSource) (max_len : Z)
  : ParameterSource :=
  if max_len =? 0 then Null
  else if max_len <? 0 then psrc
  else Truncate psrc (get_parameter_len psrc) max_len.

(** [RangeParameterSource._get_pos_end] *)
Definition _get_pos_end (psrc : ParameterSource) (pos_end_user : option Z)
  : res exn Z :=
  match pos_end_user with
  | None =>
      match get_parameter_len psrc with
      | Some n => Ok (n - 1)
      | None => Raise TypeError
      end
  | Some e => Ok e
  end.

(** The call [RangeParameterSource(psrc, pos_start, pos_end)] *)
Definition RangeParameterSource (psrc : ParameterSource)
    (pos_start pos_end : option Z) : res exn ParameterSource :=
  e ← _get_pos_end psrc pos_end;
  Ok (Range psrc (default 0 pos_start) pos_end e).

(** [BaseZipParameterSource.__init__] and [CrossParameterSource.__init__] *)
Definition nested_init (cls : multi_class) (psrc_list : list ParameterSource)
  : res exn ParameterSource :=
  MultiParameterSource_init cls (_simplify_nested_sources cls psrc_list).

(** [ChainParameterSource.__init__] *)
Definition wrap_infinite (psrc : ParameterSource) : ParameterSource :=
  match get_parameter_len psrc with
  | None => TruncateParameterSource psrc 1
  | Some _ => psrc
  end.

Definition ChainParameterSource_init (psrc_list : list ParameterSource)
  : res exn ParameterSource :=
  MultiParameterSource_init ChainParameterSource
    (map wrap_infinite (_strip_null_sources psrc_list)).

(** The calls [ZipLongParameterSource(...)] and
    [ZipShortParameterSource(...)]: the object the call evaluates to, as
    it is when [__new__] hands it back ([call_zip] below says whether
    [__init__] runs on it again). *)
Definition new_zip (cls : multi_class) (psrc_list : list ParameterSource)
  : res exn ParameterSource :=
  match MultiParameterSource_new psrc_list with
  | Existing psrc => Ok psrc
  | Allocated => nested_init cls psrc_list
  end.

(** The call [ChainParameterSource(...)]: the object the call evaluates
    to, as it is when [__new__] hands it back.  When that object is one of
    the arguments and is itself a chain, [__init__] runs on it again
    ([call_chain] below) and the object is no longer what it was. *)
Definition new_chain (psrc_list : list ParameterSource)
  : res exn ParameterSource :=
  match MultiParameterSource_new psrc_list with
  | Existing psrc => Ok psrc
  | Allocated => ChainParameterSource_init psrc_list
  end.

(** What follows [MultiParameterSource.__new__] in a call of class [cls]:
    the null source it returns for no child is a new object; the single
    child it returns is an argument, on which [__init__] runs again when
    it is an instance of [cls]; a fresh instance is initialised by
    [init]. *)
Definition call_after_new (cls : multi_class)
    (init : res exn ParameterSource) (n : new_result) : res exn call_result :=
  match n with
  | Existing psrc =>
      Ok (if is_null psrc then made psrc
          else handed_back psrc (instance_of cls psrc))
  | Allocated => c ← init; Ok (made c)
  end.

(** The calls [ZipLongParameterSource(...)] and
    [ZipShortParameterSource(...)], with what Python does after
    [__new__] *)
Definition call_zip (cls : multi_class) (psrc_list : list ParameterSource)
  : res exn call_result :=
  call_after_new cls (nested_init cls psrc_list)
    (MultiParameterSource_new psrc_list).

(** The call [ChainParameterSource(...)], with what Python does after
    [__new__] *)
Definition call_chain (psrc_list : list ParameterSource)
  : res exn call_result :=
  call_after_new ChainParameterSource (ChainParameterSource_init psrc_list)
    (MultiParameterSource_new psrc_list).

(** [CrossParameterSource.__new__] *)
Definition is_finite (p : ParameterSource) : bool :=
  match get_parameter_len p with
  | Some _ => true
  | None => false
  end.

Definition CrossParameterSource_new (psrc_list : list ParameterSource)
  : res exn new_result :=
  let psrc_list := _strip_null_sources psrc_list in
  if (length (List.filter is_finite psrc_list) <? 2)%nat
  then psrc ← new_zip ZipLongParameterSource psrc_list; Ok (Existing psrc)
  else Ok Allocated.

(** The call [CrossParameterSource(...)] *)
Definition new_cross (psrc_list : list ParameterSource)
  : res exn ParameterSource :=
  n ← CrossParameterSource_new psrc_list;
  match n with
  | Existing psrc => Ok psrc
  | Allocated => nested_init CrossParameterSource psrc_list
  end.

(** The constructor call of each of the four classes *)
Definition new_multi (cls : multi_class) (psrc_list : list ParameterSource)
  : res exn ParameterSource :=
  match cls with
  | ChainParameterSource => new_chain psrc_list
  | CrossParameterSource => new_cross psrc_list
  | ZipLongParameterSource => new_zip ZipLongParameterSource psrc_list
  | ZipShortParameterSource => new_zip ZipShortParameterSource psrc_list
  end.

(** The call [CrossParameterSource(...)], with what Python does after
    [__new__]: with fewer than two children that have a length, [__new__]
    returns what the call of [ZipLongParameterSource] on the children that
    are not null evaluates to, and [CrossParameterSource.__init__] runs on
    that object when it is a cross. *)
Definition call_cross (psrc_list : list ParameterSource)
  : res exn call_result :=
  let stripped := _strip_null_sources psrc_list in
  if (length (List.filter is_finite stripped) <? 2)%nat
  then
    r ← call_zip ZipLongParameterSource stripped;
    Ok match r with
       | made psrc => made psrc
       | handed_back psrc init_again =>
           handed_back psrc
             (init_again || instance_of CrossParameterSource psrc)
       end
  else c ← nested_init CrossParameterSource psrc_list; Ok (made c).

(** The constructor call of each of the four classes, with what Python
    does after [__new__] *)
Definition call_multi (cls : multi_class) (psrc_list : list ParameterSource)
  : res exn call_result :=
  match cls with
  | ChainParameterSource => call_chain psrc_list
  | CrossParameterSource => call_cross psrc_list
  | ZipLongParameterSource => call_zip ZipLongParameterSource psrc_list
  | ZipShortParameterSource => call_zip ZipShortParameterSource psrc_list
  end.

(** [RepeatParameterSource.__new__] *)
Definition RepeatParameterSource_new (psrc : ParameterSource) (times : Z)
  : new_result :=
  if times <? 0 then Existing psrc
  else match get_parameter_len psrc with
       | None => Existing (TruncateParameterSource psrc times)
       | Some _ =>
           if times =? 0 then Existing Null
           else if times =? 1 then Existing psrc
           else Allocated
       end.

(** [RepeatParameterSource.__init__] with its [_init_psrc_max] *)
Definition RepeatParameterSource_init (psrc : ParameterSource) (times : Z)
  : ParameterSource :=
  let psrc_child_max := get_parameter_len psrc in
  Repeat psrc times psrc_child_max
    (Some match psrc_child_max with
          | Some n => times * n
          | None => times
          end).

(** The call [RepeatParameterSource(psrc, times)]: the object the call
    evaluates to, as it is when [__new__] hands it back.  When that object
    is [psrc] and [psrc] is itself a repeat, [__init__] runs on it again
    ([call_repeat] below) and the object is no longer what it was. *)
Definition new_repeat (psrc : ParameterSource) (times : Z) : ParameterSource :=
  match RepeatParameterSource_new psrc times with
  | Existing p => p
  | Allocated => RepeatParameterSource_init psrc times
  end.

(** The call [RepeatParameterSource(psrc, times)], with what Python does
    after [__new__]: [psrc] is handed back for [times < 0] and for
    [times == 1], and [__init__] runs on it again when it is a repeat; the
    null source and the truncate node are new objects, and no repeats. *)
Definition call_repeat (psrc : ParameterSource) (times : Z) : call_result :=
  if times <? 0 then handed_back psrc (is_repeat psrc)
  else match get_parameter_len psrc with
       | None => made (TruncateParameterSource psrc times)
       | Some _ =>
           if times =? 0 then made Null
           else if times =? 1 then handed_back psrc (is_repeat psrc)
           else made (RepeatParameterSource_init psrc times)
       end.

(** *** fill_parameter_content *)

Section content_loops.

Variable fill : ParameterSource → Z → result → res exn result.
Variable pnum : Z.

(** The loop of [ChainParameterSource.fill_parameter_content] *)
Fixpoint chain_content (psrc_list : list ParameterSource)
    (psrc_max_list : list (option Z)) (limit : Z) (r : result)
  : res exn result :=
  match psrc_list, psrc_max_list with
  | psrc :: psrc_list', psrc_max :: psrc_max_list' =>
      match psrc_max with
      | Some m =>
          if pnum <? limit + m then fill psrc (pnum - limit) r
          else chain_content psrc_list' psrc_max_list' (limit + m) r
      | None => Raise TypeError
      end
  | _, _ => Ok r
  end.

(** The loop of [CrossParameterSource.fill_parameter_content] over
    [_psrc_info_list].  [int(pnum / psrc_group_size)] is taken as the
    quotient of the two integers rounded down.  That is what Python 2
    computes; Python 3 computes it for [0 <= pnum] as long as the division
    is exact in floating point (below [2^53]), and rounds toward zero for
    [pnum < 0].  The statements about crosses are for [0 <= pnum]. *)
Fixpoint cross_content (psrc_list : list ParameterSource)
    (info_list : list (option Z * Z)) (r : result) : res exn result :=
  match psrc_list, info_list with
  | psrc :: psrc_list', (psrc_max, psrc_group_size) :: info_list' =>
      match psrc_max with
      | Some m =>
          if m =? 0 then cross_content psrc_list' info_list' r
          else r' ← fill psrc ((pnum / psrc_group_size) mod m) r;
               cross_content psrc_list' info_list' r'
      | None =>
          r' ← fill psrc pnum r;
          cross_content psrc_list' info_list' r'
      end
  | _, _ => Ok r
  end.

(** The loop of [BaseZipParameterSource.fill_parameter_content] *)
Fixpoint zip_content (psrc_list : list ParameterSource)
    (psrc_max_list : list (option Z)) (r : result) : res exn result :=
  match psrc_list, psrc_max_list with
  | psrc :: psrc_list', psrc_len :: psrc_max_list' =>
      match psrc_len with
      | Some n =>
          if pnum <? n
          then r' ← fill psrc pnum r; zip_content psrc_list' psrc_max_list' r'
          else zip_content psrc_list' psrc_max_list' r
      | None =>
          r' ← fill psrc pnum r;
          zip_content psrc_list' psrc_max_list' r'
      end
  | _, _ => Ok r
  end.

End content_loops.

(** Modelled from the spec: [NullParameterSource] is defined in
    [psource_base] (not among the sources); filling it is a no-op. *)
Definition Null_fill_parameter_content (pnum : Z) (r : result)
  : res exn result :=
  Ok r.

(** [fill_parameter_content] of each class *)
Fixpoint fill_parameter_content (self : ParameterSource) (pnum : Z)
    (r : result) {struct self} : res exn result :=
  match self with
  | Null => Null_fill_parameter_content pnum r
  | Leaf _ content _ => Ok (content pnum r)
  | Range psrc pos_start _ _ =>
      fill_parameter_content psrc (pnum + pos_start) r
  | Truncate psrc psrc_len _ =>
      match psrc_len with
      | None => fill_parameter_content psrc pnum r
      | Some n =>
          if pnum <? n then fill_parameter_content psrc pnum r else Ok r
      end
  | Multi ChainParameterSource psrc_list psrc_max_list _ =>
      chain_content fill_parameter_content pnum psrc_list psrc_max_list 0 r
  | Multi CrossParameterSource psrc_list psrc_max_list _ =>
      cross_content fill_parameter_content pnum psrc_list
        (_psrc_info_list psrc_max_list 1) r
  | Multi _ psrc_list psrc_max_list _ =>
      zip_content fill_parameter_content pnum psrc_list psrc_max_list r
  | Repeat psrc _ psrc_child_max _ =>
      match psrc_child_max with
      | Some n =>
          if n =? 0 then Raise ZeroDivisionError
          else fill_parameter_content psrc (pnum mod n) r
      | None => Raise TypeError
      end
  end.

(** *** fill_parameter_metadata

    The method appends to the list it is given; the list after the call is
    returned. *)

(** Inner loop of [MultiParameterSource.fill_parameter_metadata] *)
Fixpoint multi_metadata_list (psrc : nat) (metadata_list : list ParameterMetadata)
    (map_vn2psrc : gmap string nat) (result_list : list ParameterMetadata)
  : res exn (gmap string nat * list ParameterMetadata) :=
  match metadata_list with
  | [] => Ok (map_vn2psrc, result_list)
  | metadata :: rest =>
      let vn := value metadata in
      match map_vn2psrc !! vn with
      | Some prev => Raise (ParameterErr (Collisions_of_parameter vn psrc prev))
      | None =>
          multi_metadata_list psrc rest (<[vn := psrc]> map_vn2psrc)
            (result_list ++ [metadata])
      end
  end.

(** Inner loop of [ChainParameterSource.fill_parameter_metadata] *)
Fixpoint chain_metadata_list (psrc : nat) (metadata_list : list ParameterMetadata)
    (map_vn2tracking_status : gmap string bool)
    (map_vn2psrc_list : gmap string (list nat))
    (result_list : list ParameterMetadata)
  : res exn (gmap string bool * gmap string (list nat) * list ParameterMetadata) :=
  match metadata_list with
  | [] => Ok (map_vn2tracking_status, map_vn2psrc_list, result_list)
  | metadata :: rest =>
      let vn := value metadata in
      let tracking_status :=
        default (untracked metadata) (map_vn2tracking_status !! vn) in
      let map_vn2tracking_status :=
        <[vn := tracking_status]> map_vn2tracking_status in
      if negb (eqb tracking_status (untracked metadata))
      then Raise (ParameterErr (Collisions_of_tracking_status vn psrc
                                  (default [] (map_vn2psrc_list !! vn))))
      else
        chain_metadata_list psrc rest map_vn2tracking_status
          (<[vn := default [] (map_vn2psrc_list !! vn) ++ [psrc]]>
             map_vn2psrc_list)
          match map_vn2psrc_list !! vn with
          | None => result_list ++ [metadata]
          | Some _ => result_list
          end
  end.

Section metadata_loops.

Variable fill : ParameterSource → list ParameterMetadata →
                res exn (list ParameterMetadata).

(** Outer loop of [MultiParameterSource.fill_parameter_metadata] *)
Fixpoint multi_metadata (psrc_list : list ParameterSource) (psrc : nat)
    (map_vn2psrc : gmap string nat) (result_list : list ParameterMetadata)
  : res exn (list ParameterMetadata) :=
  match psrc_list with
  | [] => Ok result_list
  | p :: psrc_list' =>
      metadata_list ← fill p [];
      st ← multi_metadata_list psrc metadata_list map_vn2psrc result_list;
      multi_metadata psrc_list' (S psrc) st.1 st.2
  end.

(** Outer loop of [ChainParameterSource.fill_parameter_metadata] *)
Fixpoint chain_metadata (psrc_list : list ParameterSource) (psrc : nat)
    (map_vn2tracking_status : gmap string bool)
    (map_vn2psrc_list : gmap string (list nat))
    (result_list : list ParameterMetadata)
  : res exn (list ParameterMetadata) :=
  match psrc_list with
  | [] => Ok result_list
  | p :: psrc_list' =>
      metadata_list ← fill p [];
      st ← chain_metadata_list psrc metadata_list map_vn2tracking_status
             map_vn2psrc_list result_list;
      chain_metadata psrc_list' (S psrc) st.1.1 st.1.2 st.2
  end.

End metadata_loops.

(** Modelled from the spec: [NullParameterSource] is defined in
    [psource_base] (not among the sources); it has no parameter to
    describe. *)
Definition Null_fill_parameter_metadata (result_list : list ParameterMetadata)
  : res exn (list ParameterMetadata) :=
  Ok result_list.

(** [fill_parameter_metadata] of each class *)
Fixpoint fill_parameter_metadata (self : ParameterSource)
    (result_list : list ParameterMetadata) {struct self}
  : res exn (list ParameterMetadata) :=
  match self with
  | Null => Null_fill_parameter_metadata result_list
  | Leaf _ _ metadata => Ok (result_list ++ metadata)
  | Range psrc _ _ _ => fill_parameter_metadata psrc result_list
  | Truncate psrc _ _ => fill_parameter_metadata psrc result_list
  | Multi ChainParameterSource psrc_list _ _ =>
      chain_metadata fill_parameter_metadata psrc_list 0%nat ∅ ∅ result_list
  | Multi _ psrc_list _ _ =>
      multi_metadata fill_parameter_metadata psrc_list 0%nat ∅ result_list
  | Repeat psrc _ _ _ => fill_parameter_metadata psrc result_list
  end.


End sources.
End psource_meta.

(** ** backends/wms_local.py *)

Module wms_local.

(** Exceptions: [BackendError] keeps the exceptions it wraps. *)
Inductive exn : Type :=
| Exception (msg : string)
| BackendError (msg : string) (nested : list exn).

(** What [proc.status(timeout = 20, terminate = True)] reports. *)
Inductive status : Type :=
| exit_status (code : Z)
| signal_name (name : string)
| no_status.

Definition status_is_zero (s : status) : bool :=
  match s with
  | exit_status code => code =? 0
  | _ => false
  end.

(** The submit process once [status] has returned: its exit code and the
    text read from its stdout, stripped. *)
Record LocalProcess : Type := mkProcess {
  proc_status : status;
  proc_stdout : string
}.

Inductive log_record : Type :=
| warning_failed (submitExec : string)
| warning_no_job_id (submitExec gc_idText : string)
| log_process (proc : LocalProcess).

(** The part of the environment [_submit_job] writes to: the files it
    opens for writing and the log. *)
Record world : Type := mkWorld {
  files : list string;
  log : list log_record
}.

Definition add_log (w : world) (l : log_record) : world :=
  {| files := files w; log := log w ++ [l] |}.

Definition touch (w : world) (path : string) : world :=
  {| files := files w ++ [path]; log := log w |}.

Definition path_join (dir name : string) : string :=
  (dir ++ "/" ++ name)%string.

(** Python truth value of a string or [None] *)
Definition truthy (s : option string) : bool :=
  match s with
  | Some s => negb (String.eqb s "")
  | None => false
  end.

Section LocalWMS.

Variable submitExec : string.
Variable wms_name : string.

(** The hook [parseSubmitOutput] of the backend: it raises, or returns
    [None] or a string. *)
Variable parseSubmitOutput : string → res exn (option string).

(** Modelled from the spec: [_create_gc_id] is inherited from [BasicWMS]
    (backends/wms.py, not among the sources); it forms
    [WMSID.<backend>.<raw>], the format [LocalPurgeJobs.execute] looks up. *)
Definition _create_gc_id (raw : string) : string :=
  ("WMSID." ++ wms_name ++ "." ++ raw)%string.

(** [LocalWMS._submit_job] from the point where the submit process has
    been started in the sandbox that was created for the job. *)
Definition _submit_job (jobnum : Z) (sandbox : string) (proc : LocalProcess)
    (w : world) : world * (Z * option string * gmap string string) :=
  let exit_code := proc_status proc in
  let gc_idText := proc_stdout proc in
  let gc_id :=
    match parseSubmitOutput gc_idText with
    | Ok v => v
    | Raise _ => None
    end in
  let w :=
    if negb (status_is_zero exit_code) then add_log w (warning_failed submitExec)
    else match gc_id with
         | None => add_log w (warning_no_job_id submitExec gc_idText)
         | Some _ => w
         end in
  if truthy gc_id
  then
    let gc_id := _create_gc_id (default ""%string gc_id) in
    (touch w (path_join sandbox gc_id),
     (jobnum, Some gc_id, {[ "sandbox"%string := sandbox ]}))
  else
    (add_log w (log_process proc),
     (jobnum, None, {[ "sandbox"%string := sandbox ]})).

End LocalWMS.

Section Local.

(** Backend classes and dispatcher instances, and the lookups that
    [Local.__new__] calls: each returns or raises. *)
Variable wms_class : Type.
Variable WMS : Type.
Variable get_class : string → res exn wms_class.
Variable create_instance : string → wms_class → res exn WMS.
Variable resolve_install_path : string → res exn string.

(** The nested function [createWMS] *)
Definition createWMS (wms : string) : res exn WMS :=
  match get_class wms with
  | Raise _ =>
      Raise (BackendError ("Unable to load backend class '" ++ wms ++ "'") [])
  | Ok wmsCls => create_instance wms wmsCls
  end.

(** Modelled from the spec: [ExceptionCollector] comes from [hpfwk] (not
    among the sources).  [collect] keeps the exception being handled;
    [raise_any] raises its argument, aggregating what was collected, when
    something was collected. *)
Definition raise_any (ec : list exn) (msg : string) : res exn unit :=
  match ec with
  | [] => Ok ()
  | _ => Raise (BackendError msg ec)
  end.

Definition probes : list (string * string) :=
  [("sacct", "SLURM"); ("sgepasswd", "OGE"); ("pbs-config", "PBS");
   ("qsub", "OGE"); ("bsub", "LSF"); ("job_slurm", "JMS")]%string.

(** The loop of [Local.__new__] and the statement after it.  The commands
    handed to [resolve_install_path] are recorded in [probed]; a
    constructor that falls off its end returns [None]. *)
Fixpoint probe (l : list (string * string)) (ec : list exn)
    (probed : list string) : list string * res exn (option WMS) :=
  match l with
  | [] =>
      (probed,
       _ ← raise_any ec "No valid local backend found!"; Ok None)
  | (cmd, wms) :: l' =>
      match resolve_install_path cmd with
      | Raise e => probe l' (ec ++ [e]) (probed ++ [cmd])
      | Ok _ => (probed ++ [cmd], inst ← createWMS wms; Ok (Some inst))
      end
  end.

(** [Local.__new__], given the value of the option [wms] *)
Definition Local_new (wms : string) : list string * res exn (option WMS) :=
  if negb (String.eqb wms "")
  then ([], inst ← createWMS wms; Ok (Some inst))
  else probe probes [] [].

End Local.

End wms_local.

(** ** Concrete sources and inputs used to instantiate the statements *)

Module examples.
Import psource_meta.

(** The result object of the examples lists the writes [(name, pnum)] in
    the order they happened. *)
Definition writes : Type := list (string * Z).

Definition psrc : Type := ParameterSource writes.

(** The length of the null source in the examples *)
Definition null_len : option Z := Some 0.

(** A leaf of [n] points: a variable [name] with [n] values *)
Definition var (name : string) (n : Z) : psrc :=
  Leaf writes (Some n) (λ pnum r, r ++ [(name, pnum)])
    [mkMetadata name false].

(** An unbounded leaf, such as a counter *)
Definition counter (name : string) : psrc :=
  Leaf writes None (λ pnum r, r ++ [(name, pnum)]) [mkMetadata name true].

(** The value carried by [Ok] *)
Definition from_ok {E A} (d : A) (m : res E A) : A :=
  match m with
  | Ok a => a
  | Raise _ => d
  end.

(** [cross(A, B, N)] with two finite children and an unbounded one *)
Definition cross_ABN : psrc :=
  from_ok (Null writes)
    (new_cross writes null_len [var "A" 2; var "B" 2; counter "N"]).

(** [cross(A, B)] *)
Definition cross_AB : psrc :=
  from_ok (Null writes) (new_cross writes null_len [var "A" 2; var "B" 2]).

(** [range(name, start, 0)] over a variable with five values: its length
    is [0 - start + 1]. *)
Definition range_to_0 (name : string) (start : Z) : psrc :=
  from_ok (Null writes)
    (RangeParameterSource writes null_len (var name 5) (Some start) (Some 0)).

(** A [parseSubmitOutput] that accepts the output [JOB 42] *)
Definition parse_job (data : string)
  : res wms_local.exn (option string) :=
  if String.eqb data "JOB 42" then Ok (Some "42"%string)
  else Raise (wms_local.Exception "no job id").

(** A search path on which only [bsub] is found *)
Definition only_bsub (cmd : string) : res wms_local.exn string :=
  if String.eqb cmd "bsub" then Ok "/usr/bin/bsub"%string
  else Raise (wms_local.Exception cmd).

End examples.

(** Sum and product of a list of lengths *)
Definition Zsum (l : list Z) : Z := foldr Z.add 0 l.
Definition Zprod (l : list Z) : Z := foldr Z.mul 1 l.

(** ** Conditions on sources used in the statements *)

Module psource_spec.
Import psource_meta.

(** The parameter names of a list of metadata entries *)
Definition names (l : list ParameterMetadata) : list string := value <$> l.

(** Entries with the same name carry the same tracking flag. *)
Definition agree (l : list ParameterMetadata) : Prop :=
  ∀ md1 md2, md1 ∈ l → md2 ∈ l → value md1 = value md2 →
             untracked md1 = untracked md2.

(** Loop invariant of [MultiParameterSource.fill_parameter_metadata]:
    [map_vn2psrc] holds the names of the entries [seen] so far, none of
    them twice. *)
Definition multi_inv (map_vn2psrc : gmap string nat)
    (seen : list ParameterMetadata) : Prop :=
  NoDup (names seen) ∧
  ∀ vn, is_Some (map_vn2psrc !! vn) ↔ vn ∈ names seen.

(** Loop invariant of [ChainParameterSource.fill_parameter_metadata], the
    state after the entries [seen]: the maps hold the
    names seen and their flag, and [r] is what was appended to the
    result. *)
Definition chain_inv (map_vn2tracking_status : gmap string bool)
    (map_vn2psrc_list : gmap string (list nat))
    (r seen : list ParameterMetadata) : Prop :=
  agree seen ∧
  (∀ vn b, map_vn2tracking_status !! vn = Some b ↔
           ∃ md, md ∈ seen ∧ value md = vn ∧ untracked md = b) ∧
  (∀ vn, is_Some (map_vn2psrc_list !! vn) ↔ vn ∈ names seen) ∧
  NoDup (names r) ∧
  r `sublist_of` seen ∧
  (∀ vn, vn ∈ names seen → vn ∈ names r).

Section with_sources.

Variable result : Type.
Variable null_len : option Z.

(** A multi-source holds what [MultiParameterSource.__init__] stores: no
    null child, the lengths of its children, and the value of
    [_init_psrc_max]. *)
Definition initialised (s : ParameterSource result) : Prop :=
  match s with
  | Multi _ cls kids maxes m =>
      _strip_null_sources result kids = kids ∧
      maxes = map (get_parameter_len result null_len) kids ∧
      _init_psrc_max cls maxes = Ok m
  | _ => True
  end.

(** The length of a source is a count: a number that is not negative. *)
Definition counted (p : ParameterSource result) : Prop :=
  ∃ n, get_parameter_len result null_len p = Some n ∧ 0 ≤ n.

(** What [_simplify_nested_sources] yields for one argument of a cross *)
Definition splice (s : ParameterSource result) : list (ParameterSource result) :=
  match s with
  | Multi _ c nested _ _ =>
      if decide (c = CrossParameterSource) then nested else [s]
  | _ => [s]
  end.

End with_sources.
End psource_spec.

(** ** parameters/psource_meta.py: translation of indices and resync *)

Module psource_translate.
Import psource_meta.

(** The exceptions of [psource_meta], and the [IndexError] of a list index
    that is out of range *)
Inductive error : Type :=
| IndexError
| Error (e : exn).

(** A list comprehension whose body may raise *)
Fixpoint res_mapM {E A B} (f : A → res E B) (l : list A) : res E (list B) :=
  match l with
  | [] => Ok []
  | x :: l' => y ← f x; ys ← res_mapM f l'; Ok (y :: ys)
  end.

(** [lfilter] with a test that may raise *)
Fixpoint res_filterM {E A} (f : A → res E bool) (l : list A) : res E (list A) :=
  match l with
  | [] => Ok []
  | x :: l' =>
      b ← f x; ys ← res_filterM f l'; Ok (if b : bool then x :: ys else ys)
  end.

(** [ChainParameterSource._init_psrc_max]: the partial sums kept in
    [_offset_list] *)
Definition _offset_list {A} (psrc_list : list A)
    (psrc_max_list : list (option Z)) : res exn (list Z) :=
  res_mapM (λ psrc_idx, sum (take psrc_idx psrc_max_list))
    (seq 0 (length psrc_list)).

(** [ChainParameterSource._translate_pnum] *)
Definition Chain_translate_pnum (offset_list : list Z) (psrc_idx : nat)
    (pnum : Z) : res error (list Z) :=
  match offset_list !! psrc_idx with
  | Some offset => Ok [pnum + offset]
  | None => Raise IndexError
  end.

(** [RepeatParameterSource._translate_pnum] *)
Definition Repeat_translate_pnum (times : Z) (psrc_child_max : option Z)
    (pnum : Z) : res exn (list Z) :=
  res_mapM (λ i, match psrc_child_max with
                 | Some n => Ok (pnum + i * n)
                 | None => Raise TypeError
                 end) (seqZ 0 times).

(** [CrossParameterSource._translate_pnum], given [_psrc_info_list]
    without its sources and the length of the cross.  As in
    [fill_parameter_content], [int(x / psrc_group_size)] is the quotient
    rounded down. *)
Definition Cross_translate_pnum (psrc_info_list : list (option Z * Z))
    (psrc_max_self : option Z) (psrc_idx : nat) (pnum : Z)
  : res error (list Z) :=
  match psrc_info_list !! psrc_idx with
  | None => Raise IndexError
  | Some (psrc_max, psrc_group_size) =>
      match psrc_max_self with
      | None => Raise (Error TypeError)
      | Some n =>
          match
            res_filterM (λ x,
              match psrc_max with
              | Some m =>
                  if m =? 0 then Raise ZeroDivisionError
                  else Ok (bool_decide ((x / psrc_group_size) mod m = pnum))
              | None => Raise TypeError
              end) (seqZ 0 n)
          with
          | Ok xs => Ok xs
          | Raise e => Raise (Error e)
          end
      end
  end.

(** [RangeParameterSource.resync_psrc]: the nested function [_translate],
    which adds to a target set that is empty *)
Definition Range_translate (pos_start pos_end : Z) (source : gset Z) : gset Z :=
  set_map (λ pnum, pnum - pos_start)
    (filter (λ pnum, pos_start ≤ pnum ∧ pnum ≤ pos_end) source).

(** A resync result: the indices to redo, the indices to disable, and
    whether the size changed *)
Definition resync_result : Type := gset Z * gset Z * bool.

(** Modelled from the spec: [ParameterSource.get_empty_resync_result] is
    defined in [psource_base] (not among the sources); a resync that found
    no change returns two empty sets and [False]. *)
Definition get_empty_resync_result : resync_result := (∅, ∅, false).

(** [_combine_resync_result] with the default [sc_fun] *)
Definition _combine_resync_result (resync_result_a resync_result_b : resync_result)
  : resync_result :=
  (resync_result_a.1.1 ∪ resync_result_b.1.1,
   resync_result_a.1.2 ∪ resync_result_b.1.2,
   resync_result_a.2 || resync_result_b.2).

(** [BaseZipParameterSource.resync_psrc], given what [resync_psrc] of the
    children returned, in the order of [_psrc_list], and the value of
    [_psrc_max] before and after the lengths were read again *)
Definition BaseZip_resync_psrc (psrc_resync_list : list resync_result)
    (psrc_max_old psrc_max : option Z) : resync_result :=
  let result :=
    fold_left _combine_resync_result psrc_resync_list get_empty_resync_result in
  (result.1.1, result.1.2, negb (bool_decide (psrc_max_old = psrc_max))).

Section sources.

Variable result : Type.
Variable null_len : option Z.

(** [ErrorParameterSource.__init__]: the loop that appends one cross per
    source that has a length *)
Fixpoint variation_loop (central_psrc_list : list (ParameterSource result))
    (psrc_idx : nat) (psrc_list : list (ParameterSource result))
  : res exn (list (ParameterSource result)) :=
  match psrc_list with
  | [] => Ok []
  | psrc :: psrc_list' =>
      match get_parameter_len result null_len psrc with
      | Some _ =>
          varied ← RangeParameterSource result null_len psrc (Some 1) None;
          cross ← new_cross result null_len
                    (<[psrc_idx := varied]> central_psrc_list);
          rest ← variation_loop central_psrc_list (S psrc_idx) psrc_list';
          Ok (cross :: rest)
      | None => variation_loop central_psrc_list (S psrc_idx) psrc_list'
      end
  end.

(** [ErrorParameterSource.__init__] *)
Definition ErrorParameterSource_init (psrc_list : list (ParameterSource result))
  : res exn (ParameterSource result) :=
  let psrc_list := _strip_null_sources result psrc_list in
  central_psrc_list ←
    res_mapM (λ p, RangeParameterSource result null_len p (Some 0) (Some 0))
      psrc_list;
  baseline ← new_zip result null_len ZipLongParameterSource central_psrc_list;
  variations ← variation_loop central_psrc_list 0%nat psrc_list;
  ChainParameterSource_init result null_len (baseline :: variations).

(** The call [ErrorParameterSource(...)], with the [__new__] it inherits
    from [MultiParameterSource]: the object the call evaluates to, as it
    is when [__new__] hands it back.  A single child that is itself a
    variation is initialised again by Python; the statements below are
    about two or more children. *)
Definition new_variation (psrc_list : list (ParameterSource result))
  : res exn (ParameterSource result) :=
  match MultiParameterSource_new result psrc_list with
  | Existing _ psrc => Ok psrc
  | Allocated _ => ErrorParameterSource_init psrc_list
  end.

(** [RangeParameterSource.resync_psrc], given the source of the range as
    its own [resync_psrc] left it and what that call returned.  The
    reported indices are translated with [_pos_end] as it is when the
    method is entered; [_pos_end] is read again from the source only after
    that, and the flag tells whether it changed.  The method returns the
    range as it is afterwards and the resync result. *)
Definition Range_resync_psrc (pos_start : Z) (pos_end_user : option Z)
    (pos_end : Z) (psrc : ParameterSource result) (psrc_resync : resync_result)
  : res exn (ParameterSource result * resync_result) :=
  let '(result_redo, result_disable, _) := get_empty_resync_result in
  let '(psrc_redo, psrc_disable, _) := psrc_resync in
  let result_redo := result_redo ∪ Range_translate pos_start pos_end psrc_redo in
  let result_disable :=
    result_disable ∪ Range_translate pos_start pos_end psrc_disable in
  let pos_end_old := pos_end in
  pos_end ← _get_pos_end result null_len psrc pos_end_user;
  Ok (Range result psrc pos_start pos_end_user pos_end,
      (result_redo, result_disable, negb (bool_decide (pos_end_old = pos_end)))).

(** *** Notions used in the statements *)

(** Filling the same index of every source of a list, in order *)
Fixpoint fill_each (l : list (ParameterSource result)) (pnum : Z) (r : result)
  : res exn result :=
  match l with
  | [] => Ok r
  | psrc :: l' =>
      r' ← fill_parameter_content result psrc pnum r; fill_each l' pnum r'
  end.

(** Filling every source of a list at an index of its own, in order *)
Fixpoint fill_at (l : list (ParameterSource result)) (pnums : list Z)
    (r : result) : res exn result :=
  match l, pnums with
  | psrc :: l', pnum :: pnums' =>
      r' ← fill_parameter_content result psrc pnum r; fill_at l' pnums' r'
  | _, _ => Ok r
  end.

End sources.

(** The indices at which a cross over sources of lengths [lens] fills its
    children when it is filled at [pnum]: the digits of [pnum] in the
    mixed radix [lens] *)
Fixpoint cross_indices (pnum psrc_group_size : Z) (lens : list Z) : list Z :=
  match lens with
  | [] => []
  | n :: lens' =>
      (pnum / psrc_group_size) mod n
      :: cross_indices pnum (psrc_group_size * n) lens'
  end.

(** The index of the cross at which the children are filled at [idxs] *)
Fixpoint cross_pnum (idxs lens : list Z) : Z :=
  match idxs, lens with
  | i :: idxs', n :: lens' => i + n * cross_pnum idxs' lens'
  | _, _ => 0
  end.

(** The number of points a source of length [n] adds to a variation: its
    values after the first, none when it is unbounded *)
Definition sweep_len (n : option Z) : Z :=
  match n with
  | Some n => n - 1
  | None => 0
  end.

(** The length of a variation over sources of lengths [lens]: the
    baseline and the values swept by each source *)
Definition variation_len (lens : list (option Z)) : Z :=
  1 + Zsum (map sweep_len lens).

(** The index of a variation at which source [idx] takes its value
    [q + 1] and every other source its first value: after the baseline and
    the values swept by the sources before it *)
Definition variation_pnum (lens : list (option Z)) (idx : nat) (q : Z) : Z :=
  variation_len (take idx lens) + q.

End psource_translate.

(** ** parameters/psource_meta.py: the resync of chains *)

Module psource_multi_resync.
Import psource_meta psource_translate.

Section resync.

(** [_translate_pnum] of the class *)
Variable _translate_pnum : nat → Z → res error (list Z).

(** [for pnum in psrc_redo: result_redo.update(self._translate_pnum(...))];
    the set is gone through in the order of its elements. *)
Fixpoint translate_into (psrc_idx : nat) (pnums : list Z) (target : gset Z)
  : res error (gset Z) :=
  match pnums with
  | [] => Ok target
  | pnum :: pnums' =>
      xs ← _translate_pnum psrc_idx pnum;
      translate_into psrc_idx pnums' (target ∪ list_to_set xs)
  end.

(** The loop of [MultiParameterSource.resync_psrc] over
    [enumerate(psrc_resync_list)] *)
Fixpoint resync_loop (psrc_idx : nat) (psrc_resync_list : list resync_result)
    (result_redo result_disable : gset Z) : res error (gset Z * gset Z) :=
  match psrc_resync_list with
  | [] => Ok (result_redo, result_disable)
  | psrc_resync :: rest =>
      result_redo ←
        translate_into psrc_idx (elements psrc_resync.1.1) result_redo;
      result_disable ←
        translate_into psrc_idx (elements psrc_resync.1.2) result_disable;
      resync_loop (S psrc_idx) rest result_redo result_disable
  end.

(** [MultiParameterSource.resync_psrc], given what [resync_psrc] of the
    children returned and [_psrc_max] before and after *)
Definition Multi_resync_psrc (psrc_resync_list : list resync_result)
    (psrc_max_old psrc_max : option Z) : res error resync_result :=
  sets ← resync_loop 0 psrc_resync_list
            get_empty_resync_result.1.1 get_empty_resync_result.1.2;
  Ok (sets.1, sets.2, negb (bool_decide (psrc_max_old = psrc_max))).

End resync.

End psource_multi_resync.

(** ** job_db.py: the job database and sequences of calls on a job *)

Module job_db_iter.
Import job_db.

(** A job selector: called with the job number and the job object *)
Definition selector : Type := Z → Job → bool.

(** The attributes of a [JobDB] that [iter_jobs] reads *)
Record JobDB : Type := mkJobDB {
  _job_limit : Z;
  _always_selector : option selector
}.

(** [JobDB.set_job_limit] *)
Definition set_job_limit (self : JobDB) (value : Z) : JobDB :=
  {| _job_limit := value; _always_selector := _always_selector self |}.

Section JobDB.

(** [get_job_transient] is abstract in [JobDB]; the job objects come from
    the class that implements it. *)
Variable get_job_transient : Z → Job.

(** [JobDB.iter_jobs]; the generator is given by the list of the job
    numbers it yields. *)
Definition iter_jobs (self : JobDB) (job_selector : option selector)
    (subset : option (list Z)) : list Z :=
  let subset :=
    match subset with
    | None => seqZ 0 (_job_limit self)
    | Some subset => subset
    end in
  match job_selector, _always_selector self with
  | Some job_selector, Some always_selector =>
      List.filter (λ jobnum,
        job_selector jobnum (get_job_transient jobnum)
        && always_selector jobnum (get_job_transient jobnum)) subset
  | Some select, None | None, Some select =>
      List.filter (λ jobnum, select jobnum (get_job_transient jobnum)) subset
  | None, None => subset
  end.

(** [JobDB.get_job_list] *)
Definition get_job_list (self : JobDB) (job_selector : option selector)
    (subset : option (list Z)) : list Z :=
  iter_jobs self job_selector subset.

(** [JobDB.get_job_len] *)
Definition get_job_len (self : JobDB) (job_selector : option selector)
    (subset : option (list Z)) : nat :=
  length (get_job_list self job_selector subset).

(** A selector that may be absent accepts a job: an absent selector
    accepts every job. *)
Definition accepts (s : option selector) (jobnum : Z) : Prop :=
  ∀ select, s = Some select →
            select jobnum (get_job_transient jobnum) = true.

End JobDB.

(** The calls that change a [Job] *)
Inductive job_call : Type :=
| call_assign_id (gc_id : option string) (now : Z)
| call_set (key value : string)
| call_update (state : job_state) (now : Z).

Definition do_call (self : Job) (c : job_call) : Job :=
  match c with
  | call_assign_id gc_id now => assign_id self gc_id now
  | call_set key value => set self key value
  | call_update state now => update self state now
  end.

(** A sequence of calls on one job object, in order *)
Definition do_calls (calls : list job_call) (self : Job) : Job :=
  fold_left do_call calls self.

Definition is_assign_id (c : job_call) : bool :=
  match c with
  | call_assign_id _ _ => true
  | _ => false
  end.

End job_db_iter.

(** ** backends/wms_local.py: sandboxes *)

Module wms_local_sandbox.
Import wms_local.

(** The attributes of a [SandboxHelper] *)
Record SandboxHelper : Type := mkSandboxHelper {
  _cache : list string;
  _path : string
}.

Section SandboxHelper.

(** The file system as [get_sandbox] sees it during one call:
    [os.path.exists], [os.path.isdir] and [os.listdir]. *)
Variable path_exists : string → bool.
Variable isdir : string → bool.
Variable listdir : string → list string.

(** The nested function [searchSandbox]; falling off its end returns
    [None]. *)
Fixpoint searchSandbox (self : SandboxHelper) (gc_id : string)
    (source : list string) : option string :=
  match source with
  | [] => None
  | sbox :: source' =>
      let path := path_join (_path self) sbox in
      if path_exists (path_join path gc_id) then Some path
      else searchSandbox self gc_id source'
  end.

(** [SandboxHelper.get_sandbox]: the helper after the call and the value
    returned *)
Definition get_sandbox (self : SandboxHelper) (gc_id : string)
  : SandboxHelper * option string :=
  let result := searchSandbox self gc_id (_cache self) in
  if truthy result then (self, result)
  else
    let oldCache := _cache self in
    let self' :=
      {| _cache :=
           List.filter (λ x, isdir (path_join (_path self) x))
             (listdir (_path self));
         _path := _path self |} in
    (self',
     searchSandbox self' gc_id
       (List.filter (λ x, negb (bool_decide (x ∈ oldCache))) (_cache self'))).

End SandboxHelper.

(** What [LocalPurgeJobs.execute] does, in order: calls of the logger,
    of the purge lock, of [shutil.rmtree], and the values it yields. *)
Inductive purge_event : Type :=
| log_warning (wms_id : string)
| lock_acquire
| rmtree (path : string)
| log_critical (path : string)
| lock_release
| yield (wms_id : string).

Section LocalPurgeJobs.

Variable wms_name : string.

(** What the calls that [execute] makes find, which may depend on what
    happened before: the value of [get_sandbox], whether [shutil.rmtree]
    succeeds or raises, and whether [os.listdir], called while the
    failure is logged, succeeds or raises. *)
Variable sandbox_of : list purge_event → string → option string.
Variable rmtree_ok : list purge_event → string → bool.
Variable listdir_ok : list purge_event → string → bool.

(** [LocalPurgeJobs.execute] from the loop on: the events so far, and
    whether the generator ended or raised. *)
Fixpoint execute (wms_id_list : list string) (trace : list purge_event)
  : list purge_event * res exn unit :=
  match wms_id_list with
  | [] => (trace, Ok ())
  | wms_id :: wms_id_list' =>
      match
        sandbox_of trace ("WMSID." ++ wms_name ++ "." ++ wms_id)%string
      with
      | None => execute wms_id_list' (trace ++ [log_warning wms_id])
      | Some path =>
          let trace := trace ++ [lock_acquire; rmtree path] in
          if rmtree_ok trace path
          then execute wms_id_list' (trace ++ [lock_release; yield wms_id])
          else if listdir_ok trace path
          then (trace ++ [log_critical path; lock_release],
                Raise (BackendError
                         "Sandbox for job %r could not be deleted" []))
          else (trace, Raise (Exception "OSError"))
      end
  end.

End LocalPurgeJobs.

(** The number of times the purge lock is held after a sequence of
    events, provided it was never released while free *)
Fixpoint lock_depth (trace : list purge_event) (held : nat) : option nat :=
  match trace with
  | [] => Some held
  | lock_acquire :: trace' => lock_depth trace' (S held)
  | lock_release :: trace' =>
      match held with
      | O => None
      | S held' => lock_depth trace' held'
      end
  | _ :: trace' => lock_depth trace' held
  end.

(** The job ids that were yielded *)
Definition yielded (trace : list purge_event) : list string :=
  omap (λ e, match e with yield wms_id => Some wms_id | _ => None end) trace.

(** No event of the given kind happens while the lock is held. *)
Fixpoint outside_lock (outside : purge_event → bool)
    (trace : list purge_event) (held : nat) : bool :=
  match trace with
  | [] => true
  | lock_acquire :: trace' => outside_lock outside trace' (S held)
  | lock_release :: trace' => outside_lock outside trace' (pred held)
  | e :: trace' =>
      (negb (outside e) || (held =? 0)%nat) && outside_lock outside trace' held
  end.

(** The events that hand control to the caller or to the logger *)
Definition unlocked_event (e : purge_event) : bool :=
  match e with
  | yield _ | log_warning _ => true
  | _ => false
  end.

End wms_local_sandbox.

(** ** utils/process_base.py: streams *)

Module process_base.

(** Text as the list of its characters *)
Definition str : Type := list Ascii.ascii.

Definition newline : Ascii.ascii := Ascii.ascii_of_nat 10.

(** [s.find('\n')]: the position of the first line end, [None] for -1 *)
Definition find_newline (s : str) : option nat :=
  fst <$> list_find (λ c, c = newline) s.

(** Python truth value of a text *)
Definition nonempty (s : str) : bool :=
  match s with
  | [] => false
  | _ => true
  end.

(** *** ProcessStream and ProcessReadStream: the log *)

(** The attribute [_log] of a stream: [None] when logging is off *)
Record ProcessStream : Type := mkStream {
  _log : option str
}.

(** [ProcessStream.read_log] *)
Definition ProcessStream_read_log (self : ProcessStream) : str :=
  default [] (_log self).

(** [ProcessStream.clear_log]: the stream after the call and the value
    returned *)
Definition clear_log (self : ProcessStream) : ProcessStream * option str :=
  (match _log self with
   | Some _ => mkStream (Some [])
   | None => self
   end, _log self).

(** [ProcessReadStream.read], given what [self._buffer.get(timeout)]
    returned *)
Definition read (self : ProcessStream) (got : str) : ProcessStream * str :=
  (match _log self with
   | Some log => mkStream (Some (log ++ got))
   | None => self
   end, got).

(** [ProcessReadStream.read_log], given what the flushing [read]
    received *)
Definition read_log (self : ProcessStream) (got : str) : ProcessStream * str :=
  let '(self, result) := read self got in
  (self,
   if nonempty (ProcessStream_read_log self)
   then ProcessStream_read_log self
   else result).

(** [ProcessWriteStream.write]: the stream and what was put into the
    buffer *)
Definition write (self : ProcessStream) (value : str) (log : bool)
  : ProcessStream * str :=
  (match _log self with
   | Some l => if log then mkStream (Some (l ++ value)) else self
   | None => self
   end, value).

(** Calls on a read stream *)
Inductive stream_call : Type :=
| call_read (got : str)
| call_clear_log.

Definition do_stream_call (self : ProcessStream) (c : stream_call)
  : ProcessStream :=
  match c with
  | call_read got => (read self got).1
  | call_clear_log => (clear_log self).1
  end.

(** What was read since the log was cleared last *)
Fixpoint read_since_clear (calls : list stream_call) (acc : str) : str :=
  match calls with
  | [] => acc
  | call_read got :: calls' => read_since_clear calls' (acc ++ got)
  | call_clear_log :: calls' => read_since_clear calls' []
  end.

(** *** ProcessReadStream.iter *)

(** The inner loop of [iter], which yields the complete lines of
    [_iter_buffer]: the lines yielded and the buffer that is left.  Every
    round removes at least one character; [fuel] bounds the rounds. *)
Fixpoint yield_lines (fuel : nat) (_iter_buffer : str) : list str * str :=
  match fuel with
  | O => ([], _iter_buffer)
  | S fuel' =>
      match find_newline _iter_buffer with
      | None => ([], _iter_buffer)
      | Some posEOL =>
          let '(lines, rest) :=
            yield_lines fuel' (drop (posEOL + 1) _iter_buffer) in
          (take (posEOL + 1) _iter_buffer :: lines, rest)
      end
  end.

(** What one round of the outer loop of [iter] finds: the text
    [self._buffer.get(timeout)] returns, and the two events. *)
Record round : Type := mkRound {
  tmp : str;
  event_shutdown_is_set : bool;
  event_finished_is_set : bool
}.

(** How [iter] ended: it returned, it raised [ProcessTimeout], or it is
    still waiting after the rounds that were given. *)
Inductive iter_end : Type :=
| returned
| raised_ProcessTimeout
| waiting.

(** [ProcessReadStream.iter] over the rounds given: the values yielded,
    how it ended, and [_iter_buffer] at that point. *)
Fixpoint iter (rounds : list round) (timeout_soft waitedForShutdown : bool)
    (_iter_buffer : str) : list str * iter_end * str :=
  let '(lines, _iter_buffer) :=
    yield_lines (length _iter_buffer) _iter_buffer in
  match rounds with
  | [] => (lines, waiting, _iter_buffer)
  | r :: rounds' =>
      if nonempty (tmp r)
      then
        let '(lines', e, b) :=
          iter rounds' timeout_soft waitedForShutdown
            (_iter_buffer ++ tmp r) in
        (lines ++ lines', e, b)
      else if event_shutdown_is_set r && negb waitedForShutdown
      then
        let '(lines', e, b) := iter rounds' timeout_soft true _iter_buffer in
        (lines ++ lines', e, b)
      else if event_finished_is_set r || timeout_soft
      then
        (lines ++ (if nonempty _iter_buffer then [_iter_buffer] else []),
         returned, _iter_buffer)
      else (lines, raised_ProcessTimeout, _iter_buffer)
  end.

(** A complete line: text without a line end, followed by one *)
Definition complete_line (line : str) : Prop :=
  ∃ body, line = body ++ [newline] ∧ newline ∉ body.

(** The text received in the rounds that [iter] went through *)
Fixpoint received (rounds : list round) (timeout_soft waitedForShutdown : bool)
  : str :=
  match rounds with
  | [] => []
  | r :: rounds' =>
      if nonempty (tmp r)
      then tmp r ++ received rounds' timeout_soft waitedForShutdown
      else if event_shutdown_is_set r && negb waitedForShutdown
      then received rounds' timeout_soft true
      else []
  end.

End process_base.

(** ** tasks/task_base.py: variables of a task *)

Module task_base.
Import psource_meta.

(** [dict(pairs)]: later pairs replace earlier ones with the same key. *)
Definition dict (pairs : list (string * string)) : gmap string string :=
  fold_left (λ d kv, <[kv.1 := kv.2]> d) pairs ∅.

(** [d.update(other)] *)
Definition dict_update (d other : gmap string string) : gmap string string :=
  other ∪ d.

(** [izip(l, l)] *)
Definition izip_same (l : list string) : list (string * string) :=
  map (λ x, (x, x)) l.

(** The lists of [TaskModule.get_var_alias_map] *)
Definition transients : list string :=
  ["GC_DATE"; "GC_TIMESTAMP"; "GC_GUID"]%string.

Definition alias_pairs : list (string * string) :=
  [("DATE", "GC_DATE"); ("TIMESTAMP", "GC_TIMESTAMP"); ("GUID", "GC_GUID");
   ("MY_JOBID", "GC_JOB_ID"); ("MY_JOB", "GC_JOB_ID"); ("JOBID", "GC_JOB_ID");
   ("GC_JOBID", "GC_JOB_ID"); ("CONF", "GC_CONF");
   ("TASK_ID", "GC_TASK_ID")]%string.

(** [TaskModule.get_var_alias_map], given the value of
    [_get_var_name_list()] *)
Definition get_var_alias_map (_get_var_name_list : list string)
  : gmap string string :=
  let var_alias_map := dict alias_pairs in
  let var_name_list := _get_var_name_list ++ transients in
  dict_update var_alias_map (dict (izip_same var_name_list)).

(** [TaskModule.get_job_dict], given the content and the metadata of the
    job that the parameter adapter returns *)
Definition get_job_dict (tmp : gmap string string)
    (get_job_metadata : list ParameterMetadata) : gmap string string :=
  dict (map (λ key, (value key, default ""%string (tmp !! value key)))
          get_job_metadata).

End task_base.

(** ** scripts/downloadFromSE.py: the outcome of the download of a job *)

Module downloadFromSE.
Import job_db.

(** The options [download_job_output] decides on.  [retry] holds
    [int(opts.retry)] when the option was given a text, which is taken to
    be a number, and [None] when it was not given. *)
Record Options : Type := mkOptions {
  mark_ignore_dl : bool;
  mark_empty_fail : bool;
  retry : option Z;
  mark_fail : bool;
  mark_dl : bool
}.

(** What a call of [download_job_output] did: the counter [incInfo] was
    called with, the job object, whether it was handed to [job_db.commit],
    the indices of the files [download_file] was called for, and the
    [failJob] that [cleanup_files] was called with, if it was called. *)
Record download_result : Type := mkResult {
  info : string;
  job_obj : Job;
  committed : bool;
  attempted : list nat;
  cleaned : option bool
}.

(** The call returns, or leaves through [sys.exit]. *)
Inductive download_outcome : Type :=
| sys_exit
| returns (r : download_result).

(** [job_obj.state = Job.FAILED] *)
Definition set_state (self : Job) (new_state : job_state) : Job :=
  {| state := new_state;
     attempt := attempt self;
     history := history self;
     gc_id := gc_id self;
     submitted := submitted self;
     changed := changed self;
     dict := dict self |}.

Section download_job_output.

(** The entries of the job info file *)
Variable fileInfo : Type.

(** [int] and [str] on the texts and numbers kept in the job object *)
Variable int : string → Z.
Variable str : Z → string.

(** What [download_file] returns for a file: [None], [False] or [True] *)
Variable download_file : nat → fileInfo → option bool.

(** Python truth value of what [download_file] returns *)
Definition truth (v : option bool) : bool :=
  match v with
  | Some b => b
  | None => false
  end.

(** The loop over the files:
    [failJob = failJob or not download_file(...)] *)
Fixpoint download_files (files : list fileInfo) (fileIdx : nat)
    (failJob : bool) (attempted : list nat) : bool * list nat :=
  match files with
  | [] => (failJob, attempted)
  | fi :: files' =>
      if failJob then download_files files' (S fileIdx) true attempted
      else download_files files' (S fileIdx)
             (negb (truth (download_file fileIdx fi)))
             (attempted ++ [fileIdx])
  end.

(** [download_job_output], given the job object of the job, what
    [token.can_submit] says and the files of the job info file *)
Definition download_job_output (opts : Options) (job_obj : Job)
    (can_submit : bool) (files : list fileInfo) : download_outcome :=
  if negb (bool_decide (state job_obj = SUCCESS))
  then returns (mkResult "Processing" job_obj false [] None)
  else if bool_decide (get job_obj "download" None = Some "True"%string)
          && negb (mark_ignore_dl opts)
  then returns (mkResult "Downloaded" job_obj false [] None)
  else
    let retry_count :=
      match get job_obj "download attempt" None with
      | Some v => int v
      | None => 0
      end in
    if negb can_submit then sys_exit
    else
      match files, mark_empty_fail opts with
      | [], false =>
          returns (mkResult "Job without output files" job_obj false [] None)
      | _, _ =>
          let '(failJob, attempted) :=
            download_files files 0
              (match files with [] => true | _ => false end) [] in
          if failJob
             && match retry opts with
                | Some n => retry_count <? n
                | None => false
                end
          then
            returns (mkResult "Download attempts"
                       (set job_obj "download attempt" (str (retry_count + 1)))
                       true attempted None)
          else if failJob
          then
            returns (mkResult "Failed downloads"
                       (if mark_fail opts then set_state job_obj FAILED
                        else job_obj)
                       true attempted (Some true))
          else
            returns (mkResult "Successful download"
                       (if mark_dl opts then set job_obj "download" "True"
                        else job_obj)
                       true attempted (Some false))
      end.

End download_job_output.

(** The options [download_file] decides on: whether [opts.selectSE] names
    storage elements, [opts.skip_existing] and [opts.verify_md5] *)
Record FileOptions : Type := mkFileOptions {
  selectSE : bool;
  skip_existing : bool;
  verify_md5 : bool
}.

(** What [download_file] finds for a file: whether its path is on one of
    the selected storage elements, whether [se_exists] reports the output
    file, what [download_monitored] returns, and the value of [hashLocal]
    after the [try] statement ([None] when it raised). *)
Record FileEnv : Type := mkFileEnv {
  on_selected_SE : bool;
  exists_local : bool;
  copied : bool;
  hashLocal : option string
}.

(** [download_file]: [None] for the plain [return] of a file that is
    skipped *)
Definition download_file (opts : FileOptions) (hash : string) (env : FileEnv)
  : option bool :=
  if selectSE opts && negb (on_selected_SE env) then None
  else if skip_existing opts && exists_local env then None
  else if negb (copied env) then Some false
  else if verify_md5 opts
  then if bool_decide (Some hash = hashLocal env) then Some true
       else Some false
  else Some true.

End downloadFromSE.

(** * Properties *)

(** ** Job records *)

Module job_db_properties.
Import job_db.

Lemma update_history_at_attempt (j : Job) (s : job_state) (now : Z) :
  history (update j s now) !! attempt j
  = Some (default "N/A"%string (dict j !! "dest"%string)).
Proof. unfold update; simpl. apply lookup_insert_eq. Qed.

Lemma update_history_other (j : Job) (s : job_state) (now k : Z) :
  k ≠ attempt j → history (update j s now) !! k = history j !! k.
Proof. intros Hk. unfold update; simpl. by rewrite lookup_insert_ne. Qed.

(** C7: a new job is in state INIT with attempt 0; [assign_id] stores the
    id, adds exactly one to [attempt] and sets [submitted]; [update] sets
    the state and [changed], writes the current [dict['dest']] into
    [history] at key [attempt], and leaves [gc_id], [attempt] and
    [submitted] as they were. *)
Theorem C7_job_lifecycle (j : Job) (new_id : option string)
    (newstate : job_state) (now : Z) (dest : string) :
  (state Job_init = INIT ∧ attempt Job_init = 0) ∧
  (gc_id (assign_id j new_id now) = new_id ∧
   attempt (assign_id j new_id now) = attempt j + 1 ∧
   submitted (assign_id j new_id now) = now) ∧
  (state (update j newstate now) = newstate ∧
   changed (update j newstate now) = now ∧
   history (update (set j "dest" dest) newstate now)
     !! attempt (set j "dest" dest) = Some dest ∧
   history (update j newstate now)
   = <[attempt j := default "N/A"%string (dict j !! "dest"%string)]> (history j) ∧
   gc_id (update j newstate now) = gc_id j ∧
   attempt (update j newstate now) = attempt j ∧
   submitted (update j newstate now) = submitted j).
Proof.
  repeat split.
  rewrite update_history_at_attempt. simpl.
  by rewrite lookup_insert_eq.
Qed.

(** C10: when the job's [dict] has no key ['dest'], [update] records the
    string ['N/A'] in [history] at the current attempt. *)
Theorem C10_update_without_dest (j : Job) (newstate : job_state) (now : Z) :
  dict j !! "dest"%string = None →
  history (update j newstate now) !! attempt j = Some "N/A"%string.
Proof.
  intros Hdest. rewrite update_history_at_attempt. by rewrite Hdest.
Qed.

Lemma C10_update_without_dest_witness :
  dict Job_init !! "dest"%string = None ∧
  history (update Job_init FAILED 1700000000) !! attempt Job_init
  = Some "N/A"%string.
Proof.
  split; [reflexivity |].
  apply (C10_update_without_dest Job_init FAILED 1700000000). reflexivity.
Defined.

End job_db_properties.

(** ** Construction of parameter sources *)

Module psource_construction.
Import psource_meta.

Section with_sources.

Variable result : Type.
Variable null_len : option Z.

Abbreviation psrc := (ParameterSource result).
Abbreviation strip := (_strip_null_sources result).
Abbreviation len := (get_parameter_len result null_len).


Lemma strip_cons_keep (p : psrc) (l : list psrc) :
  is_null result p = false → strip (p :: l) = p :: strip l.
Proof. intros Hp. unfold _strip_null_sources. simpl. by rewrite Hp. Qed.

Lemma strip_no_null (l : list psrc) :
  Forall (λ p, is_null result p = false) (strip l).
Proof.
  unfold _strip_null_sources.
  induction l as [|p l IH]; simpl; [constructor |].
  destruct (is_null result p) eqn:Hp; simpl; [done | by constructor].
Qed.

Lemma strip_fixed (l : list psrc) :
  Forall (λ p, is_null result p = false) l → strip l = l.
Proof.
  induction 1 as [|p l Hp _ IH]; [done |].
  rewrite strip_cons_keep by done. by rewrite IH.
Qed.

Lemma strip_idem (l : list psrc) : strip (strip l) = strip l.
Proof. apply strip_fixed, strip_no_null. Qed.

Lemma strip_app (l1 l2 : list psrc) : strip (l1 ++ l2) = strip l1 ++ strip l2.
Proof. unfold _strip_null_sources. apply List.filter_app. Qed.



Lemma MultiParameterSource_init_strip (cls : multi_class) (l : list psrc) :
  MultiParameterSource_init result null_len cls (strip l)
  = MultiParameterSource_init result null_len cls l.
Proof. unfold MultiParameterSource_init. by rewrite strip_idem. Qed.

(** *** Chains wrap their unbounded children *)

Lemma wrap_infinite_unbounded (p : psrc) :
  len p = None → wrap_infinite result null_len p = Truncate result p None 1.
Proof.
  intros Hp. unfold wrap_infinite, TruncateParameterSource.
  rewrite Hp. reflexivity.
Qed.

Lemma wrap_infinite_finite (p : psrc) :
  ∃ n, len (wrap_infinite result null_len p) = Some n.
Proof.
  unfold wrap_infinite.
  destruct (len p) as [n|] eqn:Hp; [by exists n |].
  by exists 1.
Qed.

Lemma wrap_infinite_not_null (p : psrc) :
  is_null result p = false →
  is_null result (wrap_infinite result null_len p) = false.
Proof.
  intros Hp. unfold wrap_infinite. by destruct (len p).
Qed.

Lemma wrapped_lengths (l : list psrc) :
  ∃ lens, map len (map (wrap_infinite result null_len) l) = map Some lens.
Proof.
  induction l as [|p l [lens IH]]; [by exists [] |].
  destruct (wrap_infinite_finite p) as [n Hn].
  exists (n :: lens). simpl. by rewrite Hn, IH.
Qed.

Lemma sum_finite (lens : list Z) : sum (map Some lens) = Ok (Zsum lens).
Proof.
  induction lens as [|n lens IH]; [done |].
  simpl. by rewrite IH.
Qed.

Lemma ChainParameterSource_init_ok (l : list psrc) :
  ∃ lens,
    map len (map (wrap_infinite result null_len) (strip l)) = map Some lens ∧
    ChainParameterSource_init result null_len l
    = Ok (Multi result ChainParameterSource
            (map (wrap_infinite result null_len) (strip l))
            (map Some lens) (Some (Zsum lens))).
Proof.
  destruct (wrapped_lengths (strip l)) as [lens Hlens].
  exists lens. split; [done |].
  unfold ChainParameterSource_init, MultiParameterSource_init.
  rewrite strip_fixed.
  - rewrite Hlens. cbn [_init_psrc_max]. by rewrite sum_finite.
  - apply Forall_fmap. eapply Forall_impl; [apply strip_no_null |].
    intros p Hp. by apply wrap_infinite_not_null.
Qed.

(** C4: [ChainParameterSource.__init__] wraps each child of unbounded
    length in [truncate(child, 1)], so that every child has a length and
    the length of the chain is their sum; this is the chain the
    constructor returns when two or more non-null children are given.
    The chain of [truncate(unbounded, 1)] and a source [s] of length [n]
    has length [1 + n]. *)
Theorem C4_chain_wraps_infinite (l : list psrc) (inf s : psrc) (n : Z) :
  len inf = None →
  len s = Some n →
  (is_null result s = true → n = 0) →
  (∃ lens c,
     ChainParameterSource_init result null_len l = Ok c ∧
     ((2 ≤ length (strip l))%nat → new_chain result null_len l = Ok c) ∧
     c = Multi result ChainParameterSource
           (map (wrap_infinite result null_len) (strip l))
           (map Some lens) (Some (Zsum lens)) ∧
     map len (map (wrap_infinite result null_len) (strip l)) = map Some lens ∧
     len c = Some (Zsum lens) ∧
     (inf ∈ strip l →
      Truncate result inf None 1
      ∈ map (wrap_infinite result null_len) (strip l))) ∧
  (∃ c,
     new_chain result null_len
       [TruncateParameterSource result null_len inf 1; s] = Ok c ∧
     len c = Some (1 + n)).
Proof.
  intros Hinf Hs Hnull. split.
  - destruct (ChainParameterSource_init_ok l) as (lens & Hlens & Hinit).
    exists lens. eexists. split; [exact Hinit |].
    split; [| split; [reflexivity | split; [done | split; [done |]]]].
    + intros Hl. unfold new_chain, MultiParameterSource_new.
      destruct (strip l) as [|p [|q l']]; simpl in Hl; [lia | lia |].
      exact Hinit.
    + intros Hin. rewrite <- (wrap_infinite_unbounded inf Hinf).
      by apply (list_elem_of_fmap_2 (wrap_infinite result null_len)).
  - assert (HT : TruncateParameterSource result null_len inf 1
                 = Truncate result inf None 1).
    { unfold TruncateParameterSource. by rewrite Hinf. }
    rewrite HT.
    destruct (is_null result s) eqn:Hn.
    + destruct s; try discriminate.
      exists (Truncate result inf None 1). split; [reflexivity |].
      rewrite (Hnull eq_refl). reflexivity.
    + set (T := Truncate result inf None 1).
      assert (Hstrip : strip [T; s] = [T; s]).
      { rewrite strip_cons_keep by done. by rewrite strip_cons_keep by done. }
      assert (Hws : wrap_infinite result null_len s = s).
      { unfold wrap_infinite. by rewrite Hs. }
      destruct (ChainParameterSource_init_ok [T; s]) as (lens & Hlens & Hinit).
      rewrite Hstrip in Hlens, Hinit. cbn [map] in Hlens, Hinit.
      rewrite Hws in Hlens, Hinit.
      change (wrap_infinite result null_len T) with T in Hlens, Hinit.
      cbn [get_parameter_len T] in Hlens. rewrite Hs in Hlens.
      destruct lens as [|a [|b [|? ?]]]; try discriminate.
      injection Hlens as <- <-.
      eexists. split.
      * unfold new_chain, MultiParameterSource_new. rewrite Hstrip.
        exact Hinit.
      * cbn. f_equal. lia.
Qed.

(** *** Collapse of multi-sources *)



(** The object a constructor call evaluates to is the one [__new__] hands
    back. *)
Lemma call_after_new_object (cls : multi_class) (init : res exn psrc)
    (n : new_result result) :
  (r ← call_after_new result cls init n; Ok (object_of result r))
  = match n with
    | Existing _ p => Ok p
    | Allocated _ => init
    end.
Proof.
  destruct n as [p|]; cbn.
  - by destruct (is_null result p).
  - by destruct init.
Qed.

Lemma call_multi_object (cls : multi_class) (l : list psrc) :
  new_multi result null_len cls l
  = (r ← call_multi result null_len cls l; Ok (object_of result r)).
Proof.
  destruct cls; cbn [new_multi call_multi].
  - unfold new_chain, call_chain. by rewrite call_after_new_object.
  - unfold new_cross, CrossParameterSource_new, call_cross.
    destruct (_ <? _)%nat.
    + assert (Hzip : new_zip result null_len ZipLongParameterSource (strip l)
                     = (r ← call_zip result null_len ZipLongParameterSource
                              (strip l);
                        Ok (object_of result r))).
      { unfold new_zip, call_zip. by rewrite call_after_new_object. }
      rewrite Hzip.
      by destruct (call_zip result null_len ZipLongParameterSource (strip l))
        as [[p|p b]|e].
    + change (nested_init result null_len CrossParameterSource l
              = (r ← (c ← nested_init result null_len CrossParameterSource l;
                      Ok (made result c));
                 Ok (object_of result r))).
      by destruct (nested_init result null_len CrossParameterSource l).
  - unfold new_zip, call_zip. by rewrite call_after_new_object.
  - unfold new_zip, call_zip. by rewrite call_after_new_object.
Qed.




(** *** Repeat *)

(** The object the call of the repeat constructor evaluates to is the one
    [__new__] hands back. *)
Lemma call_repeat_object (s : psrc) (k : Z) :
  object_of result (call_repeat result null_len s k)
  = new_repeat result null_len s k.
Proof.
  unfold call_repeat, new_repeat, RepeatParameterSource_new.
  destruct (k <? 0); [done |].
  destruct (len s); [| done].
  destruct (k =? 0); [done |]. by destruct (k =? 1).
Qed.


End with_sources.
End psource_construction.

Module psource_construction_examples.
Import psource_meta examples psource_construction.

Lemma C4_chain_wraps_infinite_witness :
  get_parameter_len writes null_len (counter "N") = None ∧
  (∃ c, new_chain writes null_len
          [TruncateParameterSource writes null_len (counter "N") 1; var "B" 3]
        = Ok c ∧
        get_parameter_len writes null_len c = Some (1 + 3)).
Proof.
  split; [reflexivity |].
  apply (C4_chain_wraps_infinite writes null_len
           [counter "N"; var "A" 2] (counter "N") (var "B" 3) 3).
  - reflexivity.
  - reflexivity.
  - simpl. discriminate.
Defined.




End psource_construction_examples.

(** ** Filling parameter content *)

Module psource_content.
Import psource_meta psource_construction.

Section with_sources.

Variable result : Type.
Variable null_len : option Z.

Abbreviation psrc := (ParameterSource result).
Abbreviation strip := (_strip_null_sources result).
Abbreviation len := (get_parameter_len result null_len).
Abbreviation fill := (fill_parameter_content result).

Lemma res_bind_ok {E A} (m : res E A) : m ≫= Ok = m.
Proof. by destruct m. Qed.

Lemma res_bind_assoc {E A B C} (m : res E A) (f : A → res E B)
    (g : B → res E C) :
  (m ≫= f) ≫= g = m ≫= (λ a, f a ≫= g).
Proof. by destruct m. Qed.

(** *** Chains *)

Lemma Zsum_cons (n : Z) (lens : list Z) : Zsum (n :: lens) = n + Zsum lens.
Proof. reflexivity. Qed.

Lemma Zsum_nonneg (lens : list Z) :
  Forall (λ n, 0 ≤ n) lens → 0 ≤ Zsum lens.
Proof.
  induction 1 as [|n lens Hn _ IH]; [done |].
  rewrite Zsum_cons. lia.
Qed.

Lemma chain_content_past_end (f : psrc → Z → result → res exn result)
    (pnum : Z) (lens : list Z) :
  Forall (λ n, 0 ≤ n) lens →
  ∀ (kids : list psrc) (limit : Z) (r : result),
    limit + Zsum lens ≤ pnum →
    chain_content result f pnum kids (map Some lens) limit r = Ok r.
Proof.
  induction 1 as [|n lens Hn Hlens IH]; intros kids limit r Hp.
  - by destruct kids.
  - destruct kids as [|p kids]; [done |].
    cbn [map chain_content]. rewrite Zsum_cons in Hp.
    pose proof (Zsum_nonneg lens Hlens) as Hsum.
    destruct (Z.ltb_spec pnum (limit + n)); [lia |].
    apply IH. lia.
Qed.

Lemma strip_Forall (P : psrc → Prop) (l : list psrc) :
  Forall P l → Forall P (strip l).
Proof.
  unfold _strip_null_sources.
  induction 1 as [|p l Hp _ IH]; simpl; [constructor |].
  destruct (negb (is_null result p)); [by constructor | done].
Qed.

Lemma wrapped_lengths_nonneg (l : list psrc) :
  Forall (λ p, ∀ n, len p = Some n → 0 ≤ n) l →
  ∀ lens, map len (map (wrap_infinite result null_len) l) = map Some lens →
          Forall (λ n, 0 ≤ n) lens.
Proof.
  induction 1 as [|p l Hp _ IH]; intros lens Hlens.
  - destruct lens; [constructor | discriminate].
  - destruct lens as [|n lens]; [discriminate |].
    cbn [map] in Hlens. injection Hlens as Hn Hrest.
    constructor; [| by apply IH].
    unfold wrap_infinite in Hn.
    destruct (len p) as [k|] eqn:Hk.
    + apply Hp. congruence.
    + cbn in Hn. injection Hn as <-. lia.
Qed.

(** C9: on a chain whose children have lengths that are counts (none is
    negative), [fill_parameter_content] at an index that is at least the
    sum of the children's lengths returns the result as it was given, and
    no child is called: the loop yields [Ok r] whatever the children's own
    [fill_parameter_content] would do. *)
Theorem C9_chain_fill_past_end (l : list psrc) (c : psrc) (total pnum : Z)
    (r : result) :
  ChainParameterSource_init result null_len l = Ok c →
  Forall (λ p, ∀ n, len p = Some n → 0 ≤ n) l →
  len c = Some total →
  total ≤ pnum →
  fill c pnum r = Ok r ∧
  ∃ kids maxes,
    c = Multi result ChainParameterSource kids maxes (Some total) ∧
    maxes = map len kids ∧
    ∀ f, chain_content result f pnum kids maxes 0 r = Ok r.
Proof.
  intros Hinit Hnonneg Hlen Hp.
  destruct (ChainParameterSource_init_ok result null_len l)
    as (lens & Hlens & Hok).
  rewrite Hok in Hinit. injection Hinit as <-.
  cbn [get_parameter_len] in Hlen. injection Hlen as <-.
  assert (Hall : ∀ f, chain_content result f pnum
                   (map (wrap_infinite result null_len) (strip l))
                   (map Some lens) 0 r = Ok r).
  { intros f. apply chain_content_past_end; [| lia].
    eapply wrapped_lengths_nonneg; [| exact Hlens].
    by apply strip_Forall. }
  split; [apply Hall |].
  eexists _, _. split; [reflexivity |]. split; [by rewrite Hlens | apply Hall].
Qed.

(** *** Crosses *)

Lemma res_bind_ext {E A B} (m : res E A) (f g : A → res E B) :
  (∀ a, f a = g a) → m ≫= f = m ≫= g.
Proof. intros Hfg. destruct m; [apply Hfg | done]. Qed.

Lemma Zprod_cons (n : Z) (lens : list Z) : Zprod (n :: lens) = n * Zprod lens.
Proof. reflexivity. Qed.

Lemma Zprod_pos (lens : list Z) :
  Forall (λ n, 0 < n) lens → 0 < Zprod lens.
Proof.
  induction 1 as [|n lens Hn _ IH]; [done |].
  rewrite Zprod_cons. lia.
Qed.

Lemma Zprod_nonneg_pos (lens : list Z) :
  Forall (λ n, 0 ≤ n) lens → 0 < Zprod lens → Forall (λ n, 0 < n) lens.
Proof.
  induction 1 as [|n lens Hn Hlens IH]; [constructor |].
  rewrite Zprod_cons. intros Hp.
  assert (0 < n ∧ 0 < Zprod lens) as [? ?].
  { destruct (Z.lt_0_mul n (Zprod lens)) as [Hcases _].
    destruct (Hcases Hp) as [[? ?]|[? ?]]; [done | lia]. }
  constructor; [done | by apply IH].
Qed.

Lemma fold_left_mul (lens : list Z) (a : Z) :
  fold_left Z.mul lens a = a * Zprod lens.
Proof.
  revert a. induction lens as [|n lens IH]; intros a; cbn [fold_left].
  - cbn. lia.
  - rewrite IH, Zprod_cons. lia.
Qed.

Lemma not_None_Some (lens : list Z) : not_None (map Some lens) = lens.
Proof. induction lens as [|n lens IH]; [done |]. cbn. by rewrite IH. Qed.

Lemma reduce_mul_Zprod (lens : list Z) (n : Z) :
  reduce Z.mul lens = Some n → Zprod lens = n.
Proof.
  destruct lens as [|k lens]; [discriminate |].
  cbn [reduce]. rewrite fold_left_mul, Zprod_cons. congruence.
Qed.

Lemma info_list_length (maxes : list (option Z)) (g : Z) :
  length (_psrc_info_list maxes g) = length maxes.
Proof.
  revert g. induction maxes as [|m maxes IH]; intros g; [done |].
  cbn [_psrc_info_list length]. by rewrite IH.
Qed.

Lemma info_list_app (lens1 : list Z) (maxes2 : list (option Z)) (g : Z) :
  Forall (λ n, 0 < n) lens1 →
  _psrc_info_list (map Some lens1 ++ maxes2) g
  = _psrc_info_list (map Some lens1) g
    ++ _psrc_info_list maxes2 (g * Zprod lens1).
Proof.
  intros Hpos. revert g.
  induction Hpos as [|n lens1 Hn _ IH]; intros g.
  - cbn. f_equal. lia.
  - cbn [map app _psrc_info_list]. rewrite IH.
    destruct (Z.eqb_spec n 0); [lia |].
    rewrite Zprod_cons. do 3 f_equal. lia.
Qed.

Section loops.

Variable f : psrc → Z → result → res exn result.

Lemma cross_content_app (p : Z) (kids1 kids2 : list psrc) :
  ∀ (infos1 infos2 : list (option Z * Z)) (r : result),
    length kids1 = length infos1 →
    cross_content result f p (kids1 ++ kids2) (infos1 ++ infos2) r
    = cross_content result f p kids1 infos1 r
      ≫= cross_content result f p kids2 infos2.
Proof.
  induction kids1 as [|k kids1 IH]; intros infos1 infos2 r Hlen.
  - destruct infos1; [reflexivity | discriminate].
  - destruct infos1 as [|[m g] infos1]; [discriminate |].
    injection Hlen as Hlen.
    cbn [app cross_content].
    destruct m as [n|].
    + destruct (n =? 0); [by apply IH |].
      rewrite res_bind_assoc. apply res_bind_ext. intros r'. by apply IH.
    + rewrite res_bind_assoc. apply res_bind_ext. intros r'. by apply IH.
Qed.

(** A group size [g * h] at index [p] selects what group size [h] selects
    at index [p / g]. *)
Lemma cross_content_scale (p g : Z) (lens : list Z) :
  0 < g →
  Forall (λ n, 0 < n) lens →
  ∀ (kids : list psrc) (h : Z) (r : result),
    0 < h →
    cross_content result f p kids (_psrc_info_list (map Some lens) (g * h)) r
    = cross_content result f (p / g) kids
        (_psrc_info_list (map Some lens) h) r.
Proof.
  intros Hg. induction 1 as [|n lens Hn _ IH]; intros kids h r Hh.
  - by destruct kids.
  - destruct kids as [|k kids]; [done |].
    cbn [map _psrc_info_list cross_content].
    destruct (Z.eqb_spec n 0); [lia |].
    rewrite Z.div_div by lia.
    apply res_bind_ext. intros r'.
    replace (g * h * n) with (g * (h * n)) by lia.
    apply IH. lia.
Qed.

Lemma div_mod_group (p h n P k : Z) :
  0 < h → 0 < n → 0 < P → P = h * n * k →
  ((p mod P) / h) mod n = (p / h) mod n.
Proof.
  intros Hh Hn HP ->.
  rewrite (Z.div_mod p (h * n * k)) at 2 by lia.
  replace (h * n * k * (p / (h * n * k)) + p mod (h * n * k))
    with (p mod (h * n * k) + (n * (k * (p / (h * n * k)))) * h) by ring.
  rewrite Z.div_add by lia.
  replace (p mod (h * n * k) / h + n * (k * (p / (h * n * k))))
    with (p mod (h * n * k) / h + (k * (p / (h * n * k))) * n) by ring.
  by rewrite Z.mod_add by lia.
Qed.

(** The children of a cross see the index modulo every multiple [P] of
    the product of their group sizes. *)
Lemma cross_content_mod (p P : Z) (lens : list Z) :
  0 < P →
  Forall (λ n, 0 < n) lens →
  ∀ (kids : list psrc) (h k : Z) (r : result),
    0 < h →
    P = h * Zprod lens * k →
    cross_content result f p kids (_psrc_info_list (map Some lens) h) r
    = cross_content result f (p mod P) kids
        (_psrc_info_list (map Some lens) h) r.
Proof.
  intros HP. induction 1 as [|n lens Hn _ IH]; intros kids h k r Hh HPk.
  - by destruct kids.
  - destruct kids as [|c kids]; [done |].
    cbn [map _psrc_info_list cross_content].
    destruct (Z.eqb_spec n 0); [lia |].
    rewrite Zprod_cons in HPk.
    rewrite (div_mod_group p h n P (Zprod lens * k)) by lia.
    apply res_bind_ext. intros r'.
    apply (IH kids (h * n) k); lia.
Qed.

(** The loop of a cross over the children of two crosses placed one after
    the other *)
Lemma cross_content_spliced (p : Z) (kids1 kids2 : list psrc)
    (lens1 lens2 : list Z) (r : result) :
  length kids1 = length lens1 →
  Forall (λ n, 0 < n) lens1 →
  Forall (λ n, 0 < n) lens2 →
  cross_content result f p (kids1 ++ kids2)
    (_psrc_info_list (map Some (lens1 ++ lens2)) 1) r
  = cross_content result f (p mod Zprod lens1) kids1
      (_psrc_info_list (map Some lens1) 1) r
    ≫= cross_content result f (p / Zprod lens1) kids2
         (_psrc_info_list (map Some lens2) 1).
Proof.
  intros Hlen H1 H2.
  pose proof (Zprod_pos lens1 H1) as HP.
  rewrite List.map_app, info_list_app by done.
  rewrite cross_content_app
    by (by rewrite info_list_length, List.length_map).
  rewrite (cross_content_mod p (Zprod lens1) lens1 HP H1 kids1 1 1) by lia.
  apply res_bind_ext. intros r'.
  replace (1 * Zprod lens1) with (Zprod lens1 * 1) by lia.
  by apply cross_content_scale.
Qed.

End loops.

Lemma Zprod_app (lens1 lens2 : list Z) :
  Zprod (lens1 ++ lens2) = Zprod lens1 * Zprod lens2.
Proof.
  induction lens1 as [|n lens1 IH]; cbn [app].
  - cbn. lia.
  - rewrite !Zprod_cons, IH. lia.
Qed.

Lemma Zprod_nonneg (lens : list Z) :
  Forall (λ n, 0 ≤ n) lens → 0 ≤ Zprod lens.
Proof.
  induction 1 as [|n lens Hn _ IH]; [done |].
  rewrite Zprod_cons. lia.
Qed.

Lemma reduce_mul_nonempty (lens : list Z) :
  lens ≠ [] → reduce Z.mul lens = Some (Zprod lens).
Proof.
  destruct lens as [|n lens]; [done |]. intros _.
  cbn [reduce]. by rewrite fold_left_mul, Zprod_cons.
Qed.

Lemma simplify_pair (s1 s2 : psrc) :
  _simplify_nested_sources result CrossParameterSource [s1; s2]
  = psource_spec.splice result s1 ++ psource_spec.splice result s2.
Proof.
  unfold _simplify_nested_sources. cbn [flat_map].
  by rewrite app_nil_r.
Qed.

Lemma counted_lens (kids : list psrc) :
  Forall (psource_spec.counted result null_len) kids →
  ∃ lens, map len kids = map Some lens ∧ Forall (λ n, 0 ≤ n) lens.
Proof.
  induction 1 as [|k kids (n & Hn & Hpos) _ (lens & IH & Hlens)].
  - by exists [].
  - exists (n :: lens). cbn [map]. rewrite Hn, IH. by split; [| constructor].
Qed.

(** An argument of a cross seen through the sources that are spliced into
    the cross *)
Lemma splice_view (s : psrc) (l : Z) :
  is_null result s = false →
  psource_spec.initialised result null_len s →
  Forall (psource_spec.counted result null_len) (psource_spec.splice result s) →
  len s = Some l →
  ∃ lens,
    map len (psource_spec.splice result s) = map Some lens ∧
    strip (psource_spec.splice result s) = psource_spec.splice result s ∧
    Forall (λ n, 0 ≤ n) lens ∧
    lens ≠ [] ∧
    Zprod lens = l ∧
    ∀ q r, 0 ≤ q < l →
      fill s q r
      = cross_content result fill q (psource_spec.splice result s)
          (_psrc_info_list (map Some lens) 1) r.
Proof.
  intros Hnull Hinit Hcounted Hlen.
  assert (Hsingle : psource_spec.splice result s = [s] →
    ∃ lens,
      map len (psource_spec.splice result s) = map Some lens ∧
      strip (psource_spec.splice result s) = psource_spec.splice result s ∧
      Forall (λ n, 0 ≤ n) lens ∧
      lens ≠ [] ∧
      Zprod lens = l ∧
      ∀ q r, 0 ≤ q < l →
        fill s q r
        = cross_content result fill q (psource_spec.splice result s)
            (_psrc_info_list (map Some lens) 1) r).
  { intros Hs. rewrite Hs in Hcounted |- *.
    apply Forall_cons_1 in Hcounted as [(n & Hn & Hpos) _].
    assert (n = l) as -> by congruence.
    exists [l]. split; [by cbn [map]; rewrite Hlen |].
    split; [by rewrite strip_cons_keep |].
    split; [by constructor |]. split; [done |].
    split; [cbn; lia |].
    intros q r Hq. cbn [map _psrc_info_list cross_content].
    destruct (Z.eqb_spec l 0); [lia |].
    rewrite Z.div_1_r, Z.mod_small by lia.
    symmetry. apply res_bind_ok. }
  destruct s as [| | | |cls kids maxes m|]; try (by apply Hsingle).
  destruct cls; try (by apply Hsingle).
  clear Hsingle. cbn [psource_spec.splice] in *.
  destruct (decide (CrossParameterSource = CrossParameterSource)); [| done].
  destruct Hinit as (Hstrip & Hmaxes & Hm).
  cbn [get_parameter_len] in Hlen. subst m.
  destruct (counted_lens kids Hcounted) as (lens & Hlens & Hpos).
  rewrite Hlens in Hmaxes. subst maxes.
  cbn [_init_psrc_max] in Hm. rewrite not_None_Some in Hm.
  injection Hm as Hm.
  exists lens. split; [done |]. split; [done |]. split; [done |].
  split; [by destruct lens |].
  split; [by apply reduce_mul_Zprod |].
  intros q r _. reflexivity.
Qed.

(** C1, as the constructor has it: for two finite, non-null arguments
    [s1] and [s2] whose lengths are counts, where an argument that is
    itself a cross has only children with a length (its children are
    spliced into the new cross), the cross has [len(s1) * len(s2)] points
    and filling it at [p] in that range fills [s1] at [p mod len(s1)] and
    then [s2] at [p / len(s1)]; these are the indices
    [(p / G) mod len(s)] for the group sizes [G = 1] of [s1] and
    [G = len(s1)] of [s2]. *)
Theorem C1_cross_fill (s1 s2 : psrc) (l1 l2 p : Z) (r : result) :
  is_null result s1 = false →
  is_null result s2 = false →
  psource_spec.initialised result null_len s1 →
  psource_spec.initialised result null_len s2 →
  Forall (psource_spec.counted result null_len)
    (_simplify_nested_sources result CrossParameterSource [s1; s2]) →
  len s1 = Some l1 →
  len s2 = Some l2 →
  0 ≤ p < l1 * l2 →
  ∃ c, new_cross result null_len [s1; s2] = Ok c ∧
       len c = Some (l1 * l2) ∧
       fill c p r = fill s1 (p mod l1) r ≫= fill s2 (p / l1) ∧
       (p / 1) mod l1 = p mod l1 ∧
       (p / l1) mod l2 = p / l1.
Proof.
  intros Hn1 Hn2 Hi1 Hi2 Hcounted Hl1 Hl2 Hp.
  rewrite simplify_pair in Hcounted.
  apply Forall_app in Hcounted as [Hc1 Hc2].
  destruct (splice_view s1 l1 Hn1 Hi1 Hc1 Hl1)
    as (lens1 & Hlens1 & Hstrip1 & Hnn1 & Hne1 & Hprod1 & Hfill1).
  destruct (splice_view s2 l2 Hn2 Hi2 Hc2 Hl2)
    as (lens2 & Hlens2 & Hstrip2 & Hnn2 & Hne2 & Hprod2 & Hfill2).
  pose proof (Zprod_nonneg lens1 Hnn1) as Hge1.
  pose proof (Zprod_nonneg lens2 Hnn2) as Hge2.
  assert (0 < l1 ∧ 0 < l2) as [Hpos1 Hpos2] by nia.
  assert (Hp1 : Forall (λ n, 0 < n) lens1).
  { apply Zprod_nonneg_pos; [done | lia]. }
  assert (Hp2 : Forall (λ n, 0 < n) lens2).
  { apply Zprod_nonneg_pos; [done | lia]. }
  exists (Multi result CrossParameterSource
            (psource_spec.splice result s1 ++ psource_spec.splice result s2)
            (map Some (lens1 ++ lens2)) (Some (l1 * l2))).
  split; [| split; [reflexivity | split; [| split]]].
  - unfold new_cross, CrossParameterSource_new.
    rewrite strip_cons_keep by done. rewrite strip_cons_keep by done.
    cbn [_strip_null_sources List.filter]. unfold is_finite.
    rewrite Hl1, Hl2. cbn [length Nat.ltb Nat.leb mbind res_mbind res_bind].
    unfold nested_init, MultiParameterSource_init.
    rewrite simplify_pair, strip_app, Hstrip1, Hstrip2.
    rewrite List.map_app, Hlens1, Hlens2, <- List.map_app.
    cbn [_init_psrc_max]. rewrite not_None_Some.
    rewrite reduce_mul_nonempty by (by destruct lens1).
    rewrite Zprod_app, Hprod1, Hprod2. reflexivity.
  - cbn [fill_parameter_content].
    rewrite cross_content_spliced; [| | done | done].
    + rewrite Hprod1.
      rewrite <- Hfill1 by (by apply Z.mod_pos_bound).
      apply res_bind_ext. intros r'. symmetry. apply Hfill2.
      split; [by apply Z.div_pos; lia |].
      apply Z.div_lt_upper_bound; lia.
    + rewrite <- (List.length_map len), Hlens1. apply List.length_map.
  - by rewrite Z.div_1_r.
  - apply Z.mod_small. split; [by apply Z.div_pos; lia |].
    apply Z.div_lt_upper_bound; lia.
Qed.

(** The constructors establish [initialised]. *)
Lemma MultiParameterSource_init_initialised (cls : multi_class)
    (l : list psrc) (s : psrc) :
  MultiParameterSource_init result null_len cls l = Ok s →
  psource_spec.initialised result null_len s.
Proof.
  unfold MultiParameterSource_init.
  destruct (_init_psrc_max cls _) as [m|e] eqn:Hm; cbn; [| discriminate].
  intros [= <-]. cbn. by rewrite strip_idem.
Qed.

End with_sources.
End psource_content.

Module psource_content_examples.
Import psource_meta psource_spec examples psource_content.

Lemma C9_chain_fill_past_end_witness :
  ∃ c, ChainParameterSource_init writes null_len
         [var "A" 2; counter "N"; var "B" 3] = Ok c ∧
       get_parameter_len writes null_len c = Some 6 ∧
       fill_parameter_content writes c 6 [] = Ok [].
Proof.
  eexists. split; [reflexivity |]. split; [reflexivity |].
  eapply (C9_chain_fill_past_end writes null_len
            [var "A" 2; counter "N"; var "B" 3] _ 6 6 []).
  - reflexivity.
  - repeat constructor; cbn; intros n [= <-]; lia.
  - reflexivity.
  - lia.
Defined.

(** C9 as stated fails when a child reports a negative length:
    [range(B, 3, 0)] has length [0 - 3 + 1 = -2], the chain of [A] (five
    points) and that range has length 3, and filling it at 3 fills [A]
    at 3. *)
Lemma C9_negative_length_counterexample :
  ∃ R c,
    RangeParameterSource writes null_len (var "B" 5) (Some 3) (Some 0) = Ok R ∧
    get_parameter_len writes null_len R = Some (-2) ∧
    new_chain writes null_len [var "A" 5; R] = Ok c ∧
    get_parameter_len writes null_len c = Some 3 ∧
    fill_parameter_content writes c 3 [] = Ok [("A"%string, 3)] ∧
    fill_parameter_content writes c 3 [] ≠ Ok [].
Proof.
  eexists _, _. repeat split; try reflexivity.
  intros H. vm_compute in H. discriminate H.
Qed.

Lemma C1_cross_fill_witness :
  ∃ c, new_cross writes null_len [cross_AB; var "C" 3] = Ok c ∧
       get_parameter_len writes null_len c = Some (4 * 3) ∧
       fill_parameter_content writes c 5 []
       = fill_parameter_content writes cross_AB (5 mod 4) []
         ≫= fill_parameter_content writes (var "C" 3) (5 / 4) ∧
       (5 / 1) mod 4 = 5 mod 4 ∧
       (5 / 4) mod 3 = 5 / 4.
Proof.
  apply (C1_cross_fill writes null_len cross_AB (var "C" 3) 4 3 5 []).
  - reflexivity.
  - reflexivity.
  - repeat split.
  - exact I.
  - repeat constructor; (eexists; split; [reflexivity | lia]).
  - reflexivity.
  - reflexivity.
  - lia.
Defined.

(** C1 as stated fails when an argument is a cross that has an unbounded
    child: [cross(cross(A, B, N), C)] holds the children [A, B, N, C], and
    at [p = 5] the unbounded [N] is filled at 5, whereas filling
    [cross(A, B, N)] at [5 mod 4] fills it at 1.  It also fails on lengths
    that are negative: the ranges [range(A, 3, 0)] and [range(B, 4, 0)]
    have lengths -2 and -3, their cross has length 6, and at [p = 5] the
    second range is not filled at [floor(5 / -2) = -3]. *)
Lemma C1_cross_fill_counterexample :
  (get_parameter_len writes null_len cross_ABN = Some 4 ∧
   get_parameter_len writes null_len (var "C" 3) = Some 3 ∧
   0 ≤ 5 < 4 * 3 ∧
   ∃ c, new_cross writes null_len [cross_ABN; var "C" 3] = Ok c ∧
        fill_parameter_content writes c 5 []
        = Ok [("A", 1); ("B", 0); ("N", 5); ("C", 1)]%string ∧
        fill_parameter_content writes cross_ABN (5 mod 4) []
          ≫= fill_parameter_content writes (var "C" 3) (5 / 4)
        = Ok [("A", 1); ("B", 0); ("N", 1); ("C", 1)]%string ∧
        fill_parameter_content writes c 5 []
        ≠ fill_parameter_content writes cross_ABN (5 mod 4) []
          ≫= fill_parameter_content writes (var "C" 3) (5 / 4)) ∧
  (get_parameter_len writes null_len (range_to_0 "A" 3) = Some (-2) ∧
   get_parameter_len writes null_len (range_to_0 "B" 4) = Some (-3) ∧
   0 ≤ 5 < -2 * -3 ∧
   ∃ c, new_cross writes null_len [range_to_0 "A" 3; range_to_0 "B" 4]
        = Ok c ∧
        get_parameter_len writes null_len c = Some 6 ∧
        fill_parameter_content writes c 5 []
        ≠ fill_parameter_content writes (range_to_0 "A" 3) (5 mod -2) []
          ≫= fill_parameter_content writes (range_to_0 "B" 4) (5 / -2)).
Proof.
  split.
  - split; [reflexivity |]. split; [reflexivity |]. split; [lia |].
    eexists. split; [reflexivity |].
    split; [reflexivity |]. split; [reflexivity |].
    intros H. vm_compute in H. discriminate H.
  - split; [reflexivity |]. split; [reflexivity |]. split; [lia |].
    eexists. split; [reflexivity |]. split; [reflexivity |].
    intros H. vm_compute in H. discriminate H.
Qed.

End psource_content_examples.

(** ** Merging parameter metadata *)

Module psource_metadata.
Import psource_meta psource_spec.

Section with_sources.

Variable result : Type.

Abbreviation psrc := (ParameterSource result).
Abbreviation metadata_of := (fill_parameter_metadata result).

(** *** [MultiParameterSource.fill_parameter_metadata] *)

Section multi.

Variable res0 : list ParameterMetadata.

Lemma multi_inv_empty : multi_inv ∅ [].
Proof.
  split; [constructor |]. intros vn. rewrite lookup_empty. split.
  - intros [? [=]].
  - intros []%elem_of_nil.
Qed.

Lemma multi_metadata_list_spec (psrc_idx : nat)
    (metadata_list : list ParameterMetadata) :
  ∀ (map_vn2psrc : gmap string nat) (seen : list ParameterMetadata),
    multi_inv map_vn2psrc seen →
    (NoDup (names (seen ++ metadata_list)) →
     ∃ map',
       multi_metadata_list psrc_idx metadata_list map_vn2psrc (res0 ++ seen)
       = Ok (map', res0 ++ seen ++ metadata_list) ∧
       multi_inv map' (seen ++ metadata_list)) ∧
    (¬ NoDup (names (seen ++ metadata_list)) →
     ∃ vn prev,
       multi_metadata_list psrc_idx metadata_list map_vn2psrc (res0 ++ seen)
       = Raise (ParameterErr (Collisions_of_parameter vn psrc_idx prev))).
Proof.
  induction metadata_list as [|md mdl IH]; intros m seen [Hnd Hm].
  - rewrite app_nil_r. split; [| done].
    intros _. exists m. by split.
  - cbn [multi_metadata_list].
    destruct (m !! value md) as [prev|] eqn:Hlook.
    + assert (Hin : value md ∈ names seen) by (apply Hm; eauto).
      split; [| by eauto].
      unfold names. rewrite fmap_app, fmap_cons.
      intros (_ & Hdisj & _)%NoDup_app.
      exfalso. apply (Hdisj _ Hin). by left.
    + assert (Hnotin : value md ∉ names seen).
      { intros Hin%Hm. rewrite Hlook in Hin. by destruct Hin. }
      assert (Hinv : multi_inv (<[value md := psrc_idx]> m) (seen ++ [md])).
      { split.
        - unfold names in *. rewrite fmap_app. apply NoDup_app.
          split; [done |]. split; [| apply NoDup_singleton].
          intros vn Hvn ->%list_elem_of_singleton. done.
        - intros vn. rewrite lookup_insert_is_Some.
          unfold names in *. rewrite fmap_app, elem_of_app.
          cbn [fmap list_fmap]. rewrite list_elem_of_singleton, Hm.
          destruct (decide (value md = vn)); intuition congruence. }
      destruct (IH _ _ Hinv) as [Hok Hraise].
      rewrite <- !app_assoc in Hok, Hraise. cbn [app] in Hok, Hraise.
      rewrite <- app_assoc. cbn [app]. by split.
Qed.

Variable f : psrc → list ParameterMetadata → res exn (list ParameterMetadata).

Lemma multi_metadata_spec (psrc_list : list psrc)
    (mdls : list (list ParameterMetadata)) :
  Forall2 (λ p mdl, f p [] = Ok mdl) psrc_list mdls →
  ∀ (psrc_idx : nat) (map_vn2psrc : gmap string nat)
    (seen : list ParameterMetadata),
    multi_inv map_vn2psrc seen →
    (NoDup (names (seen ++ concat mdls)) →
     multi_metadata result f psrc_list psrc_idx map_vn2psrc (res0 ++ seen)
     = Ok (res0 ++ seen ++ concat mdls)) ∧
    (¬ NoDup (names (seen ++ concat mdls)) →
     ∃ vn psrc prev,
       multi_metadata result f psrc_list psrc_idx map_vn2psrc (res0 ++ seen)
       = Raise (ParameterErr (Collisions_of_parameter vn psrc prev))).
Proof.
  induction 1 as [|p mdl kids mdls Hp _ IH]; intros idx m seen Hinv.
  - cbn [concat]. rewrite app_nil_r. split; [done |].
    intros Hdup. by destruct Hinv.
  - cbn [multi_metadata concat]. rewrite Hp.
    cbn [mbind res_mbind res_bind].
    destruct (multi_metadata_list_spec idx mdl m seen Hinv) as [Hok Hraise].
    destruct (decide (NoDup (names (seen ++ mdl)))) as [Hnd|Hnd].
    + destruct (Hok Hnd) as (m' & -> & Hinv').
      cbn [res_bind fst snd].
      destruct (IH (S idx) m' (seen ++ mdl) Hinv') as [Hok' Hraise'].
      rewrite <- !app_assoc in Hok', Hraise'.
      split; [exact Hok' | exact Hraise'].
    + destruct (Hraise Hnd) as (vn & prev & ->).
      cbn [res_bind]. split; [| by eauto].
      intros Hall. exfalso. apply Hnd.
      unfold names in *. rewrite app_assoc, fmap_app in Hall.
      by apply NoDup_app in Hall as (? & _).
Qed.

End multi.

(** Two children that emit the same name make the names of all emitted
    entries repeat. *)
Lemma shared_name_not_NoDup (mdls : list (list ParameterMetadata)) :
  ∀ (i j : nat) (mi mj : list ParameterMetadata) (md1 md2 : ParameterMetadata),
    i ≠ j →
    mdls !! i = Some mi → mdls !! j = Some mj →
    md1 ∈ mi → md2 ∈ mj →
    value md1 = value md2 →
    ¬ NoDup (names (concat mdls)).
Proof.
  assert (Hin : ∀ (l : list (list ParameterMetadata)) k mk md,
            l !! k = Some mk → md ∈ mk → value md ∈ names (concat l)).
  { induction l as [|m l IHl]; intros k mk md Hk Hmd; [done |].
    cbn [concat]. unfold names. rewrite fmap_app, elem_of_app.
    destruct k as [|k]; cbn in Hk.
    - injection Hk as ->. left. by apply list_elem_of_fmap_2.
    - right. by eapply IHl. }
  induction mdls as [|m mdls IH]; intros i j mi mj md1 md2 Hij Hi Hj H1 H2 Hv;
    [done |].
  cbn [concat]. unfold names. rewrite fmap_app.
  intros (_ & Hdisj & Hrest)%NoDup_app.
  destruct i as [|i], j as [|j]; cbn in Hi, Hj; [done | | |].
  - injection Hi as ->.
    apply (Hdisj (value md1)); [by apply list_elem_of_fmap_2 |].
    rewrite Hv. by eapply Hin.
  - injection Hj as ->.
    apply (Hdisj (value md2)); [by apply list_elem_of_fmap_2 |].
    rewrite <- Hv. by eapply Hin.
  - eapply (IH i j); eauto.
Qed.

(** *** [ChainParameterSource.fill_parameter_metadata] *)

Lemma agree_app_l (l1 l2 : list ParameterMetadata) :
  agree (l1 ++ l2) → agree l1.
Proof.
  intros Hag md1 md2 H1 H2. apply Hag; apply elem_of_app; by left.
Qed.

Section chain.

Variable res0 : list ParameterMetadata.

Lemma chain_inv_empty : chain_inv ∅ ∅ [] [].
Proof.
  split; [by intros ? ? []%elem_of_nil |].
  split.
  { intros vn b. rewrite lookup_empty. split; [done |].
    by intros (? & []%elem_of_nil & _). }
  split.
  { intros vn. rewrite lookup_empty. split.
    - intros [? [=]].
    - intros []%elem_of_nil. }
  split; [constructor |]. split; [constructor | done].
Qed.

Lemma chain_step_clash (ts : gmap string bool) (pl : gmap string (list nat))
    (r seen : list ParameterMetadata) (md : ParameterMetadata) :
  chain_inv ts pl r seen →
  default (untracked md) (ts !! value md) ≠ untracked md →
  ¬ agree (seen ++ [md]).
Proof.
  intros (_ & Hts & _) Hne Hag.
  destruct (ts !! value md) as [b|] eqn:Hlook; [| done].
  cbn in Hne. apply Hts in Hlook as (md' & Hin & Hv & Hb).
  apply Hne. rewrite <- Hb. apply Hag; [| | done].
  - apply elem_of_app. by left.
  - apply elem_of_app. right. by apply list_elem_of_singleton.
Qed.

Lemma chain_step_inv (psrc_idx : nat) (ts : gmap string bool)
    (pl : gmap string (list nat)) (r seen : list ParameterMetadata)
    (md : ParameterMetadata) :
  chain_inv ts pl r seen →
  default (untracked md) (ts !! value md) = untracked md →
  chain_inv (<[value md := untracked md]> ts)
    (<[value md := default [] (pl !! value md) ++ [psrc_idx]]> pl)
    match pl !! value md with
    | None => r ++ [md]
    | Some _ => r
    end
    (seen ++ [md]).
Proof.
  intros (Hag & Hts & Hpl & Hnd & Hsub & Hcov) Hflag.
  assert (Hold : ∀ md', md' ∈ seen → value md' = value md →
                        untracked md' = untracked md).
  { intros md' Hin Hv.
    assert (Hl : ts !! value md = Some (untracked md')) by (apply Hts; eauto).
    by rewrite Hl in Hflag. }
  assert (Hag' : agree (seen ++ [md])).
  { intros md1 md2 [H1|H1%list_elem_of_singleton]%elem_of_app
                   [H2|H2%list_elem_of_singleton]%elem_of_app Hv; subst.
    - by apply Hag.
    - by apply Hold.
    - symmetry. by apply Hold.
    - done. }
  split; [done |]. split; [| split].
  - intros vn b. rewrite lookup_insert_Some. split.
    + intros [[<- <-]|[Hne Hl]].
      * exists md. split; [| done].
        apply elem_of_app. right. by apply list_elem_of_singleton.
      * apply Hts in Hl as (md' & Hin & Hv & Hb).
        exists md'. split; [| done]. apply elem_of_app. by left.
    + intros (md' & [Hin | ->%list_elem_of_singleton]%elem_of_app & Hv & Hb).
      * destruct (decide (value md = vn)) as [Heq|Hne].
        -- left. split; [done |]. rewrite <- Hb. symmetry. apply Hold; congruence.
        -- right. split; [done |]. apply Hts. eauto.
      * left. by split.
  - intros vn. rewrite lookup_insert_is_Some.
    unfold names in *. rewrite fmap_app, elem_of_app.
    cbn [fmap list_fmap]. rewrite list_elem_of_singleton, Hpl.
    destruct (decide (value md = vn)); intuition congruence.
  - destruct (pl !! value md) as [prev|] eqn:Hlook.
    + assert (Hin : value md ∈ names seen) by (apply Hpl; eauto).
      split; [done |]. split; [by apply sublist_inserts_r |].
      intros vn. unfold names in *. rewrite fmap_app, elem_of_app.
      cbn [fmap list_fmap]. rewrite list_elem_of_singleton.
      intros [Hvn|Heq]; [| rewrite Heq]; by apply Hcov.
    + assert (Hnotin : value md ∉ names seen).
      { intros Hin%Hpl. rewrite Hlook in Hin. by destruct Hin. }
      assert (Hnotr : value md ∉ names r).
      { intros (md' & Hv & Hin)%list_elem_of_fmap. apply Hnotin.
        rewrite Hv. apply list_elem_of_fmap_2.
        by eapply sublist_subseteq. }
      split; [| split].
      * unfold names in *. rewrite fmap_app. apply NoDup_app.
        split; [done |]. split; [| apply NoDup_singleton].
        by intros vn Hvn ->%list_elem_of_singleton.
      * by apply sublist_app.
      * intros vn. unfold names in *. rewrite !fmap_app, !elem_of_app.
        intros [Hvn|Hvn]; [left; by apply Hcov | by right].
Qed.

Lemma chain_metadata_list_spec (psrc_idx : nat)
    (metadata_list : list ParameterMetadata) :
  ∀ (ts : gmap string bool) (pl : gmap string (list nat))
    (r seen : list ParameterMetadata),
    chain_inv ts pl r seen →
    (agree (seen ++ metadata_list) ∧
     ∃ ts' pl' r',
       chain_metadata_list psrc_idx metadata_list ts pl (res0 ++ r)
       = Ok (ts', pl', res0 ++ r') ∧
       chain_inv ts' pl' r' (seen ++ metadata_list)) ∨
    (¬ agree (seen ++ metadata_list) ∧
     ∃ vn prev,
       chain_metadata_list psrc_idx metadata_list ts pl (res0 ++ r)
       = Raise (ParameterErr
                  (Collisions_of_tracking_status vn psrc_idx prev))).
Proof.
  induction metadata_list as [|md mdl IH]; intros ts pl r seen Hinv.
  - left. rewrite app_nil_r. split; [by destruct Hinv |].
    by exists ts, pl, r.
  - cbn [chain_metadata_list].
    replace (seen ++ md :: mdl) with ((seen ++ [md]) ++ mdl)
      by (by rewrite <- app_assoc).
    destruct (eqb (default (untracked md) (ts !! value md)) (untracked md))
      eqn:Hflag.
    + apply Bool.eqb_prop in Hflag.
      pose proof (chain_step_inv psrc_idx ts pl r seen md Hinv Hflag) as Hinv'.
      cbn [negb]. rewrite Hflag.
      replace (match pl !! value md with
               | Some _ => res0 ++ r
               | None => (res0 ++ r) ++ [md]
               end)
        with (res0 ++ match pl !! value md with
                      | Some _ => r
                      | None => r ++ [md]
                      end)
        by (destruct (pl !! value md); [done | by rewrite app_assoc]).
      apply (IH _ _ _ _ Hinv').
    + right. cbn [negb]. split; [| by eauto].
      intros Hag%agree_app_l.
      apply (chain_step_clash ts pl r seen md Hinv); [| done].
      intros Heq. rewrite Heq, Bool.eqb_reflx in Hflag. discriminate.
Qed.

Variable f : psrc → list ParameterMetadata → res exn (list ParameterMetadata).

Lemma chain_metadata_spec (psrc_list : list psrc)
    (mdls : list (list ParameterMetadata)) :
  Forall2 (λ p mdl, f p [] = Ok mdl) psrc_list mdls →
  ∀ (psrc_idx : nat) (ts : gmap string bool) (pl : gmap string (list nat))
    (r seen : list ParameterMetadata),
    chain_inv ts pl r seen →
    (agree (seen ++ concat mdls) ∧
     ∃ ts' pl' r',
       chain_metadata result f psrc_list psrc_idx ts pl (res0 ++ r)
       = Ok (res0 ++ r') ∧
       chain_inv ts' pl' r' (seen ++ concat mdls)) ∨
    (¬ agree (seen ++ concat mdls) ∧
     ∃ vn psrc prev,
       chain_metadata result f psrc_list psrc_idx ts pl (res0 ++ r)
       = Raise (ParameterErr (Collisions_of_tracking_status vn psrc prev))).
Proof.
  induction 1 as [|p mdl kids mdls Hp _ IH]; intros idx ts pl r seen Hinv.
  - left. cbn [concat]. rewrite app_nil_r. split; [by destruct Hinv |].
    by exists ts, pl, r.
  - cbn [chain_metadata concat]. rewrite Hp.
    cbn [mbind res_mbind res_bind].
    rewrite app_assoc.
    destruct (chain_metadata_list_spec idx mdl ts pl r seen Hinv)
      as [(Hag & ts' & pl' & r' & -> & Hinv')|(Hnag & vn & prev & ->)].
    + cbn [res_bind fst snd]. apply (IH (S idx) _ _ _ _ Hinv').
    + right. cbn [res_bind]. split; [| by eauto].
      by intros Hag%agree_app_l.
Qed.

End chain.

(** C6: with every child reporting its metadata, a multi-source other
    than a chain raises the parameter-collision error whenever two
    children emit the same name (and merges all entries when no name
    repeats); a chain returns normally exactly when entries of the same
    name agree on the tracking flag, and then reports each name once, in
    the order of first appearance; when flags disagree it raises the
    tracking-collision error. *)
Theorem C6_metadata_collisions (cls : multi_class) (kids : list psrc)
    (maxes : list (option Z)) (m : option Z)
    (mdls : list (list ParameterMetadata)) (res0 : list ParameterMetadata) :
  Forall2 (λ p mdl, metadata_of p [] = Ok mdl) kids mdls →
  (cls ≠ ChainParameterSource →
   ((∃ i j mi mj md1 md2,
       i ≠ j ∧ mdls !! i = Some mi ∧ mdls !! j = Some mj ∧
       md1 ∈ mi ∧ md2 ∈ mj ∧ value md1 = value md2) →
    ∃ vn psrc prev,
      metadata_of (Multi result cls kids maxes m) res0
      = Raise (ParameterErr (Collisions_of_parameter vn psrc prev))) ∧
   (NoDup (names (concat mdls)) →
    metadata_of (Multi result cls kids maxes m) res0
    = Ok (res0 ++ concat mdls))) ∧
  (cls = ChainParameterSource →
   (agree (concat mdls) →
    ∃ r, metadata_of (Multi result cls kids maxes m) res0 = Ok (res0 ++ r) ∧
         NoDup (names r) ∧
         r `sublist_of` concat mdls ∧
         ∀ md, md ∈ concat mdls → value md ∈ names r) ∧
   (¬ agree (concat mdls) →
    ∃ vn psrc prev,
      metadata_of (Multi result cls kids maxes m) res0
      = Raise (ParameterErr (Collisions_of_tracking_status vn psrc prev))) ∧
   ((∃ r, metadata_of (Multi result cls kids maxes m) res0 = Ok r) ↔
    agree (concat mdls))).
Proof.
  intros Hkids. split.
  - intros Hcls.
    assert (Hfill : metadata_of (Multi result cls kids maxes m) res0
                    = multi_metadata result metadata_of kids 0 ∅ res0).
    { by destruct cls. }
    rewrite Hfill.
    destruct (multi_metadata_spec res0 metadata_of kids mdls Hkids 0%nat ∅ []
                multi_inv_empty) as [Hok Hraise].
    rewrite app_nil_r in Hok, Hraise. cbn [app] in Hok, Hraise.
    split; [| exact Hok].
    intros (i & j & mi & mj & md1 & md2 & Hij & Hi & Hj & H1 & H2 & Hv).
    apply Hraise. by eapply (shared_name_not_NoDup mdls i j).
  - intros ->. cbn [fill_parameter_metadata].
    destruct (chain_metadata_spec res0 metadata_of kids mdls Hkids 0%nat ∅ ∅
                [] [] chain_inv_empty)
      as [(Hag & ts & pl & r & Hr & Hinv)|(Hnag & vn & a & prev & Hr)];
      rewrite app_nil_r in Hr; cbn [app] in *; rewrite Hr.
    + destruct Hinv as (_ & _ & _ & Hnd & Hsub & Hcov).
      split; [| split; [done |]].
      * intros _. exists r. split; [done |]. split; [done |].
        split; [done |]. intros md Hmd. apply Hcov.
        by apply list_elem_of_fmap_2.
      * split; [done | by eauto].
    + split; [done |]. split; [by eauto |].
      split; [by intros [r [=]] | done].
Qed.

End with_sources.
End psource_metadata.

Module psource_metadata_examples.
Import psource_meta psource_spec examples psource_metadata.

Lemma C6_metadata_collisions_witness :
  (∃ vn psrc prev,
     fill_parameter_metadata writes
       (Multi writes ZipLongParameterSource [var "A" 2; var "A" 3]
          [Some 2; Some 3] (Some 3)) []
     = Raise (ParameterErr (Collisions_of_parameter vn psrc prev))) ∧
  (∃ r,
     fill_parameter_metadata writes
       (Multi writes ChainParameterSource [var "A" 2; var "A" 3]
          [Some 2; Some 3] (Some 5)) []
     = Ok r) ∧
  (∃ vn psrc prev,
     fill_parameter_metadata writes
       (Multi writes ChainParameterSource
          [var "A" 2; Truncate writes (counter "A") None 1]
          [Some 2; Some 1] (Some 3)) []
     = Raise (ParameterErr (Collisions_of_tracking_status vn psrc prev))).
Proof.
  split; [| split].
  - destruct (C6_metadata_collisions writes ZipLongParameterSource
                [var "A" 2; var "A" 3] [Some 2; Some 3] (Some 3)
                [[mkMetadata "A" false]; [mkMetadata "A" false]] [])
      as [Hmulti _].
    + repeat constructor.
    + apply Hmulti; [done |].
      exists 0%nat, 1%nat, [mkMetadata "A" false], [mkMetadata "A" false],
        (mkMetadata "A" false), (mkMetadata "A" false).
      repeat split; try done; by apply list_elem_of_singleton.
  - destruct (C6_metadata_collisions writes ChainParameterSource
                [var "A" 2; var "A" 3] [Some 2; Some 3] (Some 5)
                [[mkMetadata "A" false]; [mkMetadata "A" false]] [])
      as [_ Hchain].
    + repeat constructor.
    + destruct (Hchain eq_refl) as (_ & _ & Hiff). apply Hiff.
      intros md1 md2 H1 H2 _. cbn in H1, H2.
      apply elem_of_cons in H1 as [-> | ->%list_elem_of_singleton];
        apply elem_of_cons in H2 as [-> | ->%list_elem_of_singleton]; done.
  - destruct (C6_metadata_collisions writes ChainParameterSource
                [var "A" 2; Truncate writes (counter "A") None 1]
                [Some 2; Some 1] (Some 3)
                [[mkMetadata "A" false]; [mkMetadata "A" true]] [])
      as [_ Hchain].
    + repeat constructor.
    + destruct (Hchain eq_refl) as (_ & Hraise & _). apply Hraise.
      intros Hag.
      specialize (Hag (mkMetadata "A" false) (mkMetadata "A" true)).
      cbn in Hag. discriminate Hag; [by left | by right; left | done].
Defined.

End psource_metadata_examples.

(** ** The local dispatcher *)

Module wms_local_properties.
Import wms_local.

Section submit.

Variable submitExec : string.
Variable wms_name : string.
Variable parseSubmitOutput : string → res exn (option string).

(** What [_submit_job] does on every input: when the output of the submit
    executable does not parse to a non-empty backend id (the hook raises,
    or returns [None] or an empty string), the method returns
    [(jobnum, None, {sandbox})], creates no file and logs the process,
    whatever the exit code; when it parses to an id [raw], the method
    returns the prefixed id and creates its marker file in the sandbox,
    whatever the exit code; a non-zero exit code adds a warning to the
    log. *)
Lemma submit_job_outcome (jobnum : Z) (sandbox : string) (proc : LocalProcess)
    (w : world) (parsed : option string) :
  parsed = match parseSubmitOutput (proc_stdout proc) with
           | Ok v => v
           | Raise _ => None
           end →
  (truthy parsed = false →
   (_submit_job submitExec wms_name parseSubmitOutput jobnum sandbox proc w).2
   = (jobnum, None, {[ "sandbox"%string := sandbox ]}) ∧
   files (_submit_job submitExec wms_name parseSubmitOutput jobnum sandbox
            proc w).1 = files w ∧
   log_process proc
   ∈ log (_submit_job submitExec wms_name parseSubmitOutput jobnum sandbox
            proc w).1) ∧
  (∀ raw, parsed = Some raw → raw ≠ ""%string →
   (_submit_job submitExec wms_name parseSubmitOutput jobnum sandbox proc w).2
   = (jobnum, Some (_create_gc_id wms_name raw),
      {[ "sandbox"%string := sandbox ]}) ∧
   files (_submit_job submitExec wms_name parseSubmitOutput jobnum sandbox
            proc w).1
   = files w ++ [path_join sandbox (_create_gc_id wms_name raw)]) ∧
  (status_is_zero (proc_status proc) = false →
   warning_failed submitExec
   ∈ log (_submit_job submitExec wms_name parseSubmitOutput jobnum sandbox
            proc w).1).
Proof.
  intros Hparsed. unfold _submit_job. rewrite <- Hparsed.
  split; [| split].
  - intros Hfalse. rewrite Hfalse. cbn [fst snd files log add_log].
    split; [done |]. split.
    + by destruct (negb _), parsed.
    + apply elem_of_app. right. by apply list_elem_of_singleton.
  - intros raw -> Hraw.
    assert (Htrue : truthy (Some raw) = true).
    { cbn. by destruct (String.eqb_spec raw ""). }
    rewrite Htrue. cbn [fst snd files touch default].
    split; [done |]. by destruct (negb _).
  - intros Hexit. rewrite Hexit. cbn [negb].
    destruct (truthy parsed); cbn [fst log touch add_log].
    + apply elem_of_app. right. by apply list_elem_of_singleton.
    + apply elem_of_app. left. apply elem_of_app. right.
      by apply list_elem_of_singleton.
Qed.

End submit.

Section autodetect.

Variable wms_class : Type.
Variable WMS : Type.
Variable get_class : string → res exn wms_class.
Variable create_instance : string → wms_class → res exn WMS.
Variable resolve_install_path : string → res exn string.

Abbreviation probe := (probe wms_class WMS get_class create_instance
                         resolve_install_path).
Abbreviation createWMS := (createWMS wms_class WMS get_class create_instance).

Lemma probe_first_hit (before after : list (string * string))
    (cmd wms : string) :
  Forall (λ cw, ∃ e, resolve_install_path cw.1 = Raise e) before →
  (∃ path, resolve_install_path cmd = Ok path) →
  ∀ ec probed,
    probe (before ++ (cmd, wms) :: after) ec probed
    = (probed ++ before.*1 ++ [cmd], inst ← createWMS wms; Ok (Some inst)).
Proof.
  intros Hbefore [path Hcmd].
  induction Hbefore as [|[c w] before [e He] _ IH]; intros ec probed.
  - cbn [app probe fmap list_fmap]. by rewrite Hcmd.
  - cbn [app probe]. cbn in He. rewrite He, IH.
    cbn [fmap list_fmap fst]. by rewrite <- app_assoc.
Qed.

Lemma probe_none (l : list (string * string)) (errs : list exn) :
  Forall2 (λ cw e, resolve_install_path cw.1 = Raise e) l errs →
  ∀ ec probed,
    probe l ec probed
    = (probed ++ l.*1,
       _ ← raise_any (ec ++ errs) "No valid local backend found!"; Ok None).
Proof.
  induction 1 as [|[c w] e l errs He _ IH]; intros ec probed.
  - cbn [probe fmap list_fmap]. by rewrite !app_nil_r.
  - cbn [probe]. cbn in He. rewrite He, IH.
    cbn [fmap list_fmap fst]. by rewrite <- !app_assoc.
Qed.

(** C8: without a backend name, [Local.__new__] looks for the six
    executables in the order sacct, sgepasswd, pbs-config, qsub, bsub,
    job_slurm; at the first one that resolves it stops probing and returns
    what creating the backend paired with it (SLURM, OGE, PBS, OGE, LSF,
    JMS) returns; when none resolves it raises the backend error that
    carries the six failures in probing order. *)
Theorem C8_local_autodetect :
  probes = [("sacct", "SLURM"); ("sgepasswd", "OGE"); ("pbs-config", "PBS");
            ("qsub", "OGE"); ("bsub", "LSF"); ("job_slurm", "JMS")]%string ∧
  (∀ before cmd wms after,
     probes = before ++ (cmd, wms) :: after →
     Forall (λ cw, ∃ e, resolve_install_path cw.1 = Raise e) before →
     (∃ path, resolve_install_path cmd = Ok path) →
     Local_new wms_class WMS get_class create_instance resolve_install_path ""
     = (before.*1 ++ [cmd], inst ← createWMS wms; Ok (Some inst))) ∧
  (∀ errs,
     Forall2 (λ cw e, resolve_install_path cw.1 = Raise e) probes errs →
     length errs = 6%nat ∧
     Local_new wms_class WMS get_class create_instance resolve_install_path ""
     = (probes.*1,
        Raise (BackendError "No valid local backend found!" errs))).
Proof.
  split; [reflexivity |]. split.
  - intros before cmd wms after Hprobes Hbefore Hcmd.
    unfold Local_new. cbn [String.eqb negb]. rewrite Hprobes.
    by rewrite (probe_first_hit before after cmd wms Hbefore Hcmd).
  - intros errs Herrs.
    split; [by rewrite <- (Forall2_length _ _ _ Herrs) |].
    unfold Local_new. cbn [String.eqb negb].
    rewrite (probe_none probes errs Herrs). cbn [app].
    destruct errs as [|e errs]; [by apply Forall2_length in Herrs |].
    reflexivity.
Qed.

End autodetect.
End wms_local_properties.

Module wms_local_examples.
Import wms_local examples wms_local_properties.

Lemma submit_job_outcome_example :
  (_submit_job "qsub" "TEST" parse_job 3 "/sbx/t.0003.xyz"
     (mkProcess (exit_status 0) "no output") (mkWorld [] [])).2
  = (3, None, {[ "sandbox"%string := "/sbx/t.0003.xyz"%string ]}) ∧
  (_submit_job "qsub" "TEST" parse_job 3 "/sbx/t.0003.xyz"
     (mkProcess (exit_status 0) "JOB 42") (mkWorld [] [])).2
  = (3, Some "WMSID.TEST.42"%string,
     {[ "sandbox"%string := "/sbx/t.0003.xyz"%string ]}).
Proof.
  split.
  - apply (submit_job_outcome "qsub" "TEST" parse_job 3 "/sbx/t.0003.xyz"
             (mkProcess (exit_status 0) "no output") (mkWorld [] []) None);
      reflexivity.
  - apply (submit_job_outcome "qsub" "TEST" parse_job 3 "/sbx/t.0003.xyz"
             (mkProcess (exit_status 0) "JOB 42") (mkWorld [] [])
             (Some "42"%string)); [reflexivity | reflexivity | done].
Defined.

(** C2, where the code departs from it: the submit executable exits with
    status 1 after printing [JOB 42].  The method logs the warning that
    the executable failed and nothing else, records the id
    [WMSID.TEST.42] and creates its marker file in the sandbox, where the
    claim has [(jobnum, None, {sandbox})] and no marker.  On the other
    paths that log a warning (the same exit status with no id in the
    output, and exit status 0 with no id) the method also logs the process
    and returns the nil id. *)
Theorem C2_nonzero_exit_records_id :
  status_is_zero (exit_status 1) = false ∧
  _submit_job "qsub" "TEST" parse_job 3 "/sbx/t.0003.xyz"
    (mkProcess (exit_status 1) "JOB 42") (mkWorld [] [])
  = (mkWorld ["/sbx/t.0003.xyz/WMSID.TEST.42"%string] [warning_failed "qsub"],
     (3, Some "WMSID.TEST.42"%string,
      {[ "sandbox"%string := "/sbx/t.0003.xyz"%string ]})) ∧
  (_submit_job "qsub" "TEST" parse_job 3 "/sbx/t.0003.xyz"
     (mkProcess (exit_status 1) "JOB 42") (mkWorld [] [])).2
  ≠ (3, None, {[ "sandbox"%string := "/sbx/t.0003.xyz"%string ]}) ∧
  _submit_job "qsub" "TEST" parse_job 3 "/sbx/t.0003.xyz"
    (mkProcess (exit_status 1) "no output") (mkWorld [] [])
  = (mkWorld []
       [warning_failed "qsub";
        log_process (mkProcess (exit_status 1) "no output")],
     (3, None, {[ "sandbox"%string := "/sbx/t.0003.xyz"%string ]})) ∧
  _submit_job "qsub" "TEST" parse_job 3 "/sbx/t.0003.xyz"
    (mkProcess (exit_status 0) "no output") (mkWorld [] [])
  = (mkWorld []
       [warning_no_job_id "qsub" "no output";
        log_process (mkProcess (exit_status 0) "no output")],
     (3, None, {[ "sandbox"%string := "/sbx/t.0003.xyz"%string ]})).
Proof.
  split; [reflexivity |]. split; [reflexivity |].
  split; [| split; reflexivity].
  intros H. cbn in H. discriminate H.
Qed.

Lemma C8_local_autodetect_witness :
  Local_new string string Ok (λ wms _, Ok wms) only_bsub ""
  = (["sacct"; "sgepasswd"; "pbs-config"; "qsub"; "bsub"]%string,
     Ok (Some "LSF"%string)).
Proof.
  destruct (C8_local_autodetect string string Ok (λ wms _, Ok wms) only_bsub)
    as (_ & Hfirst & _).
  apply (Hfirst
           [("sacct", "SLURM"); ("sgepasswd", "OGE"); ("pbs-config", "PBS");
            ("qsub", "OGE")]%string
           "bsub"%string "LSF"%string [("job_slurm", "JMS")]%string).
  - reflexivity.
  - repeat constructor; eexists; reflexivity.
  - eexists. reflexivity.
Defined.

End wms_local_examples.

(** ** Further properties of parameter sources *)

Module psource_translate_properties.
Import psource_meta psource_translate psource_construction psource_content.

Section with_sources.

Variable result : Type.
Variable null_len : option Z.

Abbreviation psrc := (ParameterSource result).
Abbreviation strip := (_strip_null_sources result).
Abbreviation len := (get_parameter_len result null_len).
Abbreviation fill := (fill_parameter_content result).

(** *** Chains: offsets and translated indices *)

Lemma res_mapM_ok {E A B} (f : A → res E B) (g : A → B) (l : list A) :
  (∀ x, x ∈ l → f x = Ok (g x)) → res_mapM f l = Ok (map g l).
Proof.
  induction l as [|x l IH]; intros Hf; [done |].
  cbn [res_mapM map]. rewrite (Hf x) by (by left).
  cbn. rewrite IH by (intros y Hy; apply Hf; by right). done.
Qed.

Lemma sum_take_finite (lens : list Z) (i : nat) :
  sum (take i (map Some lens)) = Ok (Zsum (take i lens)).
Proof.
  change (map Some lens) with (Some <$> lens). rewrite <- fmap_take.
  apply sum_finite.
Qed.

Lemma offset_list_finite {A} (kids : list A) (lens : list Z) :
  _offset_list kids (map Some lens)
  = Ok (map (λ i, Zsum (take i lens)) (seq 0 (length kids))).
Proof.
  unfold _offset_list. apply res_mapM_ok.
  intros i _. apply sum_take_finite.
Qed.

Lemma chain_content_at (f : psrc → Z → result → res exn result) (r : result)
    (c : psrc) (n q : Z) :
  0 ≤ q < n →
  ∀ (idx : nat) (kids : list psrc) (lens : list Z) (limit : Z),
    kids !! idx = Some c →
    lens !! idx = Some n →
    Forall (λ k, 0 ≤ k) (take idx lens) →
    chain_content result f (limit + Zsum (take idx lens) + q) kids
      (map Some lens) limit r
    = f c q r.
Proof.
  intros Hq. induction idx as [|idx IH]; intros kids lens limit Hc Hn Hpos.
  - destruct kids as [|c' kids]; [done |].
    destruct lens as [|n' lens]; [done |].
    cbn in Hc, Hn. injection Hc as ->. injection Hn as ->.
    cbn [take map chain_content]. cbn [Zsum foldr].
    destruct (Z.ltb_spec (limit + 0 + q) (limit + n)); [| lia].
    f_equal. lia.
  - destruct kids as [|c' kids]; [done |].
    destruct lens as [|n' lens]; [done |].
    cbn in Hc, Hn. cbn [take] in Hpos |- *.
    apply Forall_cons_1 in Hpos as [Hn' Hpos].
    pose proof (Zsum_nonneg _ Hpos) as Hsum.
    cbn [map chain_content]. rewrite Zsum_cons.
    destruct (Z.ltb_spec (limit + (n' + Zsum (take idx lens)) + q)
                (limit + n')); [lia |].
    replace (limit + (n' + Zsum (take idx lens)) + q)
      with ((limit + n') + Zsum (take idx lens) + q) by lia.
    by apply IH.
Qed.

Lemma Zsum_take_le (lens : list Z) (idx : nat) (n : Z) :
  Forall (λ k, 0 ≤ k) lens →
  lens !! idx = Some n →
  Zsum (take idx lens) + n ≤ Zsum lens.
Proof.
  intros Hpos. revert idx.
  induction Hpos as [|k lens Hk Hpos IH]; intros idx Hn; [done |].
  destruct idx as [|idx]; cbn in Hn.
  - injection Hn as ->. cbn [take]. rewrite Zsum_cons.
    pose proof (Zsum_nonneg _ Hpos). cbn. lia.
  - cbn [take]. rewrite !Zsum_cons. specialize (IH idx Hn). lia.
Qed.

(** X1: in a chain whose children have lengths that are not negative,
    [_translate_pnum] maps index [q] of child [idx] to [q] plus the sum of
    the lengths of the children before it; that index lies within the
    chain, and filling the chain there fills exactly that child at [q]. *)
Theorem X1_chain_translate_fill (kids : list psrc) (lens : list Z)
    (m : option Z) (idx : nat) (c : psrc) (n q : Z) (r : result) :
  Forall (λ k, 0 ≤ k) lens →
  kids !! idx = Some c →
  lens !! idx = Some n →
  0 ≤ q < n →
  ∃ offset_list,
    _offset_list kids (map Some lens) = Ok offset_list ∧
    Chain_translate_pnum offset_list idx q
    = Ok [q + Zsum (take idx lens)] ∧
    0 ≤ q + Zsum (take idx lens) < Zsum lens ∧
    fill (Multi result ChainParameterSource kids (map Some lens) m)
      (q + Zsum (take idx lens)) r
    = fill c q r.
Proof.
  intros Hpos Hc Hn Hq.
  eexists. split; [apply offset_list_finite |].
  assert (Hidx : (idx < length kids)%nat) by (by eapply lookup_lt_Some).
  split; [| split].
  - unfold Chain_translate_pnum.
    change (map ?f ?l) with (f <$> l).
    rewrite list_lookup_fmap.
    rewrite (lookup_seq_lt 0 (length kids) idx Hidx). reflexivity.
  - pose proof (Zsum_take_le lens idx n Hpos Hn).
    assert (0 ≤ Zsum (take idx lens)).
    { apply Zsum_nonneg. by apply Forall_take. }
    lia.
  - cbn [fill_parameter_content].
    replace (q + Zsum (take idx lens)) with (0 + Zsum (take idx lens) + q)
      by lia.
    apply (chain_content_at _ r c n q Hq idx kids lens 0 Hc Hn).
    by apply Forall_take.
Qed.

(** *** Repeat *)

Lemma seqZ_bounds (m len x : Z) : x ∈ seqZ m len → m ≤ x < m + len.
Proof. intros H. apply elem_of_seqZ in H. lia. Qed.

(** X2: a repeat of a source of length [n > 0] has length [times * n] and
    fills the source at [p mod n]; [_translate_pnum] maps index [q] of the
    source to [times] indices of the repeat, each within its range, and
    filling the repeat at any of them fills the source at [q]. *)
Theorem X2_repeat_translate_fill (s : psrc) (times n q : Z) (r : result) :
  len s = Some n →
  0 < n →
  0 ≤ q < n →
  len (RepeatParameterSource_init result null_len s times)
  = Some (times * n) ∧
  (∀ p, fill (RepeatParameterSource_init result null_len s times) p r
        = fill s (p mod n) r) ∧
  ∃ xs, Repeat_translate_pnum times (Some n) q = Ok xs ∧
        length xs = Z.to_nat times ∧
        ∀ x, x ∈ xs →
          0 ≤ x < times * n ∧
          fill (RepeatParameterSource_init result null_len s times) x r
          = fill s q r.
Proof.
  intros Hs Hn Hq. unfold RepeatParameterSource_init. rewrite Hs.
  assert (Hfill : ∀ p, fill (Repeat result s times (Some n) (Some (times * n)))
                         p r = fill s (p mod n) r).
  { intros p. cbn [fill_parameter_content].
    by destruct (Z.eqb_spec n 0); [lia |]. }
  split; [done |]. split; [done |].
  exists (map (λ i, q + i * n) (seqZ 0 times)). split; [| split].
  - unfold Repeat_translate_pnum. by apply res_mapM_ok.
  - by rewrite List.length_map, length_seqZ.
  - intros x Hx. change (map ?f ?l) with (f <$> l) in Hx.
    apply list_elem_of_fmap in Hx as (i & -> & Hi).
    apply seqZ_bounds in Hi. split; [nia |].
    rewrite Hfill. f_equal.
    rewrite Z.mod_add by lia. apply Z.mod_small. lia.
Qed.

(** *** Zip *)

Lemma zip_content_all (f : psrc → Z → result → res exn result) (p : Z)
    (kids : list psrc) :
  ∀ (lens : list Z) (r : result),
    length kids = length lens →
    Forall (λ n, p < n) lens →
    zip_content result f p kids (map Some lens) r
    = (fix each (l : list psrc) (r : result) : res exn result :=
         match l with
         | [] => Ok r
         | c :: l' => r' ← f c p r; each l' r'
         end) kids r.
Proof.
  induction kids as [|c kids IH]; intros lens r Hlen Hp; [done |].
  destruct lens as [|n lens]; [done |].
  injection Hlen as Hlen. apply Forall_cons_1 in Hp as [Hn Hp].
  cbn [map zip_content].
  destruct (Z.ltb_spec p n); [| lia].
  apply res_bind_ext. intros r'. by apply IH.
Qed.

Lemma zip_content_none (f : psrc → Z → result → res exn result) (p : Z)
    (kids : list psrc) :
  ∀ (lens : list Z) (r : result),
    Forall (λ n, n ≤ p) lens →
    zip_content result f p kids (map Some lens) r = Ok r.
Proof.
  induction kids as [|c kids IH]; intros lens r Hp; [done |].
  destruct lens as [|n lens]; [done |].
  apply Forall_cons_1 in Hp as [Hn Hp].
  cbn [map zip_content].
  destruct (Z.ltb_spec p n); [lia |]. by apply IH.
Qed.

Lemma fold_left_min_le (lens : list Z) (a : Z) :
  fold_left Z.min lens a ≤ a ∧
  Forall (λ n, fold_left Z.min lens a ≤ n) lens ∧
  (fold_left Z.min lens a = a ∨ fold_left Z.min lens a ∈ lens).
Proof.
  revert a. induction lens as [|n lens IH]; intros a; cbn [fold_left].
  - split; [lia |]. split; [constructor | by left].
  - destruct (IH (Z.min a n)) as (Hle & Hall & Hin).
    split; [lia |]. split; [constructor; [lia | done] |].
    destruct Hin as [Heq|Hin]; [| right; by right].
    destruct (Z.min_spec a n) as [[_ Hm]|[_ Hm]].
    + left. congruence.
    + right. rewrite Heq, Hm. by left.
Qed.

Lemma fold_left_max_ge (lens : list Z) (a : Z) :
  a ≤ fold_left Z.max lens a ∧
  Forall (λ n, n ≤ fold_left Z.max lens a) lens ∧
  (fold_left Z.max lens a = a ∨ fold_left Z.max lens a ∈ lens).
Proof.
  revert a. induction lens as [|n lens IH]; intros a; cbn [fold_left].
  - split; [lia |]. split; [constructor | by left].
  - destruct (IH (Z.max a n)) as (Hle & Hall & Hin).
    split; [lia |]. split; [constructor; [lia | done] |].
    destruct Hin as [Heq|Hin]; [| right; by right].
    destruct (Z.max_spec a n) as [[_ Hm]|[_ Hm]].
    + right. rewrite Heq, Hm. by left.
    + left. congruence.
Qed.

Lemma fill_each_unfold (kids : list psrc) (p : Z) (r : result) :
  (fix each (l : list psrc) (r : result) : res exn result :=
     match l with
     | [] => Ok r
     | c :: l' => r' ← fill c p r; each l' r'
     end) kids r
  = fill_each result kids p r.
Proof.
  revert r. induction kids as [|c kids IH]; intros r; [done |].
  cbn [fill_each]. apply res_bind_ext. intros r'. apply IH.
Qed.

(** X3: a zip-short source built over children that all have a length
    takes the smallest of these lengths, and filling it at any index below
    its length fills every child at that index, in order. *)
Theorem X3_zip_short_fills_all (l : list psrc) (c : psrc) (lens : list Z)
    (p : Z) (r : result) :
  nested_init result null_len ZipShortParameterSource l = Ok c →
  map len (strip (_simplify_nested_sources result ZipShortParameterSource l))
  = map Some lens →
  lens ≠ [] →
  ∃ m, len c = Some m ∧
       m ∈ lens ∧
       Forall (λ n, m ≤ n) lens ∧
       (p < m →
        fill c p r
        = fill_each result
            (strip (_simplify_nested_sources result ZipShortParameterSource l))
            p r).
Proof.
  intros Hinit Hlens Hne.
  unfold nested_init, MultiParameterSource_init in Hinit.
  rewrite Hlens in Hinit. cbn [_init_psrc_max] in Hinit.
  rewrite not_None_Some in Hinit. cbn in Hinit. injection Hinit as <-.
  destruct lens as [|a lens]; [done |]. cbn [reduce].
  destruct (fold_left_min_le lens a) as (Hle & Hall & Hin).
  exists (fold_left Z.min lens a). split; [done |].
  split; [destruct Hin as [-> | Hin]; [by left | by right] |].
  split; [by constructor |].
  intros Hp. cbn [fill_parameter_content].
  rewrite zip_content_all.
  - apply fill_each_unfold.
  - rewrite <- (List.length_map len), Hlens. apply List.length_map.
  - constructor; [lia |]. eapply Forall_impl; [exact Hall |].
    intros n Hn. cbn in Hn. lia.
Qed.

(** X4: a zip-long source built over children that all have a length
    takes the largest of these lengths, and filling it at an index at or
    beyond its length fills no child and returns the result as given. *)
Theorem X4_zip_long_past_end (l : list psrc) (c : psrc) (lens : list Z)
    (p : Z) (r : result) :
  nested_init result null_len ZipLongParameterSource l = Ok c →
  map len (strip (_simplify_nested_sources result ZipLongParameterSource l))
  = map Some lens →
  lens ≠ [] →
  ∃ m, len c = Some m ∧
       m ∈ lens ∧
       Forall (λ n, n ≤ m) lens ∧
       (m ≤ p → fill c p r = Ok r).
Proof.
  intros Hinit Hlens Hne.
  unfold nested_init, MultiParameterSource_init in Hinit.
  rewrite Hlens in Hinit. cbn [_init_psrc_max] in Hinit.
  rewrite not_None_Some in Hinit. cbn in Hinit. injection Hinit as <-.
  destruct lens as [|a lens]; [done |]. cbn [reduce].
  destruct (fold_left_max_ge lens a) as (Hle & Hall & Hin).
  exists (fold_left Z.max lens a). split; [done |].
  split; [destruct Hin as [-> | Hin]; [by left | by right] |].
  split; [by constructor |].
  intros Hp. cbn [fill_parameter_content].
  apply zip_content_none.
  constructor; [lia |]. eapply Forall_impl; [exact Hall |].
  intros n Hn. cbn in Hn. lia.
Qed.

End with_sources.
End psource_translate_properties.

Module psource_translate_examples.
Import psource_meta psource_translate examples psource_translate_properties.

Lemma X1_chain_translate_fill_witness :
  new_chain writes null_len [var "A" 2; var "B" 3]
  = Ok (Multi writes ChainParameterSource [var "A" 2; var "B" 3]
          [Some 2; Some 3] (Some 5)) ∧
  ∃ offset_list,
    _offset_list [var "A" 2; var "B" 3] [Some 2; Some 3] = Ok offset_list ∧
    Chain_translate_pnum offset_list 1 1 = Ok [3] ∧
    fill_parameter_content writes
      (Multi writes ChainParameterSource [var "A" 2; var "B" 3]
         [Some 2; Some 3] (Some 5)) 3 []
    = Ok [("B"%string, 1)].
Proof.
  split; [reflexivity |].
  destruct (X1_chain_translate_fill writes [var "A" 2; var "B" 3] [2; 3]
              (Some 5) 1%nat (var "B" 3) 3 1 [])
    as (offset_list & Hoff & Htr & _ & Hfill).
  - repeat constructor; lia.
  - reflexivity.
  - reflexivity.
  - lia.
  - exists offset_list. split; [exact Hoff |]. split; [exact Htr |].
    exact Hfill.
Defined.

Lemma X2_repeat_translate_fill_witness :
  new_repeat writes null_len (var "A" 3) 2
  = RepeatParameterSource_init writes null_len (var "A" 3) 2 ∧
  get_parameter_len writes null_len
    (RepeatParameterSource_init writes null_len (var "A" 3) 2) = Some 6 ∧
  ∃ xs, Repeat_translate_pnum 2 (Some 3) 1 = Ok xs ∧
        length xs = 2%nat ∧
        ∀ x, x ∈ xs →
          0 ≤ x < 6 ∧
          fill_parameter_content writes
            (RepeatParameterSource_init writes null_len (var "A" 3) 2) x []
          = Ok [("A"%string, 1)].
Proof.
  split; [reflexivity |].
  destruct (X2_repeat_translate_fill writes null_len (var "A" 3) 2 3 1 [])
    as (Hlen & _ & xs & Hxs & Hn & Hall).
  - reflexivity.
  - lia.
  - lia.
  - split; [exact Hlen |]. exists xs. split; [exact Hxs |].
    split; [exact Hn |]. exact Hall.
Defined.

Lemma X3_zip_short_fills_all_witness :
  ∃ c, new_zip writes null_len ZipShortParameterSource
         [var "A" 2; var "B" 3] = Ok c ∧
       get_parameter_len writes null_len c = Some 2 ∧
       fill_parameter_content writes c 1 []
       = Ok [("A"%string, 1); ("B"%string, 1)].
Proof.
  eexists.
  destruct (X3_zip_short_fills_all writes null_len [var "A" 2; var "B" 3]
              _ [2; 3] 1 [] eq_refl eq_refl) as (m & Hlen & _ & _ & Hfill).
  - discriminate.
  - injection Hlen as <-.
    split; [reflexivity |]. split; [reflexivity |]. apply Hfill. lia.
Defined.

Lemma X4_zip_long_past_end_witness :
  ∃ c, new_zip writes null_len ZipLongParameterSource
         [var "A" 2; var "B" 3] = Ok c ∧
       get_parameter_len writes null_len c = Some 3 ∧
       fill_parameter_content writes c 3 [] = Ok [].
Proof.
  eexists.
  destruct (X4_zip_long_past_end writes null_len [var "A" 2; var "B" 3]
              _ [2; 3] 3 [] eq_refl eq_refl) as (m & Hlen & _ & _ & Hfill).
  - discriminate.
  - injection Hlen as <-.
    split; [reflexivity |]. split; [reflexivity |]. apply Hfill. lia.
Defined.

End psource_translate_examples.

(** ** Ranges and the resync of zips *)

Module psource_resync_properties.
Import psource_meta psource_translate psource_construction psource_content.

Section with_sources.

Variable result : Type.
Variable null_len : option Z.

Abbreviation psrc := (ParameterSource result).
Abbreviation len := (get_parameter_len result null_len).
Abbreviation fill := (fill_parameter_content result).
Abbreviation range := (RangeParameterSource result null_len).

(** X5: a range without an end over a source of length [n] drops the
    first [pos_start] points of the source, and ranges without an end
    compose: [range(range(s, a), c)] has the length and the content of
    [range(s, a + c)]. *)
Theorem X5_range_compose (s : psrc) (n a c : Z) :
  len s = Some n →
  ∃ R1 R2 R,
    range s (Some a) None = Ok R1 ∧
    range R1 (Some c) None = Ok R2 ∧
    range s (Some (a + c)) None = Ok R ∧
    len R1 = Some (n - a) ∧
    len R2 = Some (n - a - c) ∧
    len R = Some (n - a - c) ∧
    ∀ p r, fill R1 p r = fill s (p + a) r ∧ fill R2 p r = fill R p r.
Proof.
  intros Hs. unfold RangeParameterSource, _get_pos_end. rewrite Hs. cbn.
  eexists _, _, _. split; [reflexivity |].
  cbn. split; [reflexivity |]. split; [reflexivity |].
  split; [f_equal; lia |].
  split; [cbn; f_equal; lia |]. split; [cbn; f_equal; lia |].
  intros p r. split; [reflexivity |]. cbn. f_equal. lia.
Qed.

Lemma Range_translate_spec (pos_start pos_end : Z) (source : gset Z) (x : Z) :
  x ∈ Range_translate pos_start pos_end source ↔
  x + pos_start ∈ source ∧ 0 ≤ x ≤ pos_end - pos_start.
Proof.
  unfold Range_translate. rewrite elem_of_map. split.
  - intros (pnum & -> & Hin). apply elem_of_filter in Hin as [[? ?] Hin].
    replace (pnum - pos_start + pos_start) with pnum by lia.
    split; [done | lia].
  - intros (Hin & Hx).
    exists (x + pos_start). split; [lia |].
    apply elem_of_filter. split; [lia | done].
Qed.

(** X6: the resync of a range, after the resync of its source, raises
    [TypeError] when the range has no end of its own and the source has
    become unbounded.  Otherwise it returns, with the end of the range
    read again from the source, and it reports the indices reported by the
    source that lie between the start of the range and the end the range
    had before the call, shifted by the start: each of them lies within
    the length the range had before the call, so an index beyond that
    length is not reported, also when the range has grown to hold it.  The
    size is reported as changed exactly when the end has changed, and
    filling the range that is left at [x] fills the source at
    [x + pos_start]. *)
Theorem X6_range_resync_indices (s s' : psrc) (pos_start : Z)
    (pos_end_user : option Z) (pos_end : Z)
    (psrc_redo psrc_disable : gset Z) (psrc_size : bool) :
  (pos_end_user = None → len s' = None →
   Range_resync_psrc result null_len pos_start pos_end_user pos_end s'
     (psrc_redo, psrc_disable, psrc_size) = Raise TypeError) ∧
  (∀ pos_end', _get_pos_end result null_len s' pos_end_user = Ok pos_end' →
   ∃ redo disable,
     Range_resync_psrc result null_len pos_start pos_end_user pos_end s'
       (psrc_redo, psrc_disable, psrc_size)
     = Ok (Range result s' pos_start pos_end_user pos_end',
           (redo, disable, negb (bool_decide (pos_end = pos_end')))) ∧
     (∀ x, x ∈ redo ↔
           x + pos_start ∈ psrc_redo ∧
           ∃ n, len (Range result s pos_start pos_end_user pos_end) = Some n ∧
                0 ≤ x < n) ∧
     (∀ x, x ∈ disable ↔
           x + pos_start ∈ psrc_disable ∧
           ∃ n, len (Range result s pos_start pos_end_user pos_end) = Some n ∧
                0 ≤ x < n) ∧
     len (Range result s' pos_start pos_end_user pos_end')
     = Some (pos_end' - pos_start + 1) ∧
     ∀ x r, fill (Range result s' pos_start pos_end_user pos_end') x r
            = fill s' (x + pos_start) r).
Proof.
  assert (Hin : ∀ (source : gset Z) x,
            x ∈ (∅ : gset Z) ∪ Range_translate pos_start pos_end source ↔
            x + pos_start ∈ source ∧
            ∃ n, len (Range result s pos_start pos_end_user pos_end) = Some n ∧
                 0 ≤ x < n).
  { intros source x. rewrite elem_of_union, Range_translate_spec.
    cbn [get_parameter_len]. split.
    - intros [Hx | [Hx Hr]]; [by apply elem_of_empty in Hx |].
      split; [done |]. eexists. split; [reflexivity | lia].
    - intros (Hx & n & [= <-] & Hr). right. split; [done | lia]. }
  unfold Range_resync_psrc. cbn [get_empty_resync_result].
  split.
  - intros -> Hs. unfold _get_pos_end. by rewrite Hs.
  - intros pos_end' ->. cbn [mbind].
    eexists _, _. split; [reflexivity |].
    split; [apply Hin |]. split; [apply Hin |].
    split; reflexivity.
Qed.

End with_sources.

(** *** The resync of zips *)

Lemma combine_fold_redo (l : list resync_result) (init : resync_result) (x : Z) :
  x ∈ (fold_left _combine_resync_result l init).1.1 ↔
  x ∈ init.1.1 ∨ ∃ a, a ∈ l ∧ x ∈ a.1.1.
Proof.
  revert init. induction l as [|b l IH]; intros init; cbn [fold_left].
  - split; [by left |]. intros [? | (a & Ha & _)]; [done |].
    by apply elem_of_nil in Ha.
  - rewrite IH. cbn. rewrite elem_of_union. split.
    + intros [[? | ?] | (a & Ha & Hx)].
      * by left.
      * right. exists b. split; [by left | done].
      * right. exists a. split; [by right | done].
    + intros [? | (a & Ha & Hx)]; [by left; left |].
      apply elem_of_cons in Ha as [-> | Ha]; [by left; right |].
      right. by exists a.
Qed.

Lemma combine_fold_disable (l : list resync_result) (init : resync_result)
    (x : Z) :
  x ∈ (fold_left _combine_resync_result l init).1.2 ↔
  x ∈ init.1.2 ∨ ∃ a, a ∈ l ∧ x ∈ a.1.2.
Proof.
  revert init. induction l as [|b l IH]; intros init; cbn [fold_left].
  - split; [by left |]. intros [? | (a & Ha & _)]; [done |].
    by apply elem_of_nil in Ha.
  - rewrite IH. cbn. rewrite elem_of_union. split.
    + intros [[? | ?] | (a & Ha & Hx)].
      * by left.
      * right. exists b. split; [by left | done].
      * right. exists a. split; [by right | done].
    + intros [? | (a & Ha & Hx)]; [by left; left |].
      apply elem_of_cons in Ha as [-> | Ha]; [by left; right |].
      right. by exists a.
Qed.

(** X7: the resync of a zip reports exactly the indices some child
    reported, for redo and for disable alike; its size-change flag compares
    its own length before and after and ignores the flags of the children;
    and the order of the children does not matter. *)
Theorem X7_zip_resync_union (l : list resync_result) (old new : option Z) :
  (∀ x, x ∈ (BaseZip_resync_psrc l old new).1.1 ↔ ∃ a, a ∈ l ∧ x ∈ a.1.1) ∧
  (∀ x, x ∈ (BaseZip_resync_psrc l old new).1.2 ↔ ∃ a, a ∈ l ∧ x ∈ a.1.2) ∧
  ((BaseZip_resync_psrc l old new).2 = true ↔ old ≠ new) ∧
  ∀ l', l ≡ₚ l' →
        BaseZip_resync_psrc l' old new = BaseZip_resync_psrc l old new.
Proof.
  assert (Hredo : ∀ l x, x ∈ (BaseZip_resync_psrc l old new).1.1 ↔
                         ∃ a, a ∈ l ∧ x ∈ a.1.1).
  { intros l0 x. unfold BaseZip_resync_psrc. cbn. rewrite combine_fold_redo.
    cbn. split; [intros [H | H]; [by apply elem_of_empty in H | done] |].
    by right. }
  assert (Hdis : ∀ l x, x ∈ (BaseZip_resync_psrc l old new).1.2 ↔
                        ∃ a, a ∈ l ∧ x ∈ a.1.2).
  { intros l0 x. unfold BaseZip_resync_psrc. cbn.
    rewrite combine_fold_disable.
    cbn. split; [intros [H | H]; [by apply elem_of_empty in H | done] |].
    by right. }
  split; [apply Hredo |]. split; [apply Hdis |]. split.
  - unfold BaseZip_resync_psrc. cbn. rewrite negb_true_iff.
    by rewrite bool_decide_eq_false.
  - intros l' Hperm.
    assert (H1 : (BaseZip_resync_psrc l' old new).1.1
                 = (BaseZip_resync_psrc l old new).1.1).
    { apply set_eq. intros x. rewrite !Hredo.
      by setoid_rewrite Hperm. }
    assert (H2 : (BaseZip_resync_psrc l' old new).1.2
                 = (BaseZip_resync_psrc l old new).1.2).
    { apply set_eq. intros x. rewrite !Hdis.
      by setoid_rewrite Hperm. }
    unfold BaseZip_resync_psrc in *. cbn in *. by rewrite H1, H2.
Qed.

End psource_resync_properties.

Module psource_resync_examples.
Import psource_meta psource_translate examples psource_resync_properties.

Lemma X5_range_compose_witness :
  ∃ R1 R2 R,
    RangeParameterSource writes null_len (var "A" 5) (Some 1) None = Ok R1 ∧
    RangeParameterSource writes null_len R1 (Some 2) None = Ok R2 ∧
    RangeParameterSource writes null_len (var "A" 5) (Some 3) None = Ok R ∧
    get_parameter_len writes null_len R2 = Some 2 ∧
    fill_parameter_content writes R2 0 [] = Ok [("A"%string, 3)] ∧
    fill_parameter_content writes R2 0 []
    = fill_parameter_content writes R 0 [].
Proof.
  destruct (X5_range_compose writes null_len (var "A" 5) 5 1 2 eq_refl)
    as (R1 & R2 & R & H1 & H2 & H3 & _ & Hlen & _ & Hfill).
  exists R1, R2, R. split; [exact H1 |]. split; [exact H2 |].
  split; [exact H3 |]. split; [exact Hlen |].
  injection H1 as <-. injection H2 as <-.
  split; [reflexivity |]. apply Hfill.
Defined.

(** The source of [range(A, 0)] has grown from five points to eight and
    reports the new points 5, 6 and 7: the range now has eight points and
    says that its size changed, and it reports none of them. *)
Lemma X6_range_resync_indices_witness :
  ∃ redo disable,
    Range_resync_psrc writes null_len 0 None 4 (var "A" 8)
      ({[5; 6; 7]}, ∅, true)
    = Ok (Range writes (var "A" 8) 0 None 7, (redo, disable, true)) ∧
    (5 ∉ redo) ∧ (6 ∉ redo) ∧ (7 ∉ redo) ∧
    get_parameter_len writes null_len (Range writes (var "A" 8) 0 None 7)
    = Some 8.
Proof.
  destruct (X6_range_resync_indices writes null_len (var "A" 5) (var "A" 8)
              0 None 4 {[5; 6; 7]} ∅ true) as [_ H].
  destruct (H 7) as (redo & disable & Hcall & Hredo & _ & Hlen & _);
    [reflexivity |].
  exists redo, disable. split; [exact Hcall |].
  assert (Hout : ∀ x, 5 ≤ x → x ∉ redo).
  { intros x Hx Hin. apply Hredo in Hin as (_ & n & Hn & Hr).
    injection Hn as <-. lia. }
  split; [apply Hout; lia |]. split; [apply Hout; lia |].
  split; [apply Hout; lia | exact Hlen].
Defined.

End psource_resync_examples.

(** ** Crosses over any number of sources *)

Module psource_cross_properties.
Import psource_meta psource_translate psource_construction psource_content.

Lemma cross_indices_scale (lens : list Z) :
  Forall (λ n, 0 < n) lens →
  ∀ p g, 0 < g → cross_indices p g lens = cross_indices (p / g) 1 lens.
Proof.
  induction 1 as [|n lens Hn _ IH]; intros p g Hg; [done |].
  cbn [cross_indices]. rewrite Z.div_1_r. f_equal.
  rewrite (IH p (g * n)) by lia. rewrite (IH (p / g) (1 * n)) by lia.
  f_equal. rewrite Z.div_div by lia. f_equal. lia.
Qed.

Lemma cross_indices_cons (p n : Z) (lens : list Z) :
  0 < n →
  Forall (λ n, 0 < n) lens →
  cross_indices p 1 (n :: lens) = p mod n :: cross_indices (p / n) 1 lens.
Proof.
  intros Hn Hlens. cbn [cross_indices]. rewrite Z.div_1_r. f_equal.
  rewrite cross_indices_scale by (done || lia). f_equal. f_equal. lia.
Qed.

Lemma cross_indices_bounds (lens : list Z) :
  Forall (λ n, 0 < n) lens →
  ∀ p g, Forall2 (λ i n, 0 ≤ i < n) (cross_indices p g lens) lens.
Proof.
  induction 1 as [|n lens Hn _ IH]; intros p g; cbn [cross_indices].
  - constructor.
  - constructor; [by apply Z.mod_pos_bound | apply IH].
Qed.

Lemma cross_pnum_bounds (idxs lens : list Z) :
  Forall2 (λ i n, 0 ≤ i < n) idxs lens →
  0 ≤ cross_pnum idxs lens < Zprod lens.
Proof.
  induction 1 as [|i n idxs lens Hi _ IH]; [cbn; lia |].
  cbn [cross_pnum]. rewrite Zprod_cons. nia.
Qed.

Lemma cross_indices_pnum (idxs lens : list Z) :
  Forall2 (λ i n, 0 ≤ i < n) idxs lens →
  cross_indices (cross_pnum idxs lens) 1 lens = idxs.
Proof.
  induction 1 as [|i n idxs lens Hi Hrest IH]; [done |].
  assert (Hpos : Forall (λ n, 0 < n) lens).
  { clear -Hrest. induction Hrest; constructor; [lia | done]. }
  rewrite cross_indices_cons by (lia || done).
  cbn [cross_pnum].
  replace (i + n * cross_pnum idxs lens)
    with (i + cross_pnum idxs lens * n) by lia.
  rewrite Z.mod_add, Z.div_add by lia.
  rewrite Z.mod_small, Z.div_small by lia.
  by rewrite Z.add_0_l, IH.
Qed.

Lemma cross_pnum_indices (lens : list Z) :
  Forall (λ n, 0 < n) lens →
  ∀ p, 0 ≤ p < Zprod lens → cross_pnum (cross_indices p 1 lens) lens = p.
Proof.
  induction 1 as [|n lens Hn Hlens IH]; intros p Hp.
  - cbn in *. lia.
  - rewrite cross_indices_cons by done. cbn [cross_pnum].
    rewrite Zprod_cons in Hp.
    rewrite IH.
    + pose proof (Z.div_mod p n). lia.
    + split; [apply Z.div_pos; lia |].
      apply Z.div_lt_upper_bound; lia.
Qed.

Section with_sources.

Variable result : Type.
Variable null_len : option Z.

Abbreviation psrc := (ParameterSource result).
Abbreviation len := (get_parameter_len result null_len).
Abbreviation fill := (fill_parameter_content result).

Lemma cross_content_indices (p : Z) (lens : list Z) :
  Forall (λ n, 0 < n) lens →
  ∀ (kids : list psrc) (g : Z) (r : result),
    cross_content result fill p kids (_psrc_info_list (map Some lens) g) r
    = fill_at result kids (cross_indices p g lens) r.
Proof.
  induction 1 as [|n lens Hn _ IH]; intros kids g r.
  - by destruct kids.
  - destruct kids as [|c kids]; [done |].
    cbn [map _psrc_info_list cross_content cross_indices fill_at].
    destruct (Z.eqb_spec n 0); [lia |].
    apply res_bind_ext. intros r'. apply IH.
Qed.

(** X8: a cross over sources whose lengths are positive, filled at an
    index that is not negative, fills its children at the digits of the
    index in the mixed radix of their lengths, the first child varying
    fastest; every digit lies within the length of its child; and the
    indices below the product of the lengths correspond one to one to the
    combinations of indices of the children. *)
Theorem X8_cross_enumerates (kids : list psrc) (lens : list Z)
    (m : option Z) (p : Z) (r : result) :
  Forall (λ n, 0 < n) lens →
  0 ≤ p →
  fill (Multi result CrossParameterSource kids (map Some lens) m) p r
  = fill_at result kids (cross_indices p 1 lens) r ∧
  Forall2 (λ i n, 0 ≤ i < n) (cross_indices p 1 lens) lens ∧
  (0 ≤ p < Zprod lens → cross_pnum (cross_indices p 1 lens) lens = p) ∧
  ∀ idxs, Forall2 (λ i n, 0 ≤ i < n) idxs lens →
          0 ≤ cross_pnum idxs lens < Zprod lens ∧
          cross_indices (cross_pnum idxs lens) 1 lens = idxs.
Proof.
  intros Hpos _.
  split; [by apply cross_content_indices |].
  split; [by apply cross_indices_bounds |].
  split; [by apply cross_pnum_indices |].
  intros idxs Hidxs.
  split; [by apply cross_pnum_bounds | by apply cross_indices_pnum].
Qed.

End with_sources.

(** *** Translated indices of a cross *)

Lemma res_filterM_ok {E A} (f : A → res E bool) (g : A → bool) (l : list A) :
  (∀ x, x ∈ l → f x = Ok (g x)) → res_filterM f l = Ok (List.filter g l).
Proof.
  induction l as [|x l IH]; intros Hf; [done |].
  cbn [res_filterM List.filter]. rewrite (Hf x) by (by left).
  cbn. rewrite IH by (intros y Hy; apply Hf; by right). done.
Qed.

Lemma info_list_lookup (lens : list Z) :
  Forall (λ n, 0 < n) lens →
  ∀ (idx : nat) (n g : Z),
    lens !! idx = Some n →
    _psrc_info_list (map Some lens) g !! idx
    = Some (Some n, g * Zprod (take idx lens)).
Proof.
  induction 1 as [|k lens Hk _ IH]; intros idx n g Hn; [done |].
  cbn [map _psrc_info_list].
  destruct (Z.eqb_spec k 0); [lia |].
  destruct idx as [|idx].
  - injection Hn as ->. cbn. do 2 f_equal. lia.
  - change (lens !! idx = Some n) in Hn.
    change (_psrc_info_list (map Some lens) (g * k) !! idx
            = Some (Some n, g * Zprod (k :: take idx lens))).
    rewrite (IH idx n (g * k) Hn). rewrite Zprod_cons. do 2 f_equal. lia.
Qed.

Lemma cross_indices_lookup (lens : list Z) (p : Z) :
  ∀ (idx : nat) (n g : Z),
    lens !! idx = Some n →
    cross_indices p g lens !! idx
    = Some ((p / (g * Zprod (take idx lens))) mod n).
Proof.
  induction lens as [|k lens IH]; intros idx n g Hn; [done |].
  cbn [cross_indices].
  destruct idx as [|idx].
  - injection Hn as ->. cbn. do 3 f_equal. lia.
  - change (lens !! idx = Some n) in Hn.
    change (cross_indices p (g * k) lens !! idx
            = Some ((p / (g * Zprod (k :: take idx lens))) mod n)).
    rewrite (IH idx n (g * k) Hn). rewrite Zprod_cons. do 3 f_equal. lia.
Qed.

(** X9: for a cross over sources whose lengths are positive,
    [_translate_pnum] maps index [q] of child [idx] to exactly the indices
    of the cross, from 0 up to its length, at which that child is filled
    at [q]. *)
Theorem X9_cross_translate (lens : list Z) (idx : nat) (n q : Z) :
  Forall (λ n, 0 < n) lens →
  lens !! idx = Some n →
  ∃ xs,
    Cross_translate_pnum (_psrc_info_list (map Some lens) 1)
      (Some (Zprod lens)) idx q = Ok xs ∧
    ∀ x, x ∈ xs ↔
         0 ≤ x < Zprod lens ∧ cross_indices x 1 lens !! idx = Some q.
Proof.
  intros Hpos Hn. unfold Cross_translate_pnum.
  rewrite (info_list_lookup lens Hpos idx n 1 Hn).
  destruct (Z.eqb_spec n 0) as [-> | Hn0].
  { apply list_elem_of_lookup_2 in Hn. rewrite Forall_forall in Hpos.
    specialize (Hpos 0 Hn). lia. }
  rewrite (res_filterM_ok _
             (λ x, bool_decide
                     ((x / (1 * Zprod (take idx lens))) mod n = q))) by done.
  eexists. split; [reflexivity |].
  intros x. rewrite list_elem_of_In, filter_In, <- list_elem_of_In.
  rewrite elem_of_seqZ, bool_decide_eq_true.
  rewrite (cross_indices_lookup lens x idx n 1 Hn).
  split.
  - intros [Hx <-]. split; [lia | done].
  - intros [Hx [= <-]]. split; [lia | done].
Qed.

End psource_cross_properties.

Module psource_cross_examples.
Import psource_meta psource_translate examples psource_cross_properties.

Lemma X8_cross_enumerates_witness :
  new_cross writes null_len [var "A" 2; var "B" 3; var "C" 2]
  = Ok (Multi writes CrossParameterSource
          [var "A" 2; var "B" 3; var "C" 2] [Some 2; Some 3; Some 2]
          (Some 12)) ∧
  fill_parameter_content writes
    (Multi writes CrossParameterSource
       [var "A" 2; var "B" 3; var "C" 2] [Some 2; Some 3; Some 2]
       (Some 12)) 11 []
  = Ok [("A"%string, 1); ("B"%string, 2); ("C"%string, 1)] ∧
  cross_pnum [1; 2; 1] [2; 3; 2] = 11.
Proof.
  split; [reflexivity |].
  destruct (X8_cross_enumerates writes
              [var "A" 2; var "B" 3; var "C" 2] [2; 3; 2] (Some 12) 11 [])
    as (Hfill & _ & Hp & _).
  - repeat constructor; lia.
  - lia.
  - split; [exact Hfill |]. apply Hp. cbn. lia.
Defined.

Lemma X9_cross_translate_witness :
  ∃ xs, Cross_translate_pnum (_psrc_info_list [Some 2; Some 3; Some 2] 1)
          (Some 12) 1 2 = Ok xs ∧
        (4 ∈ xs ∧ 5 ∈ xs ∧ 10 ∈ xs ∧ 11 ∈ xs ∧ 3 ∉ xs).
Proof.
  destruct (X9_cross_translate [2; 3; 2] 1 3 2) as (xs & Hxs & Hin).
  - repeat constructor; lia.
  - reflexivity.
  - exists xs. split; [exact Hxs |].
    repeat split; try (apply Hin; cbn; split; [lia | reflexivity]).
    intros H3. apply Hin in H3 as [_ H3]. cbn in H3. discriminate.
Defined.

End psource_cross_examples.

(** ** Variations *)

Module psource_variation_properties.
Import psource_meta psource_translate psource_construction psource_content.
Import psource_translate_properties psource_cross_properties.

Lemma cross_indices_ones (p : Z) (k : nat) :
  ∀ g, cross_indices p g (replicate k 1) = replicate k 0.
Proof.
  induction k as [|k IH]; intros g; [done |].
  cbn [replicate cross_indices]. by rewrite Z.mod_1_r, IH.
Qed.

Lemma cross_indices_one_axis (q m : Z) :
  0 ≤ q < m →
  ∀ (k j : nat),
    (j < k)%nat →
    cross_indices q 1 (<[j := m]> (replicate k 1))
    = <[j := q]> (replicate k 0).
Proof.
  intros Hq. induction k as [|k IH]; intros j Hj; [lia |].
  destruct j as [|j]; cbn [replicate].
  - change (cross_indices q 1 (m :: replicate k 1) = q :: replicate k 0).
    cbn [cross_indices]. rewrite Z.div_1_r, Z.mod_small by lia.
    by rewrite cross_indices_ones.
  - change (cross_indices q 1 (1 :: <[j := m]> (replicate k 1))
            = 0 :: <[j := q]> (replicate k 0)).
    cbn [cross_indices]. rewrite Z.mod_1_r, Z.mul_1_l. f_equal. apply IH. lia.
Qed.

Lemma Zprod_one_axis (m : Z) :
  ∀ (k j : nat), (j < k)%nat → Zprod (<[j := m]> (replicate k 1)) = m.
Proof.
  induction k as [|k IH]; intros j Hj; [lia |].
  destruct j as [|j]; cbn [replicate].
  - change (Zprod (m :: replicate k 1) = m). rewrite Zprod_cons.
    assert (Zprod (replicate k 1) = 1) as ->; [| lia].
    clear. induction k as [|k IH]; [done |].
    cbn [replicate]. rewrite Zprod_cons. lia.
  - change (Zprod (1 :: <[j := m]> (replicate k 1)) = m).
    rewrite Zprod_cons, IH by lia. lia.
Qed.

Lemma fold_left_max_ones (k : nat) : fold_left Z.max (replicate k 1) 1 = 1.
Proof. induction k as [|k IH]; [done |]. cbn. exact IH. Qed.

Section with_sources.

Variable result : Type.
Variable null_len : option Z.

Abbreviation psrc := (ParameterSource result).
Abbreviation strip := (_strip_null_sources result).
Abbreviation len := (get_parameter_len result null_len).
Abbreviation fill := (fill_parameter_content result).
Abbreviation central :=
  (map (λ p : ParameterSource result, Range result p 0 (Some 0) 0)).
Abbreviation is_range :=
  (λ p : ParameterSource result, ∃ s a u e, p = Range result s a u e).

Lemma central_ok (kids : list psrc) :
  res_mapM (λ p, RangeParameterSource result null_len p (Some 0) (Some 0)) kids
  = Ok (central kids).
Proof. by apply res_mapM_ok. Qed.

Lemma central_ranges (kids : list psrc) : Forall is_range (central kids).
Proof.
  induction kids as [|p kids IH]; constructor; [| done]. by eexists _, _, _, _.
Qed.

Lemma central_lens (kids : list psrc) :
  map len (central kids) = map Some (replicate (length kids) 1).
Proof.
  induction kids as [|p kids IH]; [done |]. cbn. by rewrite <- IH.
Qed.

Lemma ranges_plain (cls : multi_class) (l : list psrc) :
  Forall is_range l →
  _simplify_nested_sources result cls l = l ∧
  strip l = l ∧
  List.filter (is_finite result null_len) l = l.
Proof.
  unfold _simplify_nested_sources, _strip_null_sources.
  induction 1 as [|p l (s & a & u & e & ->) _ (IH1 & IH2 & IH3)]; [done |].
  cbn. by rewrite IH1, IH2, IH3.
Qed.

Lemma new_zip_central (kids : list psrc) :
  (2 ≤ length kids)%nat →
  new_zip result null_len ZipLongParameterSource (central kids)
  = Ok (Multi result ZipLongParameterSource (central kids)
          (map Some (replicate (length kids) 1)) (Some 1)).
Proof.
  intros Hk.
  destruct (ranges_plain ZipLongParameterSource (central kids)
              (central_ranges kids)) as (Hsimp & Hstrip & _).
  unfold new_zip, MultiParameterSource_new. rewrite Hstrip.
  destruct kids as [|p1 [|p2 kids]]; [cbn in Hk; lia | cbn in Hk; lia |].
  change (central (p1 :: p2 :: kids))
    with (Range result p1 0 (Some 0) 0 :: Range result p2 0 (Some 0) 0
          :: central kids) at 1.
  cbv iota.
  unfold nested_init, MultiParameterSource_init.
  rewrite Hsimp, Hstrip, central_lens.
  cbn [_init_psrc_max]. rewrite not_None_Some.
  cbn [length replicate reduce]. cbn [fold_left].
  change (Z.max (Z.max 1 1) 1) with 1. change (Z.max 1 1) with 1.
  by rewrite fold_left_max_ones.
Qed.

Lemma new_cross_varied (kids : list psrc) (j : nat) (p : psrc) (n : Z) :
  (2 ≤ length kids)%nat →
  (j < length kids)%nat →
  new_cross result null_len
    (<[j := Range result p 1 None (n - 1)]> (central kids))
  = Ok (Multi result CrossParameterSource
          (<[j := Range result p 1 None (n - 1)]> (central kids))
          (map Some (<[j := n - 1]> (replicate (length kids) 1)))
          (Some (n - 1))).
Proof.
  intros Hk Hj.
  assert (Hranges : Forall is_range
            (<[j := Range result p 1 None (n - 1)]> (central kids))).
  { apply Forall_insert; [apply central_ranges | by eexists _, _, _, _]. }
  destruct (ranges_plain CrossParameterSource _ Hranges)
    as (Hsimp & Hstrip & Hfin).
  unfold new_cross, CrossParameterSource_new.
  rewrite Hstrip, Hfin.
  rewrite length_insert, List.length_map.
  destruct (Nat.ltb_spec (length kids) 2); [lia |].
  cbn [mbind res_mbind res_bind].
  unfold nested_init, MultiParameterSource_init.
  rewrite Hsimp, Hstrip.
  assert (Hlens : map len
            (<[j := Range result p 1 None (n - 1)]> (central kids))
          = map Some (<[j := n - 1]> (replicate (length kids) 1))).
  { change (map ?f ?l) with (f <$> l).
    rewrite !list_fmap_insert.
    change (?f <$> ?l) with (map f l).
    rewrite central_lens. cbn [get_parameter_len].
    do 2 f_equal. lia. }
  rewrite Hlens. cbn [_init_psrc_max]. rewrite not_None_Some.
  rewrite reduce_mul_nonempty.
  - by rewrite Zprod_one_axis by (by rewrite length_replicate in * || lia).
  - intros Hnil. apply (f_equal length) in Hnil.
    rewrite length_insert, length_replicate in Hnil. cbn in Hnil. lia.
Qed.

Lemma fill_at_central (kids : list psrc) (r : result) :
  fill_at result (central kids) (replicate (length kids) 0) r
  = fill_at result kids (replicate (length kids) 0) r.
Proof.
  revert r. induction kids as [|c kids IH]; intros r; [done |].
  cbn [map length replicate fill_at fill_parameter_content].
  apply res_bind_ext. intros r'. apply IH.
Qed.

Lemma fill_each_central (kids : list psrc) (r : result) :
  fill_each result (central kids) 0 r = fill_each result kids 0 r.
Proof.
  revert r. induction kids as [|c kids IH]; intros r; [done |].
  cbn [map fill_each fill_parameter_content].
  apply res_bind_ext. intros r'. apply IH.
Qed.

Lemma fill_at_varied (q e : Z) :
  ∀ (kids : list psrc) (j : nat) (p : psrc) (r : result),
    kids !! j = Some p →
    fill_at result (<[j := Range result p 1 None e]> (central kids))
      (<[j := q]> (replicate (length kids) 0)) r
    = fill_at result kids (<[j := q + 1]> (replicate (length kids) 0)) r.
Proof.
  induction kids as [|c kids IH]; intros j p r Hp; [done |].
  destruct j as [|j].
  - injection Hp as ->.
    cbn [map length replicate]. cbn.
    apply res_bind_ext. intros r'. apply fill_at_central.
  - change (kids !! j = Some p) in Hp.
    cbn [map length replicate]. cbn.
    apply res_bind_ext. intros r'. by apply IH.
Qed.

(** The cross in which source [j] runs over its values after the first *)
Lemma cross_varied_fill (kids : list psrc) (j : nat) (p : psrc) (e m q : Z)
    (mm : option Z) (r : result) :
  kids !! j = Some p →
  0 ≤ q < m →
  fill (Multi result CrossParameterSource
          (<[j := Range result p 1 None e]> (central kids))
          (map Some (<[j := m]> (replicate (length kids) 1))) mm) q r
  = fill_at result kids (<[j := q + 1]> (replicate (length kids) 0)) r.
Proof.
  intros Hp Hq.
  assert (Hj : (j < length kids)%nat) by (by eapply lookup_lt_Some).
  cbn [fill_parameter_content].
  rewrite cross_content_indices.
  - rewrite cross_indices_one_axis by done. by apply fill_at_varied.
  - apply Forall_insert; [| lia].
    apply Forall_replicate. lia.
Qed.

Lemma sweep_nonneg (l : list psrc) :
  Forall (λ p, ∀ m, len p = Some m → 1 ≤ m) l →
  0 ≤ Zsum (map (λ p, sweep_len (len p)) l).
Proof.
  induction 1 as [|p l Hp _ IH]; [done |].
  cbn [map]. rewrite Zsum_cons. unfold sweep_len at 1.
  destruct (len p) as [m|]; [specialize (Hp m eq_refl) |]; lia.
Qed.

Lemma variation_loop_spec (kids : list psrc) :
  (2 ≤ length kids)%nat →
  ∀ (rest : list psrc) (j : nat),
    (∀ i p, rest !! i = Some p → kids !! (j + i)%nat = Some p) →
    ∃ vs lensv,
      variation_loop result null_len (central kids) j rest = Ok vs ∧
      map len vs = map Some lensv ∧
      Forall (λ v, is_null result v = false) vs ∧
      Zsum lensv = Zsum (map (λ p, sweep_len (len p)) rest) ∧
      ∀ i p n q limit r,
        rest !! i = Some p →
        len p = Some n →
        0 ≤ q < n - 1 →
        Forall (λ p', ∀ m, len p' = Some m → 1 ≤ m) (take i rest) →
        chain_content result fill
          (limit + Zsum (map (λ p, sweep_len (len p)) (take i rest)) + q)
          vs (map Some lensv) limit r
        = fill_at result kids
            (<[(j + i)%nat := q + 1]> (replicate (length kids) 0)) r.
Proof.
  intros Hk. induction rest as [|p0 rest IH]; intros j Hrest.
  - exists [], []. repeat split; try done; constructor.
  - destruct (IH (S j)) as (vs & lensv & Hloop & Hlens & Hnull & Hsum & Hfill).
    { intros i p Hi. replace (S j + i)%nat with (j + S i)%nat by lia.
      by apply Hrest. }
    assert (Hp0 : kids !! j = Some p0).
    { replace j with (j + 0)%nat by lia. by apply Hrest. }
    assert (Hj : (j < length kids)%nat) by (by eapply lookup_lt_Some).
    cbn [variation_loop].
    destruct (len p0) as [n0|] eqn:Hn0.
    + unfold RangeParameterSource, _get_pos_end. rewrite Hn0.
      cbn [mbind res_mbind res_bind default]. change (id 1) with 1.
      rewrite (new_cross_varied kids j p0 n0 Hk Hj).
      cbn [mbind res_mbind res_bind]. rewrite Hloop.
      cbn [mbind res_mbind res_bind].
      eexists _, (n0 - 1 :: lensv). split; [reflexivity |].
      split; [cbn; by rewrite Hlens |].
      split; [by constructor |].
      split; [cbn [map]; rewrite !Zsum_cons, Hsum, Hn0; reflexivity |].
      intros i p n q limit r Hi Hn Hq Hpos.
      destruct i as [|i].
      * injection Hi as <-. rewrite Hn0 in Hn. injection Hn as <-.
        cbn [take map chain_content]. cbn [Zsum foldr].
        destruct (Z.ltb_spec (limit + 0 + q) (limit + (n0 - 1))); [| lia].
        replace (limit + 0 + q - limit) with q by lia.
        replace (j + 0)%nat with j by lia.
        by apply cross_varied_fill.
      * change (rest !! i = Some p) in Hi.
        cbn [take] in Hpos |- *.
        apply Forall_cons_1 in Hpos as [Hp0pos Hpos].
        pose proof (sweep_nonneg _ Hpos) as Hnn.
        specialize (Hp0pos n0 Hn0).
        cbn [map chain_content]. rewrite Zsum_cons, Hn0. cbn [sweep_len].
        destruct (Z.ltb_spec
                    (limit + (n0 - 1 + Zsum (map (λ p, sweep_len (len p))
                                              (take i rest))) + q)
                    (limit + (n0 - 1))); [lia |].
        replace (limit + (n0 - 1 + Zsum (map (λ p, sweep_len (len p))
                                          (take i rest))) + q)
          with ((limit + (n0 - 1))
                + Zsum (map (λ p, sweep_len (len p)) (take i rest)) + q)
          by lia.
        replace (j + S i)%nat with (S j + i)%nat by lia.
        exact (Hfill i p n q _ r Hi Hn Hq Hpos).
    + exists vs, lensv. split; [exact Hloop |]. split; [exact Hlens |].
      split; [exact Hnull |].
      split; [cbn [map]; rewrite Zsum_cons, Hsum, Hn0; reflexivity |].
      intros i p n q limit r Hi Hn Hq Hpos.
      destruct i as [|i].
      * injection Hi as <-. congruence.
      * change (rest !! i = Some p) in Hi.
        cbn [take] in Hpos |- *.
        apply Forall_cons_1 in Hpos as [_ Hpos].
        cbn [map]. rewrite Zsum_cons, Hn0. cbn [sweep_len].
        replace (limit + (0 + Zsum (map (λ p, sweep_len (len p))
                                      (take i rest))) + q)
          with (limit + Zsum (map (λ p, sweep_len (len p)) (take i rest)) + q)
          by lia.
        replace (j + S i)%nat with (S j + i)%nat by lia.
        exact (Hfill i p n q _ r Hi Hn Hq Hpos).
Qed.

Lemma wrap_infinite_id (l : list psrc) (lens : list Z) :
  map len l = map Some lens → map (wrap_infinite result null_len) l = l.
Proof.
  revert lens. induction l as [|p l IH]; intros lens Hlens; [done |].
  destruct lens as [|n lens]; [discriminate |].
  cbn [map] in Hlens |- *. injection Hlens as Hn Hrest.
  unfold wrap_infinite at 1. rewrite Hn. f_equal. by eapply IH.
Qed.

(** X10: a variation over two or more sources has one baseline point
    and, for each source that has a length [n], [n - 1] further points.
    Filling it at 0 fills every source at 0; filling it at the [q]-th point
    swept by source [idx] fills that source at [q + 1] and every other
    source at 0, in the order of the sources. *)
Theorem X10_variation (l : list psrc) :
  (2 ≤ length (strip l))%nat →
  ∃ v,
    new_variation result null_len l = Ok v ∧
    len v = Some (variation_len (map len (strip l))) ∧
    (∀ r, fill v 0 r = fill_each result (strip l) 0 r) ∧
    ∀ idx n q r,
      map len (strip l) !! idx = Some (Some n) →
      0 ≤ q < n - 1 →
      Forall (λ o, ∀ m, o = Some m → 1 ≤ m) (take idx (map len (strip l))) →
      fill v (variation_pnum (map len (strip l)) idx q) r
      = fill_at result (strip l)
          (<[idx := q + 1]> (replicate (length (strip l)) 0)) r.
Proof.
  intros Hk. set (kids := strip l) in *.
  destruct (variation_loop_spec kids Hk kids 0%nat)
    as (vs & lensv & Hloop & Hlens & Hnull & Hsum & Hfill); [done |].
  assert (Hnew : MultiParameterSource_new result l = Allocated result).
  { unfold MultiParameterSource_new. fold kids.
    destruct kids as [|p1 [|p2 kids']]; [cbn in Hk; lia | cbn in Hk; lia |].
    reflexivity. }
  unfold new_variation. rewrite Hnew.
  unfold ErrorParameterSource_init. fold kids.
  rewrite central_ok. cbn [mbind res_mbind res_bind].
  rewrite (new_zip_central kids Hk). cbn [mbind res_mbind res_bind].
  rewrite Hloop. cbn [mbind res_mbind res_bind].
  unfold ChainParameterSource_init, MultiParameterSource_init.
  set (baseline := Multi result ZipLongParameterSource (central kids)
                     (map Some (replicate (length kids) 1)) (Some 1)).
  assert (Hstrip : strip (baseline :: vs) = baseline :: vs).
  { apply strip_fixed. by constructor. }
  assert (Hlens' : map len (baseline :: vs) = map Some (1 :: lensv)).
  { cbn [map]. by rewrite Hlens. }
  rewrite Hstrip, (wrap_infinite_id _ _ Hlens'), Hstrip, Hlens'.
  cbn [_init_psrc_max]. rewrite sum_finite.
  cbn [mbind res_mbind res_bind].
  eexists. split; [reflexivity |].
  split; [| split].
  - cbn [get_parameter_len]. f_equal. unfold variation_len.
    rewrite Zsum_cons, Hsum. by rewrite List.map_map.
  - intros r. cbn [fill_parameter_content map chain_content].
    destruct (Z.ltb_spec 0 (0 + 1)); [| lia].
    unfold baseline. cbn [fill_parameter_content].
    rewrite zip_content_all.
    + rewrite fill_each_unfold. apply fill_each_central.
    + by rewrite List.length_map, length_replicate.
    + apply Forall_replicate. lia.
  - intros idx n q r Hn Hq Hpos.
    change (map len kids !! idx = Some (Some n)) in Hn.
    change (map ?f ?l) with (f <$> l) in Hn.
    rewrite list_lookup_fmap in Hn.
    destruct (kids !! idx) as [p|] eqn:Hp; [| discriminate].
    cbn in Hn. injection Hn as Hn.
    assert (Hpos' : Forall (λ p', ∀ m, len p' = Some m → 1 ≤ m)
                      (take idx kids)).
    { change (map ?f ?l) with (f <$> l) in Hpos.
      rewrite <- fmap_take in Hpos. by apply Forall_fmap in Hpos. }
    pose proof (sweep_nonneg _ Hpos') as Hnn.
    unfold variation_pnum, variation_len.
    change (map len kids) with (len <$> kids).
    rewrite <- fmap_take. change (?f <$> ?l) with (map f l).
    rewrite List.map_map.
    cbn [fill_parameter_content map chain_content].
    destruct (Z.ltb_spec
                (1 + Zsum (map (λ p, sweep_len (len p)) (take idx kids)) + q)
                (0 + 1)); [lia |].
    replace (1 + Zsum (map (λ p, sweep_len (len p)) (take idx kids)) + q)
      with ((0 + 1) + Zsum (map (λ p, sweep_len (len p)) (take idx kids)) + q)
      by lia.
    by apply (Hfill idx p n q (0 + 1) r).
Qed.

End with_sources.
End psource_variation_properties.

Module psource_variation_examples.
Import psource_meta psource_translate examples psource_variation_properties.

Lemma X10_variation_witness :
  ∃ v,
    new_variation writes null_len [var "A" 3; counter "N"; var "B" 2] = Ok v ∧
    get_parameter_len writes null_len v = Some 4 ∧
    fill_parameter_content writes v 0 []
    = Ok [("A"%string, 0); ("N"%string, 0); ("B"%string, 0)] ∧
    fill_parameter_content writes v 2 []
    = Ok [("A"%string, 2); ("N"%string, 0); ("B"%string, 0)] ∧
    fill_parameter_content writes v 3 []
    = Ok [("A"%string, 0); ("N"%string, 0); ("B"%string, 1)].
Proof.
  destruct (X10_variation writes null_len
              [var "A" 3; counter "N"; var "B" 2])
    as (v & Hv & Hlen & Hbase & Hsweep).
  - cbn. lia.
  - exists v. split; [exact Hv |]. split; [exact Hlen |].
    split; [exact (Hbase []) |]. split.
    + apply (Hsweep 0%nat 3 1 []); [reflexivity | lia | constructor].
    + apply (Hsweep 2%nat 2 0 []); [reflexivity | lia |].
      repeat constructor; intros m [=]; lia.
Defined.

End psource_variation_examples.

(** ** The resync of chains *)

Module psource_multi_resync_properties.
Import psource_meta psource_translate psource_multi_resync.
Import psource_construction psource_content psource_translate_properties.

Section chain.

Variable offset_list : list Z.

Abbreviation translate := (Chain_translate_pnum offset_list).

Lemma translate_into_chain (psrc_idx : nat) (offset : Z) (pnums : list Z) :
  offset_list !! psrc_idx = Some offset →
  ∀ target,
    ∃ target',
      translate_into translate psrc_idx pnums target = Ok target' ∧
      ∀ x, x ∈ target' ↔ x ∈ target ∨ ∃ pnum, pnum ∈ pnums ∧ x = pnum + offset.
Proof.
  intros Hoff. induction pnums as [|pnum pnums IH]; intros target.
  - exists target. split; [done |]. intros x. split; [by left |].
    intros [? | (p & Hp & _)]; [done | by apply elem_of_nil in Hp].
  - assert (Htr : Chain_translate_pnum offset_list psrc_idx pnum
                  = Ok [pnum + offset]).
    { unfold Chain_translate_pnum. by rewrite Hoff. }
    cbn [translate_into]. rewrite Htr.
    cbn [mbind res_mbind res_bind].
    destruct (IH (target ∪ list_to_set [pnum + offset])) as (t & Ht & Hx).
    exists t. split; [exact Ht |]. intros x. rewrite Hx.
    rewrite elem_of_union, elem_of_list_to_set, list_elem_of_singleton.
    split.
    + intros [[? | ->] | (p & Hp & ->)].
      * by left.
      * right. exists pnum. split; [by left | done].
      * right. exists p. split; [by right | done].
    + intros [? | (p & Hp & ->)]; [by left; left |].
      apply elem_of_cons in Hp as [-> | Hp]; [by left; right |].
      right. by exists p.
Qed.

Lemma resync_loop_chain (psrc_resync_list : list resync_result) :
  ∀ psrc_idx result_redo result_disable,
    (psrc_idx + length psrc_resync_list ≤ length offset_list)%nat →
    ∃ redo disable,
      resync_loop translate psrc_idx psrc_resync_list result_redo
        result_disable = Ok (redo, disable) ∧
      (∀ x, x ∈ redo ↔
            x ∈ result_redo ∨
            ∃ i a offset pnum,
              psrc_resync_list !! i = Some a ∧
              offset_list !! (psrc_idx + i)%nat = Some offset ∧
              pnum ∈ a.1.1 ∧ x = pnum + offset) ∧
      (∀ x, x ∈ disable ↔
            x ∈ result_disable ∨
            ∃ i a offset pnum,
              psrc_resync_list !! i = Some a ∧
              offset_list !! (psrc_idx + i)%nat = Some offset ∧
              pnum ∈ a.1.2 ∧ x = pnum + offset).
Proof.
  induction psrc_resync_list as [|a l IH];
    intros psrc_idx result_redo result_disable Hlen.
  - exists result_redo, result_disable. split; [done |].
    split; intros x; (split; [by left |]);
      intros [? | (i & a & ? & ? & Hi & _)]; done.
  - cbn [length] in Hlen. cbn [resync_loop].
    destruct (lookup_lt_is_Some_2 offset_list psrc_idx) as [offset Hoff];
      [lia |].
    destruct (translate_into_chain psrc_idx offset (elements a.1.1) Hoff
                result_redo) as (redo1 & Hredo1 & Hx1).
    destruct (translate_into_chain psrc_idx offset (elements a.1.2) Hoff
                result_disable) as (dis1 & Hdis1 & Hx2).
    rewrite Hredo1. cbn [mbind res_mbind res_bind].
    rewrite Hdis1. cbn [mbind res_mbind res_bind].
    destruct (IH (S psrc_idx) redo1 dis1) as (redo & dis & Hloop & Hr & Hd);
      [lia |].
    exists redo, dis. split; [exact Hloop |]. split; intros x.
    + rewrite Hr, Hx1. setoid_rewrite elem_of_elements. split.
      * intros [[? | (pnum & Hp & ->)] | (i & b & off & pnum & Hi & Ho & Hp & ->)].
        -- by left.
        -- right. exists 0%nat, a, offset, pnum.
           rewrite Nat.add_0_r. by repeat split.
        -- right. exists (S i), b, off, pnum.
           replace (psrc_idx + S i)%nat with (S psrc_idx + i)%nat by lia.
           by repeat split.
      * intros [? | (i & b & off & pnum & Hi & Ho & Hp & ->)]; [by left; left |].
        destruct i as [|i].
        -- injection Hi as <-. rewrite Nat.add_0_r, Hoff in Ho.
           injection Ho as <-. left. right. by exists pnum.
        -- right. exists i, b, off, pnum.
           replace (S psrc_idx + i)%nat with (psrc_idx + S i)%nat by lia.
           by repeat split.
    + rewrite Hd, Hx2. setoid_rewrite elem_of_elements. split.
      * intros [[? | (pnum & Hp & ->)] | (i & b & off & pnum & Hi & Ho & Hp & ->)].
        -- by left.
        -- right. exists 0%nat, a, offset, pnum.
           rewrite Nat.add_0_r. by repeat split.
        -- right. exists (S i), b, off, pnum.
           replace (psrc_idx + S i)%nat with (S psrc_idx + i)%nat by lia.
           by repeat split.
      * intros [? | (i & b & off & pnum & Hi & Ho & Hp & ->)]; [by left; left |].
        destruct i as [|i].
        -- injection Hi as <-. rewrite Nat.add_0_r, Hoff in Ho.
           injection Ho as <-. left. right. by exists pnum.
        -- right. exists i, b, off, pnum.
           replace (S psrc_idx + i)%nat with (psrc_idx + S i)%nat by lia.
           by repeat split.
Qed.

End chain.

(** X21: the resync of a chain whose children have lengths reports for
    redo exactly the indices [pnum] plus the sum of the lengths of the
    children before child [i], for every child [i] and every index [pnum]
    that child reported for redo, and likewise for disable; no call of
    [_translate_pnum] fails; and the size-change flag compares the length
    of the chain before and after. *)
Theorem X21_chain_resync {A} (kids : list A) (lens : list Z)
    (psrc_resync_list : list resync_result) (old new : option Z) :
  length psrc_resync_list = length kids →
  ∃ offset_list res,
    _offset_list kids (map Some lens) = Ok offset_list ∧
    Multi_resync_psrc (Chain_translate_pnum offset_list) psrc_resync_list
      old new = Ok res ∧
    (∀ x, x ∈ res.1.1 ↔
          ∃ i a pnum, psrc_resync_list !! i = Some a ∧ pnum ∈ a.1.1 ∧
                      x = pnum + Zsum (take i lens)) ∧
    (∀ x, x ∈ res.1.2 ↔
          ∃ i a pnum, psrc_resync_list !! i = Some a ∧ pnum ∈ a.1.2 ∧
                      x = pnum + Zsum (take i lens)) ∧
    (res.2 = true ↔ old ≠ new).
Proof.
  intros Hlen. eexists. 
  destruct (resync_loop_chain
              (map (λ i, Zsum (take i lens)) (seq 0 (length kids)))
              psrc_resync_list 0 ∅ ∅) as (redo & dis & Hloop & Hr & Hd).
  { rewrite List.length_map, length_seq. lia. }
  assert (Hoff : ∀ i a off,
            psrc_resync_list !! i = Some a →
            (map (λ i, Zsum (take i lens)) (seq 0 (length kids)) !! (0 + i)%nat
             = Some off ↔ off = Zsum (take i lens))).
  { intros i a off Hi. apply lookup_lt_Some in Hi. rewrite Hlen in Hi.
    change (0 + i)%nat with i.
    change (map ?f ?l) with (f <$> l). rewrite list_lookup_fmap.
    rewrite (lookup_seq_lt 0 (length kids) i Hi). cbn.
    split; [by intros [= <-] | by intros ->]. }
  exists (redo, dis, negb (bool_decide (old = new))).
  split; [apply offset_list_finite |].
  unfold Multi_resync_psrc. cbn [get_empty_resync_result fst snd].
  rewrite Hloop. cbn [mbind res_mbind res_bind fst snd].
  split; [done |]. split; [| split].
  - intros x. rewrite Hr. split.
    + intros [H | (i & a & off & pnum & Hi & Ho & Hp & ->)];
        [by apply elem_of_empty in H |].
      apply (Hoff i a off Hi) in Ho as ->. by exists i, a, pnum.
    + intros (i & a & pnum & Hi & Hp & ->). right.
      exists i, a, (Zsum (take i lens)), pnum.
      split; [done |]. split; [by apply (Hoff i a) | done].
  - intros x. rewrite Hd. split.
    + intros [H | (i & a & off & pnum & Hi & Ho & Hp & ->)];
        [by apply elem_of_empty in H |].
      apply (Hoff i a off Hi) in Ho as ->. by exists i, a, pnum.
    + intros (i & a & pnum & Hi & Hp & ->). right.
      exists i, a, (Zsum (take i lens)), pnum.
      split; [done |]. split; [by apply (Hoff i a) | done].
  - rewrite negb_true_iff. by rewrite bool_decide_eq_false.
Qed.

End psource_multi_resync_properties.

Module psource_multi_resync_examples.
Import psource_meta psource_translate psource_multi_resync examples.
Import psource_multi_resync_properties.

Lemma X21_chain_resync_witness :
  ∃ offset_list res,
    _offset_list [var "A" 2; var "B" 3] [Some 2; Some 3] = Ok offset_list ∧
    Multi_resync_psrc (Chain_translate_pnum offset_list)
      ([({[1]}, ∅, false); ({[0; 2]}, {[1]}, true)] : list resync_result) (Some 5) (Some 5)
    = Ok res ∧
    (∀ x, x ∈ res.1.1 ↔
          ∃ i a pnum,
            ([({[1]}, ∅, false); ({[0; 2]}, {[1]}, true)] : list resync_result) !! i = Some a ∧
            pnum ∈ a.1.1 ∧ x = pnum + Zsum (take i [2; 3])) ∧
    res.2 = false.
Proof.
  destruct (X21_chain_resync [var "A" 2; var "B" 3] [2; 3]
              ([({[1]}, ∅, false); ({[0; 2]}, {[1]}, true)] : list resync_result)
              (Some 5) (Some 5) eq_refl)
    as (offset_list & res & Hoff & Hres & Hredo & _ & Hflag).
  exists offset_list, res. split; [exact Hoff |]. split; [exact Hres |].
  split; [exact Hredo |].
  destruct res.2; [| done]. by destruct (proj1 Hflag eq_refl).
Defined.

End psource_multi_resync_examples.

(** ** Properties of the job database *)

Module job_db_iter_properties.
Import job_db job_db_iter.

Section JobDB.

Variable get_job_transient : Z → Job.

Abbreviation iter := (iter_jobs get_job_transient).

(** X11: [iter_jobs] yields, in the order of the subset (or of the job
    numbers below the job limit when no subset is given), exactly the job
    numbers that the job selector and the always-selector accept, where an
    absent selector accepts every job; the always-selector acts as a
    filter on what the job selector alone yields; and [get_job_len] never
    exceeds the size of the subset. *)
Theorem X11_iter_jobs_selects (self : JobDB) (job_selector : option selector)
    (subset : option (list Z)) :
  iter self job_selector subset
    `sublist_of` default (seqZ 0 (_job_limit self)) subset ∧
  (∀ jobnum,
     jobnum ∈ iter self job_selector subset ↔
     jobnum ∈ default (seqZ 0 (_job_limit self)) subset ∧
     accepts get_job_transient job_selector jobnum ∧
     accepts get_job_transient (_always_selector self) jobnum) ∧
  iter self job_selector subset
  = iter self None
      (Some (iter (mkJobDB (_job_limit self) None) job_selector subset)) ∧
  (get_job_len get_job_transient self job_selector subset
   ≤ length (default (seqZ 0 (_job_limit self)) subset))%nat ∧
  (_job_limit self ≤ 0 → iter self job_selector None = []).
Proof.
  unfold get_job_len, get_job_list, iter_jobs, accepts.
  destruct self as [limit always]. cbn [_job_limit _always_selector].
  set (base := match subset with
               | Some s => s
               | None => seqZ 0 limit
               end).
  assert (Hbase : default (seqZ 0 limit) subset = base) by (by destruct subset).
  rewrite Hbase.
  assert (Hfilter : ∀ f : Z → bool,
            List.filter f base `sublist_of` base ∧
            (length (List.filter f base) ≤ length base)%nat ∧
            ∀ x, x ∈ List.filter f base ↔ x ∈ base ∧ f x = true).
  { intros f. split; [| split].
    - clear. induction base as [|x l IH]; [done |]. cbn.
      destruct (f x); [by constructor | by constructor].
    - apply List.filter_length_le.
    - intros x. rewrite !list_elem_of_In. apply filter_In. }
  split; [| split; [| split; [| split]]].
  - destruct job_selector as [js|], always as [al|];
      try apply Hfilter; done.
  - intros jobnum.
    destruct job_selector as [js|], always as [al|].
    + rewrite (proj2 (proj2 (Hfilter _))). rewrite andb_true_iff.
      split.
      * intros (? & ? & ?). split; [done |].
        split; intros ? [= <-]; done.
      * intros (? & Hjs & Hal). split; [done |].
        split; [by apply Hjs | by apply Hal].
    + rewrite (proj2 (proj2 (Hfilter _))). split.
      * intros (? & ?). split; [done |]. split; [| done].
        by intros ? [= <-].
      * intros (? & Hjs & _). split; [done | by apply Hjs].
    + rewrite (proj2 (proj2 (Hfilter _))). split.
      * intros (? & ?). split; [done |]. split; [done |].
        by intros ? [= <-].
      * intros (? & _ & Hal). split; [done | by apply Hal].
    + split; [intros ?; split; [done | split; done] | by intros (? & _)].
  - destruct job_selector as [js|], always as [al|]; try done.
    clear. induction base as [|x l IH]; [done |]. cbn.
    destruct (js x (get_job_transient x)); cbn.
    + destruct (al x (get_job_transient x)); [by rewrite IH | done].
    + done.
  - destruct job_selector as [js|], always as [al|];
      try apply Hfilter; done.
  - intros Hlimit.
    assert (seqZ 0 limit = []) as ->.
    { unfold seqZ. by rewrite Z2Nat.nonpos. }
    by destruct job_selector, always.
Qed.

End JobDB.

(** *** Sequences of calls on a job *)

Lemma do_calls_app (calls1 calls2 : list job_call) (j : Job) :
  do_calls (calls1 ++ calls2) j = do_calls calls2 (do_calls calls1 j).
Proof. apply fold_left_app. Qed.

(** X12: after any sequence of calls of [assign_id], [set] and [update]
    on a new job, the attempt counter is the number of calls of
    [assign_id], and the history has entries only for attempts from 0 up
    to the current one, hence at most one more entry than there were
    attempts. *)
Theorem X12_history_within_attempts (calls : list job_call) :
  attempt (do_calls calls Job_init)
  = Z.of_nat (length (List.filter is_assign_id calls)) ∧
  (∀ k, is_Some (history (do_calls calls Job_init) !! k) →
        0 ≤ k ≤ attempt (do_calls calls Job_init)) ∧
  Z.of_nat (size (history (do_calls calls Job_init)))
  ≤ attempt (do_calls calls Job_init) + 1.
Proof.
  assert (Hinv : ∀ calls j,
            0 ≤ attempt j →
            (∀ k, is_Some (history j !! k) → 0 ≤ k ≤ attempt j) →
            attempt (do_calls calls j)
            = attempt j + Z.of_nat (length (List.filter is_assign_id calls)) ∧
            ∀ k, is_Some (history (do_calls calls j) !! k) →
                 0 ≤ k ≤ attempt (do_calls calls j)).
  { clear. induction calls as [|c calls IH]; intros j Hj Hhist.
    - cbn. split; [lia | done].
    - change (do_calls (c :: calls) j) with (do_calls calls (do_call j c)).
      destruct c as [gc_id now | key value | state now].
      + destruct (IH (assign_id j gc_id now)) as [Ha Hh].
        * cbn. lia.
        * cbn. intros k Hk. specialize (Hhist k Hk). lia.
        * split; [| done]. cbn [do_call]. rewrite Ha. cbn.
          change (List.filter is_assign_id calls)
            with (List.filter is_assign_id calls). lia.
      + destruct (IH (job_db.set j key value)) as [Ha Hh]; [done | done |].
        split; [| done]. cbn [do_call]. rewrite Ha. reflexivity.
      + destruct (IH (update j state now)) as [Ha Hh].
        * done.
        * cbn. intros k Hk. apply lookup_insert_is_Some in Hk.
          destruct Hk as [<- | [_ Hk]]; [lia | by apply Hhist].
        * split; [| done]. cbn [do_call]. rewrite Ha. reflexivity. }
  destruct (Hinv calls Job_init) as [Ha Hh].
  { cbn. lia. }
  { cbn. intros k Hk. rewrite lookup_empty in Hk. by destruct Hk. }
  split; [by rewrite Ha |]. split; [exact Hh |].
  set (j := do_calls calls Job_init) in *.
  assert (Hsub : dom (history j)
                 ⊆ (list_to_set (seqZ 0 (attempt j + 1)) : gset Z)).
  { intros k Hk. apply elem_of_dom in Hk. specialize (Hh k Hk).
    apply elem_of_list_to_set, elem_of_seqZ. lia. }
  apply subseteq_size in Hsub. rewrite size_dom in Hsub.
  rewrite size_list_to_set in Hsub by apply NoDup_seqZ.
  rewrite length_seqZ in Hsub.
  assert (0 ≤ attempt j) by (rewrite Ha; cbn; lia). lia.
Qed.

(** X13: [set] stores a value that [get] returns, leaves every other key
    and the state, the attempt counter and the history as they were; and
    the destination recorded by [update] for the current attempt is the
    value of the key [dest] set last. *)
Theorem X13_set_get_update (j : Job) (key key' value : string)
    (default_value : option string) (s : job_state) (now : Z) :
  job_db.get (job_db.set j key value) key default_value = Some value ∧
  (key ≠ key' →
   job_db.get (job_db.set j key value) key' default_value
   = job_db.get j key' default_value) ∧
  (state (job_db.set j key value), attempt (job_db.set j key value),
   history (job_db.set j key value))
  = (state j, attempt j, history j) ∧
  history (update (job_db.set j "dest" value) s now) !! attempt j
  = Some value ∧
  (key ≠ "dest"%string →
   history (update (job_db.set j key value) s now)
   = history (update j s now)).
Proof.
  split; [| split; [| split; [| split]]].
  - unfold job_db.get, job_db.set. cbn. by rewrite lookup_insert_eq.
  - intros Hne. unfold job_db.get, job_db.set. cbn.
    by rewrite lookup_insert_ne.
  - reflexivity.
  - unfold update, job_db.set. cbn.
    by rewrite lookup_insert_eq, lookup_insert_eq.
  - intros Hne. unfold update, job_db.set. cbn.
    by rewrite lookup_insert_ne.
Qed.

End job_db_iter_properties.

(** ** Properties of the sandbox helper and of the purge *)

Module wms_local_sandbox_properties.
Import wms_local wms_local_sandbox.

Lemma path_join_truthy (dir name : string) :
  truthy (Some (path_join dir name)) = true.
Proof. unfold path_join. by destruct dir. Qed.

Section SandboxHelper.

Variable path_exists : string → bool.
Variable isdir : string → bool.
Variable listdir : string → list string.

Abbreviation search := (searchSandbox path_exists).

(** The sandbox directory [sbox] of the helper holds the marker of
    [gc_id]. *)
Abbreviation marked := (λ (self : SandboxHelper) (gc_id sbox : string),
  path_exists (path_join (path_join (_path self) sbox) gc_id)).

Lemma search_truthy (self : SandboxHelper) (gc_id : string)
    (source : list string) :
  truthy (search self gc_id source)
  = match search self gc_id source with Some _ => true | None => false end.
Proof.
  induction source as [|sbox source IH]; [done |].
  cbn [searchSandbox]. destruct (path_exists _); [| exact IH].
  apply path_join_truthy.
Qed.

Lemma search_Some (self : SandboxHelper) (gc_id : string)
    (source : list string) (path : string) :
  search self gc_id source = Some path →
  ∃ sbox, sbox ∈ source ∧ path = path_join (_path self) sbox ∧
          path_exists (path_join path gc_id) = true.
Proof.
  induction source as [|sbox source IH]; [done |].
  cbn [searchSandbox].
  destruct (path_exists (path_join (path_join (_path self) sbox) gc_id))
    eqn:Hex.
  - intros [= <-]. exists sbox. split; [by left | done].
  - intros H. destruct (IH H) as (s & Hin & Hrest).
    exists s. split; [by right | done].
Qed.

Lemma search_None (self : SandboxHelper) (gc_id : string)
    (source : list string) :
  search self gc_id source = None ↔
  ∀ sbox, sbox ∈ source → marked self gc_id sbox = false.
Proof.
  induction source as [|sbox source IH]; cbn [searchSandbox].
  - split; [| done]. intros _ s Hs. by apply elem_of_nil in Hs.
  - destruct (path_exists (path_join (path_join (_path self) sbox) gc_id))
      eqn:Hex.
    + split; [done |]. intros H.
      assert (Hin : sbox ∈ sbox :: source) by (by left).
      specialize (H sbox Hin). cbn beta in H. congruence.
    + rewrite IH. split.
      * intros H s [-> | Hs]%elem_of_cons; [done | by apply H].
      * intros H s Hs. apply H. by right.
Qed.

Lemma search_filter (self : SandboxHelper) (gc_id : string)
    (keep : string → bool) (source : list string) :
  (∀ sbox, sbox ∈ source → marked self gc_id sbox = true →
           keep sbox = true) →
  search self gc_id (List.filter keep source) = search self gc_id source.
Proof.
  induction source as [|sbox source IH]; intros Hkeep; [done |].
  cbn [List.filter searchSandbox].
  destruct (path_exists (path_join (path_join (_path self) sbox) gc_id))
    eqn:Hex.
  - rewrite (Hkeep sbox) by (by left || done).
    cbn [searchSandbox]. by rewrite Hex.
  - assert (IH' : search self gc_id (List.filter keep source)
                  = search self gc_id source).
    { apply IH. intros s Hs. apply Hkeep. by right. }
    destruct (keep sbox); [| done].
    cbn [searchSandbox]. by rewrite Hex.
Qed.

Lemma search_path (cache1 cache2 : list string) (path gc_id : string)
    (source : list string) :
  search (mkSandboxHelper cache1 path) gc_id source
  = search (mkSandboxHelper cache2 path) gc_id source.
Proof. induction source as [|s source IH]; [done |]. cbn. by rewrite IH. Qed.

(** X14: the directory [get_sandbox] returns lies in the cache the helper
    has after the call and holds the marker file of the job; when it
    returns nothing, no directory of that cache holds the marker; a
    directory of the old cache that holds the marker is found without the
    sandbox base being listed again; and a second call on the same file
    system returns the same value and leaves the helper as it is. *)
Theorem X14_get_sandbox (self : SandboxHelper) (gc_id : string) :
  let self' := (get_sandbox path_exists isdir listdir self gc_id).1 in
  let result := (get_sandbox path_exists isdir listdir self gc_id).2 in
  _path self' = _path self ∧
  (∀ path, result = Some path →
           ∃ sbox, sbox ∈ _cache self' ∧
                   path = path_join (_path self) sbox ∧
                   path_exists (path_join path gc_id) = true) ∧
  (result = None →
   ∀ sbox, sbox ∈ _cache self' → marked self gc_id sbox = false) ∧
  ((∃ sbox, sbox ∈ _cache self ∧ marked self gc_id sbox = true) →
   self' = self) ∧
  get_sandbox path_exists isdir listdir self' gc_id = (self', result).
Proof.
  destruct self as [cache path]. unfold get_sandbox.
  cbn [_cache _path]. rewrite search_truthy.
  destruct (search (mkSandboxHelper cache path) gc_id cache) as [found|]
    eqn:Hfirst; cbn [fst snd].
  - split; [done |]. split; [| split; [| split]].
    + intros p [= <-]. apply (search_Some _ _ _ _ Hfirst).
    + done.
    + done.
    + cbn [_cache _path]. rewrite search_truthy, Hfirst. done.
  - set (dirs := List.filter (λ x, isdir (path_join path x)) (listdir path)).
    set (self' := mkSandboxHelper dirs path).
    pose proof (proj1 (search_None _ _ _) Hfirst) as Hold.
    cbn [_path] in Hold.
    assert (Hnew : search self' gc_id
                     (List.filter (λ x, negb (bool_decide (x ∈ cache))) dirs)
                   = search self' gc_id dirs).
    { apply search_filter. intros sbox _ Hm.
      rewrite negb_true_iff, bool_decide_eq_false. intros Hin.
      specialize (Hold sbox Hin). unfold self' in Hm.
      cbn beta iota delta [_path] in Hm, Hold. congruence. }
    split; [done |]. split; [| split; [| split]].
    + intros p Hp. rewrite Hnew in Hp. apply (search_Some _ _ _ _ Hp).
    + intros Hnone. rewrite Hnew in Hnone.
      apply (proj1 (search_None _ _ _) Hnone).
    + intros (sbox & Hin & Hm). specialize (Hold sbox Hin).
      cbn beta iota delta [_path] in Hm, Hold. congruence.
    + cbn [_cache _path]. rewrite search_truthy. fold dirs. fold self'.
      rewrite Hnew.
      change (_cache self') with dirs. change (_path self') with path.
      fold dirs. fold self'.
      destruct (search self' gc_id dirs) as [found|] eqn:Hsecond; [done |].
      f_equal. rewrite search_filter.
      * exact Hsecond.
      * intros sbox Hin Hm.
        pose proof (proj1 (search_None _ _ _) Hsecond sbox Hin) as Hno.
        cbn beta in Hm, Hno. congruence.
Qed.

End SandboxHelper.

(** *** The purge lock *)

Section LocalPurgeJobs.

Variable wms_name : string.
Variable sandbox_of : list purge_event → string → option string.
Variable rmtree_ok : list purge_event → string → bool.
Variable listdir_ok : list purge_event → string → bool.

Abbreviation exec := (execute wms_name sandbox_of rmtree_ok listdir_ok).

Lemma lock_depth_app (t1 t2 : list purge_event) (held d : nat) :
  lock_depth t1 held = Some d →
  lock_depth (t1 ++ t2) held = lock_depth t2 d.
Proof.
  revert held. induction t1 as [|e t1 IH]; intros held; cbn.
  - by intros [= ->].
  - destruct e; try apply IH. destruct held; [done | apply IH].
Qed.

Lemma outside_lock_app (f : purge_event → bool) (t1 t2 : list purge_event)
    (held d : nat) :
  lock_depth t1 held = Some d →
  outside_lock f (t1 ++ t2) held
  = outside_lock f t1 held && outside_lock f t2 d.
Proof.
  revert held. induction t1 as [|e t1 IH]; intros held; cbn.
  - by intros [= ->].
  - destruct e; try (intros H; rewrite (IH _ H); by rewrite andb_assoc);
      try apply IH.
    destruct held; [done | apply IH].
Qed.

Lemma yielded_app (t1 t2 : list purge_event) :
  yielded (t1 ++ t2) = yielded t1 ++ yielded t2.
Proof. apply omap_app. Qed.

Lemma execute_spec (wms_id_list : list string) :
  ∀ trace,
    lock_depth trace 0 = Some 0%nat →
    outside_lock unlocked_event trace 0 = true →
    let out := exec wms_id_list trace in
    lock_depth out.1 0
    = Some match out.2 with
           | Raise (Exception _) => 1%nat
           | _ => 0%nat
           end ∧
    outside_lock unlocked_event out.1 0 = true ∧
    (∃ ids, yielded out.1 = yielded trace ++ ids ∧
            ids `sublist_of` wms_id_list) ∧
    trace `prefix_of` out.1.
Proof.
  induction wms_id_list as [|wms_id l IH]; intros trace Hd Ho; cbn [execute].
  - cbn. split; [done |]. split; [done |]. split; [| done].
    exists []. by rewrite app_nil_r.
  - destruct (sandbox_of trace _) as [path|].
    + destruct (rmtree_ok _ path).
      * destruct (IH ((trace ++ [lock_acquire; rmtree path])
                      ++ [lock_release; yield wms_id]))
          as (H1 & H2 & (ids & H3 & H4) & H5).
        { rewrite <- app_assoc. by rewrite (lock_depth_app _ _ _ _ Hd). }
        { rewrite <- app_assoc.
          by rewrite (outside_lock_app _ _ _ _ _ Hd), Ho. }
        split; [exact H1 |]. split; [exact H2 |]. split.
        -- exists (wms_id :: ids). split.
           ++ rewrite H3, !yielded_app. cbn. by rewrite <- !app_assoc.
           ++ by constructor.
        -- etrans; [| exact H5]. rewrite <- app_assoc. by apply prefix_app_r.
      * destruct (listdir_ok _ path); cbn [fst snd].
        -- split.
           { rewrite <- app_assoc. by rewrite (lock_depth_app _ _ _ _ Hd). }
           split.
           { rewrite <- app_assoc.
             by rewrite (outside_lock_app _ _ _ _ _ Hd), Ho. }
           split; [| rewrite <- app_assoc; by apply prefix_app_r].
           exists []. split; [| apply sublist_nil_l].
           rewrite <- app_assoc, yielded_app. reflexivity.
        -- split; [by rewrite (lock_depth_app _ _ _ _ Hd) |].
           split; [by rewrite (outside_lock_app _ _ _ _ _ Hd), Ho |].
           split; [| by apply prefix_app_r].
           exists []. split; [| apply sublist_nil_l].
           rewrite yielded_app. reflexivity.
    + destruct (IH (trace ++ [log_warning wms_id]))
        as (H1 & H2 & (ids & H3 & H4) & H5).
      { by rewrite (lock_depth_app _ _ _ _ Hd). }
      { by rewrite (outside_lock_app _ _ _ _ _ Hd), Ho. }
      split; [exact H1 |]. split; [exact H2 |]. split.
      * exists ids. split; [| by apply sublist_cons].
        rewrite H3, yielded_app. cbn. by rewrite app_nil_r.
      * etrans; [| exact H5]. by apply prefix_app_r.
Qed.

(** X15: [execute] never releases the purge lock while it is free, and
    yields a job id or logs a warning only while the lock is free; the ids
    it yields are ids it was given, in their order.  The lock is free when
    the generator ends or raises [BackendError]; it is still held when
    [rmtree] failed and listing the directory for the log message failed
    as well, for that exception leaves the handler before the release. *)
Theorem X15_purge_lock (wms_id_list : list string) :
  lock_depth (exec wms_id_list []).1 0
  = Some match (exec wms_id_list []).2 with
         | Raise (Exception _) => 1%nat
         | _ => 0%nat
         end ∧
  outside_lock unlocked_event (exec wms_id_list []).1 0 = true ∧
  yielded (exec wms_id_list []).1 `sublist_of` wms_id_list.
Proof.
  destruct (execute_spec wms_id_list []) as (H1 & H2 & (ids & H3 & H4) & _);
    [done | done |].
  split; [exact H1 |]. split; [exact H2 |]. by rewrite H3.
Qed.

End LocalPurgeJobs.

End wms_local_sandbox_properties.

(** ** Properties of the process streams *)

Module process_base_properties.
Import process_base.

Lemma find_newline_None (s : str) :
  find_newline s = None → newline ∉ s.
Proof.
  unfold find_newline. destruct (list_find _ s) as [[i c]|] eqn:Hfind; [done |].
  intros _. apply list_find_None in Hfind.
  intros Hin. rewrite Forall_forall in Hfind. by apply (Hfind newline).
Qed.

Lemma find_newline_Some (s : str) (posEOL : nat) :
  find_newline s = Some posEOL →
  take (posEOL + 1) s = take posEOL s ++ [newline] ∧
  (newline ∉ take posEOL s) ∧
  (length (drop (posEOL + 1) s) < length s)%nat.
Proof.
  unfold find_newline. destruct (list_find _ s) as [[i c]|] eqn:Hfind; [| done].
  intros [= <-]. apply list_find_Some in Hfind as (Hi & -> & Hbefore).
  rewrite Nat.add_1_r. split; [by apply take_S_r |]. split.
  - intros Hin. apply list_elem_of_lookup in Hin as [j Hj].
    apply lookup_take_Some in Hj as [Hj Hlt].
    by apply (Hbefore j newline).
  - rewrite length_drop. apply lookup_lt_Some in Hi. lia.
Qed.

Lemma yield_lines_spec (fuel : nat) :
  ∀ buffer,
    (length buffer ≤ fuel)%nat →
    Forall complete_line (yield_lines fuel buffer).1 ∧
    concat (yield_lines fuel buffer).1 ++ (yield_lines fuel buffer).2 = buffer ∧
    newline ∉ (yield_lines fuel buffer).2.
Proof.
  induction fuel as [|fuel IH]; intros buffer Hlen.
  - destruct buffer; [| cbn in Hlen; lia].
    cbn. split; [constructor |]. split; [done |]. apply not_elem_of_nil.
  - cbn [yield_lines].
    destruct (find_newline buffer) as [posEOL|] eqn:Hfind.
    + destruct (find_newline_Some _ _ Hfind) as (Htake & Hbody & Hdrop).
      destruct (IH (drop (posEOL + 1) buffer)) as (Hlines & Hcat & Hrest);
        [lia |].
      destruct (yield_lines fuel (drop (posEOL + 1) buffer)) as [lines rest].
      cbn [fst snd] in *. split; [| split; [| done]].
      * constructor; [| done]. exists (take posEOL buffer). by split.
      * cbn [concat]. rewrite <- app_assoc, Hcat. apply take_drop.
    + cbn. split; [constructor |]. split; [done |].
      by apply find_newline_None.
Qed.

(** X16: [iter] yields complete lines, each ending in its only line end,
    and after them, when it returns, the rest of the buffer if there is
    one; the lines yielded and the buffer that is left are, in order, the
    text the buffer held and the text received, nothing lost and nothing
    added; the buffer that is left holds no line end, so that the inner
    loop has run to its end. *)
Theorem X16_iter_lines (rounds : list round) (timeout_soft : bool) :
  ∀ (waitedForShutdown : bool) (buffer : str),
    ∃ complete,
      Forall complete_line complete ∧
      (iter rounds timeout_soft waitedForShutdown buffer).1.1
      = complete
        ++ match (iter rounds timeout_soft waitedForShutdown buffer).1.2 with
           | returned =>
               if nonempty (iter rounds timeout_soft waitedForShutdown buffer).2
               then [(iter rounds timeout_soft waitedForShutdown buffer).2]
               else []
           | _ => []
           end ∧
      concat complete ++ (iter rounds timeout_soft waitedForShutdown buffer).2
      = buffer ++ received rounds timeout_soft waitedForShutdown ∧
      newline ∉ (iter rounds timeout_soft waitedForShutdown buffer).2.
Proof.
  induction rounds as [|r rounds IH]; intros waited buffer; cbn [iter received].
  - destruct (yield_lines_spec (length buffer) buffer) as (Hl & Hc & Hr);
      [done |].
    destruct (yield_lines (length buffer) buffer) as [lines rest].
    cbn [fst snd] in *. exists lines. rewrite !app_nil_r. by repeat split.
  - destruct (yield_lines_spec (length buffer) buffer) as (Hl & Hc & Hr);
      [done |].
    destruct (yield_lines (length buffer) buffer) as [lines rest].
    cbn [fst snd] in *.
    destruct (nonempty (tmp r)).
    { destruct (IH waited (rest ++ tmp r)) as (complete & Hcl & Hlines & Hcat & Hb).
      destruct (iter rounds timeout_soft waited (rest ++ tmp r))
        as [[lines' e] b].
      cbn [fst snd] in *. exists (lines ++ complete).
      split; [by apply Forall_app |]. split; [| split; [| done]].
      - by rewrite Hlines, app_assoc.
      - rewrite concat_app, <- app_assoc, Hcat, <- Hc.
        by rewrite <- !app_assoc. }
    destruct (event_shutdown_is_set r && negb waited).
    { destruct (IH true rest) as (complete & Hcl & Hlines & Hcat & Hb).
      destruct (iter rounds timeout_soft true rest) as [[lines' e] b].
      cbn [fst snd] in *. exists (lines ++ complete).
      split; [by apply Forall_app |]. split; [| split; [| done]].
      - by rewrite Hlines, app_assoc.
      - rewrite concat_app, <- app_assoc, Hcat, <- Hc.
        by rewrite <- !app_assoc. }
    destruct (event_finished_is_set r || timeout_soft); cbn [fst snd].
    + exists lines. rewrite app_nil_r. by repeat split.
    + exists lines. rewrite !app_nil_r. by repeat split.
Qed.

(** *** The log of a stream *)

Lemma stream_calls_log (calls : list stream_call) :
  ∀ log,
    _log (fold_left do_stream_call calls (mkStream (Some log)))
    = Some (read_since_clear calls log).
Proof.
  induction calls as [|c calls IH]; intros log; [done |].
  cbn [fold_left read_since_clear]. destruct c as [got|]; cbn; apply IH.
Qed.

Lemma stream_calls_no_log (calls : list stream_call) :
  fold_left do_stream_call calls (mkStream None) = mkStream None.
Proof.
  induction calls as [|c calls IH]; [done |].
  cbn [fold_left]. by destruct c.
Qed.

(** X17: on a stream that logs, after any sequence of calls of [read] and
    [clear_log], the log is the text read since the log was cleared last;
    [read_log] returns that text followed by what its own read received,
    and [clear_log] returns it and leaves an empty log.  On a stream that
    does not log, the log stays unset and [read_log] returns only what its
    own read received. *)
Theorem X17_stream_log (calls : list stream_call) (log got : str) :
  _log (fold_left do_stream_call calls (mkStream (Some log)))
  = Some (read_since_clear calls log) ∧
  (read_log (fold_left do_stream_call calls (mkStream (Some log))) got).2
  = read_since_clear calls log ++ got ∧
  clear_log (fold_left do_stream_call calls (mkStream (Some log)))
  = (mkStream (Some []), Some (read_since_clear calls log)) ∧
  _log (fold_left do_stream_call calls (mkStream None)) = None ∧
  (read_log (fold_left do_stream_call calls (mkStream None)) got).2 = got.
Proof.
  pose proof (stream_calls_log calls log) as Hlog.
  rewrite stream_calls_no_log.
  destruct (fold_left do_stream_call calls (mkStream (Some log))) as [l].
  cbn [_log] in Hlog. subst l.
  split; [done |]. split; [| by repeat split].
  unfold read_log, read, ProcessStream_read_log. cbn.
  destruct (read_since_clear calls log ++ got) eqn:Happ; [| done].
  cbn. by apply app_eq_nil in Happ as [_ ->].
Qed.

End process_base_properties.

(** ** Properties of the variables of a task *)

Module task_base_properties.
Import psource_meta task_base.

Lemma dict_fold_lookup {A} (g : A → string) (h : string → string)
    (l : list A) (k : string) :
  ∀ d : gmap string string,
    fold_left (λ d kv, <[kv.1 := kv.2]> d) (map (λ x, (g x, h (g x))) l) d
    !! k
    = if decide (k ∈ map g l) then Some (h k) else d !! k.
Proof.
  induction l as [|x l IH]; intros d; cbn [map fold_left].
  - rewrite decide_False; [done | apply not_elem_of_nil].
  - rewrite IH. cbn [fst snd].
    destruct (decide (k ∈ map g l)) as [Hin | Hnin].
    + rewrite decide_True; [done | by right].
    + destruct (decide (k = g x)) as [-> | Hne].
      * rewrite lookup_insert_eq. rewrite decide_True; [done | by left].
      * rewrite lookup_insert_ne by done.
        rewrite decide_False; [done |].
        intros [? | ?]%elem_of_cons; done.
Qed.

Lemma alias_lookup (k v : string) :
  dict alias_pairs !! k = Some v → (k, v) ∈ alias_pairs.
Proof.
  unfold dict, alias_pairs. cbn [fold_left fst snd]. intros H.
  repeat (apply lookup_insert_Some in H as [[<- <-] | [_ H]];
          [set_solver |]).
  by rewrite lookup_empty in H.
Qed.

(** X18: in the alias map of a task every variable of the task and every
    transient variable stands for itself, also when an alias of the same
    name exists; every other name keeps the alias it has by default; and
    aliases are not chained: the name an entry stands for stands for
    itself or has no entry. *)
Theorem X18_var_alias_map (var_name_list : list string) (k : string) :
  get_var_alias_map var_name_list !! k
  = (if decide (k ∈ var_name_list ++ transients) then Some k
     else dict alias_pairs !! k) ∧
  ∀ v v', get_var_alias_map var_name_list !! k = Some v →
          get_var_alias_map var_name_list !! v = Some v' →
          v' = v.
Proof.
  assert (Hlookup : ∀ k, get_var_alias_map var_name_list !! k
            = if decide (k ∈ var_name_list ++ transients) then Some k
              else dict alias_pairs !! k).
  { intros k0. unfold get_var_alias_map, dict_update, izip_same.
    rewrite lookup_union.
    unfold dict at 1.
    rewrite (dict_fold_lookup id id). rewrite List.map_id. unfold id.
    set (aliases := dict alias_pairs).
    destruct (decide (k0 ∈ var_name_list ++ transients)).
    - by destruct (aliases !! k0).
    - rewrite lookup_empty. by destruct (aliases !! k0). }
  split; [apply Hlookup |].
  intros v v'. rewrite !Hlookup.
  destruct (decide (k ∈ var_name_list ++ transients)) as [Hk | Hk].
  - intros [= <-]. rewrite decide_True by done. congruence.
  - intros Hv. destruct (decide (v ∈ var_name_list ++ transients));
      [congruence |].
    intros Hv'. exfalso.
    apply alias_lookup in Hv. apply alias_lookup in Hv'.
    unfold alias_pairs in Hv, Hv'.
    repeat (apply elem_of_cons in Hv as [Heq | Hv];
            [injection Heq as -> ->;
             repeat (apply elem_of_cons in Hv' as [Heq' | Hv'];
                     [discriminate Heq' |]);
             by apply elem_of_nil in Hv' |]).
    by apply elem_of_nil in Hv.
Qed.

(** X19: the job dictionary of a task has one entry for every parameter
    the adapter describes and no other; the entry is the value the job
    content has for the parameter, and the empty string when it has
    none. *)
Theorem X19_job_dict (tmp : gmap string string)
    (metadata : list ParameterMetadata) (k : string) :
  get_job_dict tmp metadata !! k
  = if decide (k ∈ map value metadata)
    then Some (default ""%string (tmp !! k))
    else None.
Proof.
  unfold get_job_dict, dict.
  rewrite (dict_fold_lookup value (λ k, default ""%string (tmp !! k))).
  by rewrite lookup_empty.
Qed.

End task_base_properties.

(** ** Properties of the download of a job *)

Module downloadFromSE_properties.
Import job_db downloadFromSE.

Section download_job_output.

Variable fileInfo : Type.
Variable int : string → Z.
Variable str : Z → string.
Variable download_file : nat → fileInfo → option bool.

Abbreviation files_loop := (download_files fileInfo download_file).
Abbreviation download := (download_job_output fileInfo int str download_file).

Lemma download_files_failed (files : list fileInfo) :
  ∀ fileIdx attempted,
    files_loop files fileIdx true attempted = (true, attempted).
Proof.
  induction files as [|fi files IH]; intros fileIdx attempted; [done |].
  cbn [download_files]. apply IH.
Qed.

Lemma download_files_spec (files : list fileInfo) :
  ∀ fileIdx attempted,
    ∃ k, (files_loop files fileIdx false attempted).2
         = attempted ++ seq fileIdx k ∧
         (k ≤ length files)%nat ∧
         (∀ j fi, (S j < k)%nat → files !! j = Some fi →
                  download_file (fileIdx + j) fi = Some true) ∧
         ((files_loop files fileIdx false attempted).1 = false →
          k = length files ∧
          ∀ j fi, files !! j = Some fi →
                  download_file (fileIdx + j) fi = Some true).
Proof.
  induction files as [|fi files IH]; intros fileIdx attempted.
  - exists 0%nat. cbn. rewrite app_nil_r. repeat split; try done; lia.
  - cbn [download_files].
    destruct (download_file fileIdx fi) as [[|]|] eqn:Hfile; cbn [truth negb].
    + destruct (IH (S fileIdx) (attempted ++ [fileIdx]))
        as (k & Hatt & Hk & Hbefore & Hall).
      exists (S k). split; [| split; [| split]].
      * rewrite Hatt. cbn [seq]. by rewrite <- app_assoc.
      * cbn. lia.
      * intros [|j] fi' Hj Hfi.
        -- injection Hfi as <-. by rewrite Nat.add_0_r.
        -- replace (fileIdx + S j)%nat with (S fileIdx + j)%nat by lia.
           apply Hbefore; [lia | done].
      * intros Hok. destruct (Hall Hok) as [-> Hall'].
        split; [done |]. intros [|j] fi' Hfi.
        -- injection Hfi as <-. by rewrite Nat.add_0_r.
        -- replace (fileIdx + S j)%nat with (S fileIdx + j)%nat by lia.
           by apply Hall'.
    + rewrite download_files_failed. exists 1%nat. cbn [fst snd seq].
      split; [done |]. split; [cbn; lia |]. split; [intros; lia | done].
    + rewrite download_files_failed. exists 1%nat. cbn [fst snd seq].
      split; [done |]. split; [cbn; lia |]. split; [intros; lia | done].
Qed.

(** What holds of a call of [download_job_output] that returned [r] *)
Abbreviation outcome_ok := (λ (opts : Options) (job : Job)
    (files : list fileInfo) (r : download_result),
  (state job ≠ SUCCESS →
   job_obj r = job ∧ committed r = false ∧ attempted r = []) ∧
  (state (job_obj r) = state job ∨
   state (job_obj r) = FAILED ∧ mark_fail opts = true ∧
   cleaned r = Some true ∧ committed r = true) ∧
  (attempt (job_obj r), history (job_obj r), gc_id (job_obj r))
  = (attempt job, history job, gc_id job) ∧
  (dict (job_obj r) !! "download"%string = Some "True"%string →
   dict job !! "download"%string = Some "True"%string ∨
   files ≠ [] ∧ attempted r = seq 0 (length files) ∧
   ∀ j fi, files !! j = Some fi → download_file j fi = Some true) ∧
  (∀ i j fi, i ∈ attempted r → (j < i)%nat → files !! j = Some fi →
             download_file j fi = Some true)).

Lemma outcome_untouched (opts : Options) (job : Job) (files : list fileInfo)
    (r : download_result) :
  job_obj r = job → committed r = false → attempted r = [] →
  outcome_ok opts job files r.
Proof.
  intros Hjob Hcommit Hatt. cbn beta. rewrite Hjob, Hatt.
  split; [done |]. split; [by left |]. split; [done |].
  split; [by left |]. intros i j fi Hi. by apply elem_of_nil in Hi.
Qed.

Lemma outcome_failed (opts : Options) (job : Job) (files : list fileInfo)
    (k : nat) :
  state job = SUCCESS →
  (∀ i j fi, i ∈ seq 0 k → (j < i)%nat → files !! j = Some fi →
             download_file j fi = Some true) →
  outcome_ok opts job files
    (mkResult "Failed downloads"
       (if mark_fail opts then set_state job FAILED else job)
       true (seq 0 k) (Some true)).
Proof.
  intros Hsucc Hshort. cbn.
  split; [done |]. split.
  { destruct (mark_fail opts) eqn:Hmf; [right | left]; done. }
  split; [by destruct (mark_fail opts) |].
  split; [destruct (mark_fail opts); by left | exact Hshort].
Qed.

Lemma outcome_retry (opts : Options) (job : Job) (files : list fileInfo)
    (k : nat) (v : string) :
  state job = SUCCESS →
  (∀ i j fi, i ∈ seq 0 k → (j < i)%nat → files !! j = Some fi →
             download_file j fi = Some true) →
  outcome_ok opts job files
    (mkResult "Download attempts" (job_db.set job "download attempt" v)
       true (seq 0 k) None).
Proof.
  intros Hsucc Hshort. cbn.
  split; [done |]. split; [by left |]. split; [done |].
  split; [| exact Hshort].
  rewrite lookup_insert_ne by done. by left.
Qed.

Lemma outcome_success (opts : Options) (job : Job) (files : list fileInfo) :
  state job = SUCCESS →
  files ≠ [] →
  (∀ j fi, files !! j = Some fi → download_file j fi = Some true) →
  outcome_ok opts job files
    (mkResult "Successful download"
       (if mark_dl opts then job_db.set job "download" "True" else job)
       true (seq 0 (length files)) (Some false)).
Proof.
  intros Hsucc Hne Hall. cbn.
  split; [done |]. split; [by destruct (mark_dl opts); left |].
  split; [by destruct (mark_dl opts) |].
  split.
  - intros _. right. split; [done |]. split; [done | exact Hall].
  - intros i j fi _ _ Hfi. by apply (Hall j fi).
Qed.

(** X20: [download_job_output] leaves a job that has not finished
    successfully as it is and commits nothing; it changes the state of a
    job only to FAILED, and only with the option [mark_fail]; it never
    changes the attempt counter or the history; it marks a job as
    downloaded only when the job has files and [download_file] returned
    [True] for every one of them; and it calls [download_file] for a file
    only when it returned [True] for every file before it. *)
Theorem X20_download_outcome (opts : Options) (job : Job) (can_submit : bool)
    (files : list fileInfo) (r : download_result) :
  download opts job can_submit files = returns r →
  (state job ≠ SUCCESS →
   job_obj r = job ∧ committed r = false ∧ attempted r = []) ∧
  (state (job_obj r) = state job ∨
   state (job_obj r) = FAILED ∧ mark_fail opts = true ∧
   cleaned r = Some true ∧ committed r = true) ∧
  (attempt (job_obj r), history (job_obj r), gc_id (job_obj r))
  = (attempt job, history job, gc_id job) ∧
  (dict (job_obj r) !! "download"%string = Some "True"%string →
   dict job !! "download"%string = Some "True"%string ∨
   files ≠ [] ∧ attempted r = seq 0 (length files) ∧
   ∀ j fi, files !! j = Some fi → download_file j fi = Some true) ∧
  (∀ i j fi, i ∈ attempted r → (j < i)%nat → files !! j = Some fi →
             download_file j fi = Some true).
Proof.
  unfold download_job_output.
  destruct (bool_decide_reflect (state job = SUCCESS)) as [Hsucc | Hsucc];
    cbn [negb].
  2: { intros [= <-]. by apply outcome_untouched. }
  destruct (bool_decide (job_db.get job "download" None = Some "True"%string)
            && negb (mark_ignore_dl opts)).
  { intros [= <-]. by apply outcome_untouched. }
  destruct can_submit; cbn [negb]; [| discriminate].
  set (retry_count := match job_db.get job "download attempt" None with
                      | Some v => int v
                      | None => 0
                      end).
  set (again := match retry opts with
                | Some n => retry_count <? n
                | None => false
                end).
  destruct files as [|fi0 files'] eqn:Hfiles.
  - destruct (mark_empty_fail opts).
    + cbn [download_files]. destruct again; cbn [andb]; intros [= <-].
      * apply (outcome_retry opts job [] 0 _ Hsucc).
        intros i j fi Hi. by apply elem_of_nil in Hi.
      * apply (outcome_failed opts job [] 0 Hsucc).
        intros i j fi Hi. by apply elem_of_nil in Hi.
    + intros [= <-]. by apply outcome_untouched.
  - assert (Hloop : (let '(failJob, attempted) :=
                       files_loop (fi0 :: files') 0 false [] in
                     if failJob && again
                     then returns
                            (mkResult "Download attempts"
                               (job_db.set job "download attempt"
                                  (str (retry_count + 1)))
                               true attempted None)
                     else if failJob
                     then returns
                            (mkResult "Failed downloads"
                               (if mark_fail opts then set_state job FAILED
                                else job)
                               true attempted (Some true))
                     else returns
                            (mkResult "Successful download"
                               (if mark_dl opts
                                then job_db.set job "download" "True"
                                else job)
                               true attempted (Some false)))
                    = returns r →
                    outcome_ok opts job (fi0 :: files') r).
    { rewrite <- Hfiles.
      destruct (download_files_spec files 0 [])
        as (k & Hatt & Hk & Hbefore & Hall).
      destruct (files_loop files 0 false []) as [failJob att].
      cbn [fst snd app] in Hatt, Hall. subst att.
      assert (Hshort : ∀ i j fi, i ∈ seq 0 k → (j < i)%nat →
                                 files !! j = Some fi →
                                 download_file j fi = Some true).
      { intros i j fi Hi Hj Hfi. apply elem_of_seq in Hi.
        apply (Hbefore j fi); [lia | done]. }
      destruct failJob.
      - destruct again; cbn [andb]; intros [= <-].
        + by apply outcome_retry.
        + by apply outcome_failed.
      - cbn [andb]. intros [= <-].
        destruct (Hall eq_refl) as [-> Hall'].
        apply outcome_success; [done | by rewrite Hfiles | exact Hall']. }
    destruct (mark_empty_fail opts); exact Hloop.
Qed.

Lemma download_success_all (opts : Options) (job : Job) (can_submit : bool)
    (files : list fileInfo) (r : download_result) :
  download opts job can_submit files = returns r →
  info r = "Successful download"%string →
  ∀ j fi, files !! j = Some fi → download_file j fi = Some true.
Proof.
  unfold download_job_output.
  destruct (negb (bool_decide (state job = SUCCESS)));
    [by intros [= <-] |].
  destruct (bool_decide (job_db.get job "download" None = Some "True"%string)
            && negb (mark_ignore_dl opts)); [by intros [= <-] |].
  destruct can_submit; cbn [negb]; [| discriminate].
  destruct files as [|fi0 files'] eqn:Hfiles; [done |].
  rewrite <- Hfiles.
  assert (Hloop : ∀ again : bool,
            (let '(failJob, att) := files_loop files 0 false [] in
             if failJob && again
             then returns
                    (mkResult "Download attempts"
                       (job_db.set job "download attempt"
                          (str (match job_db.get job "download attempt" None with
                                | Some v => int v
                                | None => 0
                                end + 1)))
                       true att None)
             else if failJob
             then returns
                    (mkResult "Failed downloads"
                       (if mark_fail opts then set_state job FAILED else job)
                       true att (Some true))
             else returns
                    (mkResult "Successful download"
                       (if mark_dl opts then job_db.set job "download" "True"
                        else job)
                       true att (Some false))) = returns r →
            info r = "Successful download"%string →
            ∀ j fi, files !! j = Some fi → download_file j fi = Some true).
  { intros again.
    destruct (download_files_spec files 0 []) as (k & _ & _ & _ & Hall).
    destruct (files_loop files 0 false []) as [failJob att].
    cbn [fst] in Hall.
    destruct failJob.
    - destruct again; cbn [andb]; by intros [= <-].
    - intros _ _ j fi Hfi. destruct (Hall eq_refl) as [_ Hall'].
      by apply (Hall' j fi). }
  rewrite Hfiles in Hloop |- *.
  destruct (mark_empty_fail opts); apply Hloop.
Qed.

End download_job_output.

(** X22: a file that [download_file] skips, because it is not on a
    selected storage element or because it exists already under
    [skip_existing], makes it return [None], and [download_job_output]
    does not count a job with such a file as a successful download: the
    skipped file counts as a failed one. *)
Theorem X22_skipped_file_fails (fileInfo : Type) (int : string → Z)
    (str : Z → string) (hash : fileInfo → string)
    (env : nat → fileInfo → FileEnv) (fopts : FileOptions) (opts : Options)
    (job : Job) (can_submit : bool) (files : list fileInfo)
    (r : download_result) (j : nat) (fi : fileInfo) :
  download_job_output fileInfo int str
    (λ fileIdx fi, download_file fopts (hash fi) (env fileIdx fi))
    opts job can_submit files = returns r →
  files !! j = Some fi →
  selectSE fopts = true ∧ on_selected_SE (env j fi) = false ∨
  skip_existing fopts = true ∧ exists_local (env j fi) = true →
  download_file fopts (hash fi) (env j fi) = None ∧
  info r ≠ "Successful download"%string.
Proof.
  intros Hr Hfi Hskip.
  assert (Hnone : download_file fopts (hash fi) (env j fi) = None).
  { unfold download_file. destruct Hskip as [[-> ->] | [-> ->]]; [done |].
    by destruct (selectSE fopts && negb (on_selected_SE (env j fi))). }
  split; [exact Hnone |]. intros Hinfo.
  pose proof (download_success_all fileInfo int str _ opts job can_submit
                files r Hr Hinfo j fi Hfi) as Htrue.
  cbn beta in Htrue. congruence.
Qed.

End downloadFromSE_properties.

Module downloadFromSE_examples.
Import job_db downloadFromSE downloadFromSE_properties.

Lemma X20_download_outcome_witness :
  ∃ r,
    download_job_output string (λ _, 0) (λ _, "1"%string)
      (λ fileIdx _, if (fileIdx =? 1)%nat then Some false else Some true)
      (mkOptions false false None true true)
      (update Job_init SUCCESS 5) true ["a"; "b"; "c"]%string
    = returns r ∧
    info r = "Failed downloads"%string ∧
    state (job_obj r) = FAILED ∧
    attempted r = [0; 1]%nat ∧
    dict (job_obj r) !! "download"%string = None ∧
    history (job_obj r) = history (update Job_init SUCCESS 5).
Proof.
  eexists. split; [reflexivity |].
  destruct (X20_download_outcome string (λ _, 0) (λ _, "1"%string)
              (λ fileIdx _, if (fileIdx =? 1)%nat then Some false
                            else Some true)
              (mkOptions false false None true true)
              (update Job_init SUCCESS 5) true ["a"; "b"; "c"]%string
              _ eq_refl) as (_ & _ & Hsame & _ & _).
  split; [reflexivity |]. split; [reflexivity |]. split; [reflexivity |].
  split; [reflexivity |]. exact (f_equal (λ t, t.1.2) Hsame).
Defined.

Lemma X22_skipped_file_fails_witness :
  ∃ r,
    download_job_output string (λ _, 0) (λ _, "1"%string)
      (λ fileIdx fi,
         download_file (mkFileOptions false true true) fi
           (mkFileEnv true true true (Some fi)))
      (mkOptions false false None true true)
      (update Job_init SUCCESS 5) true ["a"]%string
    = returns r ∧
    download_file (mkFileOptions false true true) "a"
      (mkFileEnv true true true (Some "a"%string)) = None ∧
    info r ≠ "Successful download"%string ∧
    state (job_obj r) = FAILED.
Proof.
  eexists. split; [reflexivity |].
  destruct (X22_skipped_file_fails string (λ _, 0) (λ _, "1"%string)
              (λ fi, fi) (λ _ fi, mkFileEnv true true true (Some fi))
              (mkFileOptions false true true)
              (mkOptions false false None true true)
              (update Job_init SUCCESS 5) true ["a"]%string _ 0%nat
              "a"%string eq_refl eq_refl) as [Hnone Hinfo].
  - right. by split.
  - split; [exact Hnone |]. split; [exact Hinfo | reflexivity].
Defined.

End downloadFromSE_examples.
